(** * Recurring jobs of the kratos layout: [internal/job]

    A shallow embedding of [TickerJob] (constructor, [Start], [Stop]) and of
    the job [Registry], with the properties of their lifecycle contract.

    [Start] and [Stop] are concurrent code.  They are embedded as an
    interleaving semantics: every goroutine has a program counter named after
    the source line it is about to execute, one [Event] lets one goroutine
    execute one statement (or lets the environment act: the interval timer
    elapses, the context is cancelled, somebody calls [Stop]), and [step] is
    the resulting deterministic transition function.  An event that is not
    enabled in a state leaves the state unchanged (the goroutine is blocked
    or is somewhere else).  Whole executions are lists of events ([run]) or,
    for liveness, infinite schedules [nat -> Event] ([exec]).

    What the Go runtime and library do is taken from their documentation:
    - [sync.Once.Do] runs its argument for the first caller only and makes
      every other caller wait until that run is over;
    - [close] of a closed channel panics;
    - [sync.WaitGroup]: [Add] and [Done] change a counter, [Done] panics when
      it would become negative, [Wait] blocks until it is zero;
    - [time.NewTicker] panics on a non-positive duration; the ticker's
      channel holds one tick and a tick that finds it full is dropped;
    - [select] takes any one of the ready cases and blocks when there is
      none;
    - calling a nil function value panics, and a panic in any goroutine
      ends the process.

    The action is opaque: an invocation is entered by the goroutine that
    calls it and left when the environment says so ([EvReturns]).  An
    invocation that is left returns.  [Start] has no [recover], so an
    action that panics takes down the goroutine that called it, and the
    process with it; such a panic is not an event of this model, and
    nothing below says that the action does not panic: the statements are
    about the executions in which the invocations that end return.
    [Start] is called once for a job, as its lifecycle has it. *)

From stdpp Require Import base tactics option list numbers strings gmap.

Local Open Scope Z_scope.

(** ** Data *)

(** [error] values [Start] can hand back: what [ctx.Err()] yields once the
    context is done.  A Go [nil] error is [None] of [option error]. *)
Inductive error : Set :=
| Canceled
| DeadlineExceeded.

(** The user-supplied [func(ctx context.Context)]; opaque to the job.
    A nil function value is [None] of [option Func]. *)
Inductive Func : Set :=
| Closure (id : nat).

Inductive Logger : Set :=
| DefaultLogger
| CustomLogger (id : nat).

(** [*log.Helper] *)
Record Helper : Set := NewHelper { helper_logger : Logger }.

(** [chan struct{}] on which nothing is ever sent: open or closed. *)
Inductive Chan : Set :=
| ChOpen
| ChClosed.

(** [sync.Once]: nobody called [Do] yet, the first call is running its
    function, the first call is over. *)
Inductive Once : Set :=
| OnceFresh
| OnceRunning
| OnceDone.

(** [TickerJob] (lines 14-23).  [interval] is a [time.Duration]; [wg] is the
    counter of the [sync.WaitGroup]. *)
Record TickerJob : Set := mkTickerJob {
  name : string;
  log : Helper;
  interval : Z;
  stopCh : Chan;
  stopOnce : Once;
  executeImmediate : bool;
  executeFn : option Func;
  wg : Z
}.

(** [newTickerJob] (lines 25-34): the zero values of [sync.Once] and
    [sync.WaitGroup], a fresh channel, the parameters as they come. *)
Definition newTickerJob (name : string) (interval : Z) (logger : Logger)
    (executeFn : option Func) (executeImmediate : bool) : TickerJob :=
  {| name := name;
     log := NewHelper logger;
     interval := interval;
     stopCh := ChOpen;
     stopOnce := OnceFresh;
     executeImmediate := executeImmediate;
     executeFn := executeFn;
     wg := 0 |}.

Definition set_wg (j : TickerJob) (n : Z) : TickerJob :=
  {| name := name j; log := log j; interval := interval j;
     stopCh := stopCh j; stopOnce := stopOnce j;
     executeImmediate := executeImmediate j; executeFn := executeFn j;
     wg := n |}.

Definition set_stopCh (j : TickerJob) (c : Chan) : TickerJob :=
  {| name := name j; log := log j; interval := interval j;
     stopCh := c; stopOnce := stopOnce j;
     executeImmediate := executeImmediate j; executeFn := executeFn j;
     wg := wg j |}.

Definition set_stopOnce (j : TickerJob) (o : Once) : TickerJob :=
  {| name := name j; log := log j; interval := interval j;
     stopCh := stopCh j; stopOnce := o;
     executeImmediate := executeImmediate j; executeFn := executeFn j;
     wg := wg j |}.

(** ** Goroutines *)

Inductive Panic : Set :=
| PanicNonPositiveInterval   (* time.NewTicker *)
| PanicNilFunc               (* call of a nil func value *)
| PanicCloseOfClosed         (* close of closed channel *)
| PanicNegativeCounter.      (* sync: negative WaitGroup counter *)

(** The three cases of the [select] of lines 52-67. *)
Inductive SelectCase : Set :=
| CaseCtx      (* <-ctx.Done() *)
| CaseStop     (* <-j.stopCh *)
| CaseTick.    (* <-ticker.C *)

(** Where the goroutine that runs [Start] is.  [ML n] stands before line
    [n] of the source. *)
Inductive MainPc : Set :=
| ML38                       (* Start not entered yet; first statement is the log line *)
| ML40                       (* if j.executeImmediate { j.wg.Add(1) *)
| ML42                       (* go func() {...}() *)
| ML48                       (* ticker := time.NewTicker(j.interval) *)
| ML52                       (* select *)
| ML55                       (* j.wg.Wait(); return ctx.Err() *)
| ML59                       (* j.wg.Wait(); return nil *)
| ML62                       (* j.wg.Add(1) *)
| ML65                       (* j.executeFn(ctx): the call *)
| MInFn                      (* inside executeFn *)
| ML64                       (* deferred j.wg.Done() *)
| MReturned (r : option error)
| MPanicked (p : Panic).

(** The goroutine of lines 42-45. *)
Inductive ImmPc : Set :=
| INone                      (* not launched *)
| IL44                       (* j.executeFn(ctx): the call *)
| IInFn                      (* inside executeFn *)
| IL43                       (* deferred j.wg.Done() *)
| IDone
| IPanicked (p : Panic).

(** One call of [Stop] (lines 72-77). *)
Inductive StopPc : Set :=
| SL73                       (* j.stopOnce.Do(...) *)
| SL74                       (* close(j.stopCh), inside Do *)
| SL75                       (* the function is over, Do is about to finish *)
| SReturned (r : option error)
| SPanicked (p : Panic).

(** [time.Ticker]: not created yet, running with a tick waiting in its
    channel or not, stopped. *)
Inductive Ticker : Set :=
| NoTicker
| Running (pending : bool)
| Stopped.

(** Which of the two call sites invoked the action. *)
Inductive Origin : Set :=
| Immediate                  (* line 44 *)
| Ticked.                    (* line 65 *)

Inductive LogLine : Set :=
| LogStarted (name : string) (interval : Z)
| LogStoppedByContext (name : string)
| LogStopped (name : string).

(** What an onlooker can see happen, in the order it happens (the trace
    keeps the newest observation first). *)
Inductive Obs : Set :=
| ObsLog (l : LogLine)
| ObsLaunch                  (* the go statement of line 42 *)
| ObsBegin (o : Origin)      (* executeFn entered *)
| ObsEnd (o : Origin)        (* executeFn left *)
| ObsSelect (c : SelectCase) (* the select took this case *)
| ObsElapsed (delivered : bool) (* the interval elapsed; dropped when not delivered *)
| ObsClose.                  (* close(j.stopCh) *)

Record World : Set := mkWorld {
  job : TickerJob;
  ctxErr : option error;     (* ctx.Err(); ctx.Done() is closed when it is not nil *)
  ticker : Ticker;
  main : MainPc;
  imm : ImmPc;
  stoppers : list StopPc;
  trace : list Obs
}.

(** A job, the context handed to [Start] not cancelled, nobody running. *)
Definition init (j : TickerJob) : World :=
  {| job := j; ctxErr := None; ticker := NoTicker; main := ML38; imm := INone;
     stoppers := []; trace := [] |}.

Inductive Event : Set :=
| EvMain                     (* the goroutine of Start executes its statement *)
| EvSelect (c : SelectCase)  (* the select of Start takes case c *)
| EvImm                      (* the goroutine of line 42 executes its statement *)
| EvReturns (o : Origin)     (* the action invoked from o returns *)
| EvStopCall                 (* a caller enters Stop *)
| EvStopStep (i : nat)       (* the i-th caller of Stop executes its statement *)
| EvCancel (e : error)       (* the context is cancelled or its deadline passes *)
| EvElapse.                  (* the interval of the ticker elapses *)

(** ** Transitions *)

Definition with_job (w : World) (j : TickerJob) : World :=
  {| job := j; ctxErr := ctxErr w; ticker := ticker w; main := main w;
     imm := imm w; stoppers := stoppers w; trace := trace w |}.

Definition with_ctxErr (w : World) (e : option error) : World :=
  {| job := job w; ctxErr := e; ticker := ticker w; main := main w;
     imm := imm w; stoppers := stoppers w; trace := trace w |}.

Definition with_ticker (w : World) (t : Ticker) : World :=
  {| job := job w; ctxErr := ctxErr w; ticker := t; main := main w;
     imm := imm w; stoppers := stoppers w; trace := trace w |}.

Definition with_main (w : World) (pc : MainPc) : World :=
  {| job := job w; ctxErr := ctxErr w; ticker := ticker w; main := pc;
     imm := imm w; stoppers := stoppers w; trace := trace w |}.

Definition with_imm (w : World) (pc : ImmPc) : World :=
  {| job := job w; ctxErr := ctxErr w; ticker := ticker w; main := main w;
     imm := pc; stoppers := stoppers w; trace := trace w |}.

Definition with_stoppers (w : World) (l : list StopPc) : World :=
  {| job := job w; ctxErr := ctxErr w; ticker := ticker w; main := main w;
     imm := imm w; stoppers := l; trace := trace w |}.

Definition emit (o : Obs) (w : World) : World :=
  {| job := job w; ctxErr := ctxErr w; ticker := ticker w; main := main w;
     imm := imm w; stoppers := stoppers w; trace := o :: trace w |}.

(** [j.wg.Add(1)] *)
Definition wg_add (j : TickerJob) : TickerJob := set_wg j (wg j + 1).

(** [j.wg.Done()]: [None] is the panic on a negative counter. *)
Definition wg_done (j : TickerJob) : option TickerJob :=
  if wg j - 1 <? 0 then None else Some (set_wg j (wg j - 1)).

Definition main_panicked (pc : MainPc) : bool :=
  match pc with MPanicked _ => true | _ => false end.

Definition imm_panicked (pc : ImmPc) : bool :=
  match pc with IPanicked _ => true | _ => false end.

Definition stop_panicked (pc : StopPc) : bool :=
  match pc with SPanicked _ => true | _ => false end.

(** A panic nobody recovers ends the process: nothing moves any more. *)
Definition crashed (w : World) : bool :=
  main_panicked (main w) || imm_panicked (imm w) || existsb stop_panicked (stoppers w).

(** [Start], one statement at a time (lines 37-69) but for the [select]
    and the body of the action. *)
Definition step_main (w : World) : World :=
  match main w with
  | ML38 =>
      with_main (emit (ObsLog (LogStarted (name (job w)) (interval (job w)))) w) ML40
  | ML40 =>
      if executeImmediate (job w)
      then with_main (with_job w (wg_add (job w))) ML42
      else with_main w ML48
  | ML42 => with_main (with_imm (emit ObsLaunch w) IL44) ML48
  | ML48 =>
      if interval (job w) <=? 0
      then with_main w (MPanicked PanicNonPositiveInterval)
      else with_main (with_ticker w (Running false)) ML52
  | ML55 =>
      if wg (job w) =? 0
      then with_main (with_ticker w Stopped) (MReturned (ctxErr w))
      else w
  | ML59 =>
      if wg (job w) =? 0
      then with_main (with_ticker w Stopped) (MReturned None)
      else w
  | ML62 => with_main (with_job w (wg_add (job w))) ML65
  | ML65 =>
      match executeFn (job w) with
      | None => with_main w (MPanicked PanicNilFunc)
      | Some _ => with_main (emit (ObsBegin Ticked) w) MInFn
      end
  | ML64 =>
      match wg_done (job w) with
      | None => with_main w (MPanicked PanicNegativeCounter)
      | Some j => with_main (with_job w j) ML52
      end
  | ML52 | MInFn | MReturned _ | MPanicked _ => w
  end.

(** Is case [c] of the [select] ready? *)
Definition ready (c : SelectCase) (w : World) : bool :=
  match c with
  | CaseCtx => match ctxErr w with Some _ => true | None => false end
  | CaseStop => match stopCh (job w) with ChClosed => true | ChOpen => false end
  | CaseTick => match ticker w with Running true => true | _ => false end
  end.

(** The [select] of line 52 takes case [c] (lines 53-54, 57-58, 61). *)
Definition step_select (c : SelectCase) (w : World) : World :=
  match main w with
  | ML52 =>
      if ready c w then
        match c with
        | CaseCtx =>
            with_main
              (emit (ObsLog (LogStoppedByContext (name (job w)))) (emit (ObsSelect CaseCtx) w))
              ML55
        | CaseStop =>
            with_main
              (emit (ObsLog (LogStopped (name (job w)))) (emit (ObsSelect CaseStop) w))
              ML59
        | CaseTick =>
            with_main (with_ticker (emit (ObsSelect CaseTick) w) (Running false)) ML62
        end
      else w
  | _ => w
  end.

(** The goroutine of lines 42-45. *)
Definition step_imm (w : World) : World :=
  match imm w with
  | IL44 =>
      match executeFn (job w) with
      | None => with_imm w (IPanicked PanicNilFunc)
      | Some _ => with_imm (emit (ObsBegin Immediate) w) IInFn
      end
  | IL43 =>
      match wg_done (job w) with
      | None => with_imm w (IPanicked PanicNegativeCounter)
      | Some j => with_imm (with_job w j) IDone
      end
  | INone | IInFn | IDone | IPanicked _ => w
  end.

(** The action returns to the call site it was invoked from.  (Its other
    way out, a panic, is not modelled; see above.) *)
Definition step_returns (o : Origin) (w : World) : World :=
  match o with
  | Ticked =>
      match main w with
      | MInFn => with_main (emit (ObsEnd Ticked) w) ML64
      | _ => w
      end
  | Immediate =>
      match imm w with
      | IInFn => with_imm (emit (ObsEnd Immediate) w) IL43
      | _ => w
      end
  end.

(** [Stop] (lines 72-77), one statement of its [i]-th caller. *)
Definition step_stop (i : nat) (w : World) : World :=
  match stoppers w !! i with
  | Some SL73 =>
      match stopOnce (job w) with
      | OnceFresh =>
          with_stoppers (with_job w (set_stopOnce (job w) OnceRunning))
            (<[i := SL74]> (stoppers w))
      | OnceRunning => w
      | OnceDone => with_stoppers w (<[i := SReturned None]> (stoppers w))
      end
  | Some SL74 =>
      match stopCh (job w) with
      | ChClosed => with_stoppers w (<[i := SPanicked PanicCloseOfClosed]> (stoppers w))
      | ChOpen =>
          with_stoppers (with_job (emit ObsClose w) (set_stopCh (job w) ChClosed))
            (<[i := SL75]> (stoppers w))
      end
  | Some SL75 =>
      with_stoppers (with_job w (set_stopOnce (job w) OnceDone))
        (<[i := SReturned None]> (stoppers w))
  | Some (SReturned _) | Some (SPanicked _) | None => w
  end.

Definition step_cancel (e : error) (w : World) : World :=
  match ctxErr w with
  | None => with_ctxErr w (Some e)
  | Some _ => w
  end.

Definition step_elapse (w : World) : World :=
  match ticker w with
  | Running p => with_ticker (emit (ObsElapsed (negb p)) w) (Running true)
  | NoTicker | Stopped => w
  end.

Definition step (e : Event) (w : World) : World :=
  if crashed w then w else
  match e with
  | EvMain => step_main w
  | EvSelect c => step_select c w
  | EvImm => step_imm w
  | EvReturns o => step_returns o w
  | EvStopCall => with_stoppers w (stoppers w ++ [SL73])
  | EvStopStep i => step_stop i w
  | EvCancel e => step_cancel e w
  | EvElapse => step_elapse w
  end.

(** A finite execution. *)
Definition run (es : list Event) (w : World) : World :=
  fold_left (fun w e => step e w) es w.

(** The first [n] events of an infinite schedule. *)
Fixpoint exec (sch : nat -> Event) (w : World) (n : nat) : World :=
  match n with
  | O => w
  | S n => step (sch n) (exec sch w n)
  end.

(** ** Reading the trace *)

Fixpoint count {A : Type} (p : A -> bool) (l : list A) : nat :=
  match l with
  | [] => O
  | x :: l => (if p x then 1 else 0) + count p l
  end%nat.

Definition is_begin (o : Origin) (x : Obs) : bool :=
  match x, o with
  | ObsBegin Immediate, Immediate | ObsBegin Ticked, Ticked => true
  | _, _ => false
  end.

Definition is_end (o : Origin) (x : Obs) : bool :=
  match x, o with
  | ObsEnd Immediate, Immediate | ObsEnd Ticked, Ticked => true
  | _, _ => false
  end.

Definition is_launch (x : Obs) : bool :=
  match x with ObsLaunch => true | _ => false end.

Definition is_elapsed (x : Obs) : bool :=
  match x with ObsElapsed _ => true | _ => false end.

Definition is_close (x : Obs) : bool :=
  match x with ObsClose => true | _ => false end.

(** Invocations from call site [o] entered so far, and left so far. *)
Definition begun (o : Origin) (w : World) : nat := count (is_begin o) (trace w).
Definition ended (o : Origin) (w : World) : nat := count (is_end o) (trace w).

(** Invocations from call site [o] that are executing now. *)
Definition executing (o : Origin) (w : World) : nat := (begun o w - ended o w)%nat.

(** All invocations of the action that are executing now. *)
Definition executing_all (w : World) : nat :=
  (executing Immediate w + executing Ticked w)%nat.

Definition launched (w : World) : nat := count is_launch (trace w).
Definition elapsed (w : World) : nat := count is_elapsed (trace w).
Definition closes (w : World) : nat := count is_close (trace w).

(** The case the [select] took last. *)
Fixpoint last_select (tr : list Obs) : option SelectCase :=
  match tr with
  | [] => None
  | ObsSelect c :: _ => Some c
  | _ :: tr => last_select tr
  end.

(** ** Reading the callers of [Stop] *)

Definition in_do (pc : StopPc) : bool :=
  match pc with SL74 | SL75 => true | _ => false end.

Definition past_close (pc : StopPc) : bool :=
  match pc with SL75 => true | _ => false end.

Definition stop_returned (pc : StopPc) : bool :=
  match pc with SReturned _ => true | _ => false end.

Definition stop_failed (pc : StopPc) : bool :=
  match pc with SReturned (Some _) => true | _ => false end.

Definition is_closed (c : Chan) : bool :=
  match c with ChClosed => true | ChOpen => false end.

Definition is_running (o : Once) : bool :=
  match o with OnceRunning => true | _ => false end.

Definition b2n (b : bool) : nat := if b then 1%nat else 0%nat.

(** What holds of [stopCh], [stopOnce] and the callers of [Stop] in every
    state: at most one caller is inside [Do], and only while the once is
    running; the channel is closed by the time that caller is past line 74
    and has been closed as many times as it is closed; nobody has returned
    before the once is done. *)
Record StopInv (w : World) : Prop := mkStopInv {
  si_panicked : count stop_panicked (stoppers w) = 0%nat;
  si_failed : count stop_failed (stoppers w) = 0%nat;
  si_in_do : count in_do (stoppers w) = b2n (is_running (stopOnce (job w)));
  si_past_close :
    count past_close (stoppers w)
    = b2n (is_running (stopOnce (job w)) && is_closed (stopCh (job w)));
  si_fresh : stopOnce (job w) = OnceFresh -> stopCh (job w) = ChOpen;
  si_not_done :
    stopOnce (job w) <> OnceDone -> count stop_returned (stoppers w) = 0%nat;
  si_done : stopOnce (job w) = OnceDone -> stopCh (job w) = ChClosed;
  si_closes : closes w = b2n (is_closed (stopCh (job w)))
}.

(** ** Reading the goroutines of [Start] *)

(** Lines 38-42: the goroutine of line 42 is not launched yet. *)
Definition before_launch (pc : MainPc) : bool :=
  match pc with ML38 | ML40 | ML42 => true | _ => false end.

(** The share of the wait-group counter held for the immediate execution:
    from the [Add] of line 41 to the [Done] of line 43. *)
Definition imm_hold (m : MainPc) (i : ImmPc) : Z :=
  match m, i with
  | ML42, _ => 1
  | _, (IL44 | IInFn | IL43) => 1
  | _, _ => 0
  end.

(** The share held for a ticked execution: from line 62 to line 64. *)
Definition tick_hold (m : MainPc) : Z :=
  match m with ML65 | MInFn | ML64 => 1 | _ => 0 end.

Definition imm_begun (i : ImmPc) : nat :=
  match i with IInFn | IL43 | IDone => 1 | _ => 0 end.

Definition imm_ended (i : ImmPc) : nat :=
  match i with IL43 | IDone => 1 | _ => 0 end.

Definition imm_launched (i : ImmPc) : nat :=
  match i with INone => 0 | _ => 1 end.

Definition main_in_fn (m : MainPc) : nat :=
  match m with MInFn => 1 | _ => 0 end.

(** Ticks waiting in the channel of the ticker. *)
Definition pending (t : Ticker) : nat :=
  match t with Running true => 1 | _ => 0 end.

(** A tick received by the [select] whose invocation has not begun. *)
Definition tick_taken (m : MainPc) : nat :=
  match m with ML62 | ML65 => 1 | _ => 0 end.

Definition is_delivered (x : Obs) : bool :=
  match x with ObsElapsed true => true | _ => false end.

Definition delivered (w : World) : nat := count is_delivered (trace w).

(** The ticker exists from line 48 on and is stopped on return. *)
Definition ticker_at (m : MainPc) (t : Ticker) : Prop :=
  match m with
  | ML38 | ML40 | ML42 | ML48 => t = NoTicker
  | ML52 | ML55 | ML59 | ML62 | ML65 | MInFn | ML64 => exists p, t = Running p
  | MReturned _ => t = Stopped
  | MPanicked _ => True
  end.

(** Why [Start] is where it is, once it has left the loop. *)
Definition cause_at (w : World) : Prop :=
  match main w with
  | ML55 => last_select (trace w) = Some CaseCtx /\ ctxErr w <> None
  | ML59 => last_select (trace w) = Some CaseStop /\ stopCh (job w) = ChClosed
  | MReturned r =>
      (last_select (trace w) = Some CaseCtx /\ r = ctxErr w /\ r <> None) \/
      (last_select (trace w) = Some CaseStop /\ r = None /\ stopCh (job w) = ChClosed)
  | _ => True
  end.

Definition panic_at (w : World) : Prop :=
  match main w with
  | MPanicked p =>
      (p = PanicNonPositiveInterval /\ interval (job w) <= 0 /\ ticker w = NoTicker) \/
      (p = PanicNilFunc /\ executeFn (job w) = None /\ 0 < interval (job w))
  | ML52 | ML55 | ML59 | ML62 | ML65 | MInFn | ML64 | MReturned _ => 0 < interval (job w)
  | _ => True
  end.

(** The configuration of a job never changes. *)
Definition same_config (j0 j : TickerJob) : Prop :=
  name j = name j0 /\ log j = log j0 /\ interval j = interval j0 /\
  executeImmediate j = executeImmediate j0 /\ executeFn j = executeFn j0.

(** What holds of [Start], the goroutine it launches, the wait group, the
    ticker and the trace in every state of a job made from [j0]. *)
Record StartInv (j0 : TickerJob) (w : World) : Prop := mkStartInv {
  st_config : same_config j0 (job w);
  st_wg :
    main_panicked (main w) = false -> imm_panicked (imm w) = false ->
    wg (job w) = imm_hold (main w) (imm w) + tick_hold (main w);
  st_before : before_launch (main w) = true -> imm w = INone;
  st_after :
    before_launch (main w) = false ->
    imm_launched (imm w) = b2n (executeImmediate (job w));
  st_l42 : main w = ML42 -> executeImmediate (job w) = true;
  st_launched : launched w = imm_launched (imm w);
  st_begun_imm : begun Immediate w = imm_begun (imm w);
  st_ended_imm : ended Immediate w = imm_ended (imm w);
  st_imm_panic : forall p, imm w = IPanicked p -> p = PanicNilFunc /\ executeFn (job w) = None;
  st_begun_tick : begun Ticked w = (ended Ticked w + main_in_fn (main w))%nat;
  st_in_fn : main w = MInFn -> is_Some (executeFn (job w));
  st_ticker : ticker_at (main w) (ticker w);
  st_credit :
    (begun Ticked w + tick_taken (main w) + pending (ticker w) <= delivered w)%nat;
  st_delivered : (delivered w <= elapsed w)%nat;
  st_cause : cause_at w;
  st_panic : panic_at w;
  st_returned :
    forall r, main w = MReturned r ->
    wg (job w) = 0 /\ imm_panicked (imm w) = false /\ imm_hold (main w) (imm w) = 0
}.

(** A job as [newTickerJob] makes it. *)
Definition fresh (j : TickerJob) : Prop :=
  stopCh j = ChOpen /\ stopOnce j = OnceFresh /\ wg j = 0.

(** ** The registry ([registry.go]) *)

(** [transport.Server]: something with [Start] and [Stop].  The only
    implementation in this package is the ticker job. *)
Inductive Server : Set :=
| ServerOfJob (j : TickerJob).

(** [Registry] has no field. *)
Record Registry : Set := mkRegistry { }.

(** [Servers] (lines 13-15) *)
Definition Servers (r : Registry) : list Server := [].

(** ** Example jobs and executions *)

(** The job of the tests: [time.Hour] between two ticks. *)
Definition hourly (ei : bool) : TickerJob :=
  newTickerJob "test-job" 3600000000000 DefaultLogger (Some (Closure 0)) ei.

(** A job whose interval is not positive. *)
Definition broken : TickerJob :=
  newTickerJob "test-job" 0 DefaultLogger (Some (Closure 0)) true.

(** [Start] launches the immediate execution and enters the loop, the
    action begins in the launched goroutine, the interval elapses and the
    loop invokes the action too. *)
Definition overlapping : list Event :=
  [EvMain; EvMain; EvMain; EvMain; EvImm; EvElapse; EvSelect CaseTick; EvMain; EvMain].

(** [Start] enters the loop, then [Stop] is called and [Start] leaves. *)
Definition stopped_run : list Event :=
  [EvMain; EvMain; EvMain; EvStopCall; EvStopStep 0; EvStopStep 0; EvStopStep 0;
   EvSelect CaseStop; EvMain].

(** [Start] enters the loop, then the context is cancelled. *)
Definition cancelled_run : list Event :=
  [EvMain; EvMain; EvMain; EvCancel Canceled; EvSelect CaseCtx; EvMain].

(** Ticks at hand: invocations the loop has begun, a tick it has received
    and not acted on yet, and a tick waiting in the channel. *)
Definition ticks_at_hand (w : World) : nat :=
  (begun Ticked w + tick_taken (main w) + pending (ticker w))%nat.

Definition is_elapse (e : Event) : bool :=
  match e with EvElapse => true | _ => false end.

(** [Start] on its own, as far as line 48 takes it. *)
Definition start_to_ticker : list Event := [EvMain; EvMain; EvMain; EvMain].

(** ** Fair schedules *)

(** The events by which a goroutine moves towards the end of [Start] or of
    [Stop]: a statement of a goroutine, a way out of the [select], the
    return of the action. *)
Definition thread_event (e : Event) : bool :=
  match e with
  | EvMain | EvSelect CaseCtx | EvSelect CaseStop | EvImm | EvReturns _ | EvStopStep _ => true
  | EvSelect CaseTick | EvStopCall | EvCancel _ | EvElapse => false
  end.

(** Every goroutine is scheduled again and again, and so is every way out
    of the [select]; an action that was invoked returns. *)
Definition fair (sch : nat -> Event) : Prop :=
  forall e, thread_event e = true -> forall n, exists k, (n <= k)%nat /\ sch k = e.

(** [Stop] was called or the context is done: a case that ends the loop
    is ready. *)
Definition asked_to_end (w : World) : bool := ready CaseStop w || ready CaseCtx w.

(** The [select] takes the tick although a case that ends the loop is
    ready. *)
Definition prefers_tick (w : World) (e : Event) : bool :=
  match e, main w with
  | EvSelect CaseTick, ML52 => ready CaseTick w && asked_to_end w
  | _, _ => false
  end.

(** The [select] does not prefer the tick for ever.  ([select] chooses
    among its ready cases at random.) *)
Definition select_fair (sch : nat -> Event) (w : World) : Prop :=
  exists N, forall m, (N <= m)%nat -> prefers_tick (exec sch w m) (sch m) = false.

Definition returned (w : World) : bool :=
  match main w with MReturned _ => true | _ => false end.

(** The caller of [Stop] that is inside [Do], when there is one. *)
Fixpoint runner (l : list StopPc) : nat :=
  match l with
  | [] => O
  | pc :: l => if in_do pc then O else S (runner l)
  end.

Definition stop_returned_nil (i : nat) (w : World) : bool :=
  match stoppers w !! i with
  | Some (SReturned None) => true
  | _ => false
  end.

(** How far the once is from done, and who has to move for it. *)
Definition once_rank (w : World) : nat :=
  match stopOnce (job w) with
  | OnceFresh => 3
  | OnceRunning => if is_closed (stopCh (job w)) then 1 else 2
  | OnceDone => 0
  end.

Definition stop_next (i : nat) (w : World) : Event :=
  match stopOnce (job w) with
  | OnceRunning => EvStopStep (runner (stoppers w))
  | _ => EvStopStep i
  end.

(** How far [Start] is from returning once it has been asked to end, and
    who has to move for it. *)
Definition main_rank (m : MainPc) : nat :=
  match m with
  | ML38 => 11 | ML40 => 10 | ML42 => 9 | ML48 => 8
  | ML62 => 7 | ML65 => 6 | MInFn => 5 | ML64 => 4
  | ML52 => 3 | ML55 | ML59 => 2
  | MReturned _ | MPanicked _ => 0
  end.

Definition imm_rank (i : ImmPc) : nat :=
  match i with
  | INone | IL44 => 3 | IInFn => 2 | IL43 => 1
  | IDone | IPanicked _ => 0
  end.

Definition exit_rank (w : World) : nat :=
  (main_rank (main w) + imm_rank (imm w)
   + match ctxErr w with Some _ => 0 | None => 1 end)%nat.

Definition exit_next (w : World) : Event :=
  match main w with
  | ML52 =>
      match ctxErr w with
      | Some _ => EvSelect CaseCtx
      | None => EvSelect CaseStop
      end
  | MInFn => EvReturns Ticked
  | ML55 | ML59 =>
      match imm w with
      | IL44 | IL43 => EvImm
      | IInFn => EvReturns Immediate
      | _ => EvMain
      end
  | _ => EvMain
  end.

(** ** Calls of [Stop] before [Start] *)

Definition is_stop_event (e : Event) : bool :=
  match e with EvStopCall | EvStopStep _ => true | _ => false end.




(** [n] calls of [Stop], one after the other, each run to its end. *)
Fixpoint stop_calls (first n : nat) : list Event :=
  match n with
  | O => []
  | S n =>
      [EvStopCall; EvStopStep first; EvStopStep first; EvStopStep first]
        ++ stop_calls (S first) n
  end.

(** ** A fair schedule *)

(** Whose turn it is among the callers of [Stop]: 0, 0 1 2, 0 1 2 3 4, ...
    so that everybody's turn comes again and again. *)
Definition stop_turn (q : nat) : nat := (q - Nat.sqrt q * Nat.sqrt q)%nat.

Definition round_robin (k : nat) : Event :=
  match (k mod 8)%nat with
  | 0 => EvMain
  | 1 => EvSelect CaseCtx
  | 2 => EvSelect CaseStop
  | 3 => EvImm
  | 4 => EvReturns Immediate
  | 5 => EvReturns Ticked
  | 6 => EvStopStep (stop_turn (k / 8))
  | _ => EvElapse
  end%nat.

(** [Start] enters its loop, the immediate execution begins, the interval
    elapses and the loop invokes the action as well, [Stop] is called. *)
Definition demo_prefix : list Event :=
  [EvMain; EvMain; EvMain; EvMain; EvImm; EvElapse; EvSelect CaseTick; EvMain; EvMain;
   EvStopCall].

(** After that everybody in turn, the interval elapsing once a round. *)
Definition demo (n : nat) : Event :=
  match demo_prefix !! n with
  | Some e => e
  | None => round_robin (n - length demo_prefix)
  end.

(** [Stop] is called before anything else, then everybody in turn. *)
Definition stop_first (n : nat) : Event :=
  match n with
  | O => EvStopCall
  | S n => round_robin n
  end.

(** ** The tests of the package ([ticker_job_test.go]) as executions *)

(** [Start] up to its [select], without and with immediate execution. *)
Definition to_select : list Event := [EvMain; EvMain; EvMain].
Definition to_select_immediate : list Event := [EvMain; EvMain; EvMain; EvMain].

(** The interval elapses, the loop invokes the action, the action returns. *)
Definition one_tick : list Event :=
  [EvElapse; EvSelect CaseTick; EvMain; EvMain; EvReturns Ticked; EvMain].

(** The immediate execution from its launch to its end. *)
Definition immediate_execution : list Event := [EvImm; EvReturns Immediate; EvImm].

(** [Start] sees the stop channel closed and returns. *)
Definition leave_by_stop : list Event := [EvSelect CaseStop; EvMain].

(** A job with an interval of [ms] milliseconds. *)
Definition every (ms : Z) (ei : bool) : TickerJob :=
  newTickerJob "test-job" (ms * 1000000) DefaultLogger (Some (Closure 0)) ei.

Definition TestTickerJob_StartStop : World :=
  run (to_select ++ one_tick ++ one_tick ++ one_tick ++ stop_calls 0 1 ++ leave_by_stop)
    (init (every 50 false)).

Definition TestTickerJob_StopMultipleTimes : World :=
  run (to_select ++ stop_calls 0 5 ++ leave_by_stop) (init (hourly false)).

Definition TestTickerJob_ExecuteImmediate : World :=
  run (to_select_immediate ++ immediate_execution ++ stop_calls 0 1 ++ leave_by_stop)
    (init (hourly true)).

Definition TestTickerJob_NoExecuteImmediate : World :=
  run (to_select ++ stop_calls 0 1 ++ leave_by_stop) (init (hourly false)).

Definition TestTickerJob_ContextCancellation : World :=
  run (to_select ++ [EvCancel Canceled; EvSelect CaseCtx; EvMain]) (init (hourly false)).

(** [Stop] is called while the action is executing: [Start] is still there
    when [Stop] has returned ... *)
Definition TestTickerJob_StopWaitsForExecution_stopped : World :=
  run (to_select ++ [EvElapse; EvSelect CaseTick; EvMain; EvMain]
         ++ stop_calls 0 1 ++ leave_by_stop)
    (init (every 20 false)).

(** ... and returns when the action has. *)
Definition TestTickerJob_StopWaitsForExecution : World :=
  run ([EvReturns Ticked; EvMain] ++ leave_by_stop)
    TestTickerJob_StopWaitsForExecution_stopped.


(** ** More readings of a job's executions *)

(** The lines [Start] has logged, the newest first. *)
Fixpoint log_lines (tr : list Obs) : list LogLine :=
  match tr with
  | [] => []
  | ObsLog l :: tr => l :: log_lines tr
  | _ :: tr => log_lines tr
  end.

(** The lines of a job named [n] with interval [iv] whose [Start] stands
    at [m]: line 38 comes first, line 54 or line 58 when the loop is left. *)
Definition log_at (m : MainPc) (n : string) (iv : Z) : list LogLine :=
  match m with
  | ML38 => []
  | ML55 | MReturned (Some _) => [LogStoppedByContext n; LogStarted n iv]
  | ML59 | MReturned None => [LogStopped n; LogStarted n iv]
  | _ => [LogStarted n iv]
  end.

(** The goroutine of line 42 is not there or is over. *)
Definition imm_at_rest (i : ImmPc) : bool :=
  match i with INone | IDone => true | _ => false end.


(** A caller enters [Stop] as the [i]-th and executes its three
    statements. *)
Definition stop_call (i : nat) : list Event :=
  [EvStopCall; EvStopStep i; EvStopStep i; EvStopStep i].

(** [k] ticks, each taken by the loop before the next one comes. *)
Definition ticks (k : nat) : list Event := concat (repeat one_tick k).

(** A job with a nil action. *)
Definition actionless (ei : bool) : TickerJob :=
  newTickerJob "test-job" 3600000000000 DefaultLogger None ei.

(** * Configuration: [pkg/env], [pkg/registry], [pkg/rocketmq]

    Go strings are sequences of bytes, here [string].  The functions of
    Go's standard library that the configuration code calls are written
    out from their documentation; [strings.TrimSpace], which knows
    Unicode's white space, is left as a parameter of the code that calls
    it, and [TrimSpaceASCII] is what it does on text of ASCII bytes. *)

Module stdlib.
Import Stdlib.Strings.Ascii.

(** [strings.Split(s, sep)] for a separator of one byte: the texts between
    the separators, [s] alone when it holds none. *)
Fixpoint Split (s : string) (sep : Ascii.ascii) : list string :=
  match s with
  | EmptyString => [EmptyString]
  | String a s' =>
      if Ascii.eqb a sep then EmptyString :: Split s' sep
      else match Split s' sep with
           | h :: t => String a h :: t
           | [] => [String a EmptyString]
           end
  end.

(** [strings.ReplaceAll(s, old, new)] for [old] and [new] of one byte. *)
Fixpoint ReplaceAll (s : string) (old new : Ascii.ascii) : string :=
  match s with
  | EmptyString => EmptyString
  | String a s' => String (if Ascii.eqb a old then new else a) (ReplaceAll s' old new)
  end.

(** [strings.LastIndex(s, sep)] for a separator of one byte: the index of
    its last occurrence, -1 when there is none. *)
Fixpoint LastIndex (s : string) (sep : Ascii.ascii) : Z :=
  match s with
  | EmptyString => -1
  | String a s' =>
      let i := LastIndex s' sep in
      if 0 <=? i then i + 1 else if Ascii.eqb a sep then 0 else -1
  end.

(** The slices [s[:hi]] and [s[lo:]]. *)
Fixpoint take_bytes (n : nat) (s : string) : string :=
  match n, s with
  | S n', String a s' => String a (take_bytes n' s')
  | _, _ => EmptyString
  end.

Fixpoint drop_bytes (n : nat) (s : string) : string :=
  match n, s with
  | S n', String _ s' => drop_bytes n' s'
  | _, _ => s
  end.

Definition slice_to (s : string) (hi : Z) : string := take_bytes (Z.to_nat hi) s.
Definition slice_from (s : string) (lo : Z) : string := drop_bytes (Z.to_nat lo) s.

(** The value of a decimal digit. *)
Definition digit (a : Ascii.ascii) : option Z :=
  let n := Z.of_N (Ascii.N_of_ascii a) in
  if (48 <=? n) && (n <=? 57) then Some (n - 48) else None.

Fixpoint digits (acc : Z) (s : string) : option Z :=
  match s with
  | EmptyString => Some acc
  | String a s' =>
      match digit a with
      | Some d => digits (acc * 10 + d) s'
      | None => None
      end
  end.

(** [strconv.ParseUint(s, 10, bitSize)]: [None] stands for an error.  The
    text has to be one decimal digit or more, with no sign, and its value
    has to fit [bitSize] bits. *)
Definition ParseUint (s : string) (bitSize : Z) : option Z :=
  match s with
  | EmptyString => None
  | _ =>
      match digits 0 s with
      | Some v => if v <? 2 ^ bitSize then Some v else None
      | None => None
      end
  end.

(** The white space of ASCII: tab, line feed, vertical tab, form feed,
    carriage return, space. *)
Definition asciiSpace (a : Ascii.ascii) : bool :=
  let n := Z.of_N (Ascii.N_of_ascii a) in
  ((9 <=? n) && (n <=? 13)) || (n =? 32).

Fixpoint trim_left (s : string) : string :=
  match s with
  | String a s' => if asciiSpace a then trim_left s' else s
  | EmptyString => EmptyString
  end.

Fixpoint trim_right (s : string) : string :=
  match s with
  | String a s' =>
      match trim_right s' with
      | EmptyString => if asciiSpace a then EmptyString else String a EmptyString
      | t => String a t
      end
  | EmptyString => EmptyString
  end.

(** [strings.TrimSpace] on text of ASCII bytes. *)
Definition TrimSpaceASCII (s : string) : string := trim_right (trim_left s).

(** [os.Getenv]: the value of the variable, empty when it is not set.  The
    environment of the process is the map of the variables that are set. *)
Definition Getenv (e : gmap string string) (key : string) : string :=
  default EmptyString (e !! key).

(** [strings.HasPrefix] *)
Fixpoint HasPrefix (s prefix : string) : bool :=
  match prefix, s with
  | EmptyString, _ => true
  | String b prefix', String a s' => Ascii.eqb a b && HasPrefix s' prefix'
  | String _ _, EmptyString => false
  end.

(** [strings.Contains] *)
Fixpoint Contains (s substr : string) : bool :=
  HasPrefix s substr ||
  match s with
  | String _ s' => Contains s' substr
  | EmptyString => false
  end.

(** [strings.LastIndex(s, substr)] for any text [substr]. *)
Fixpoint LastIndexOf (s substr : string) : Z :=
  match s with
  | EmptyString => if HasPrefix s substr then 0 else -1
  | String _ s' =>
      let i := LastIndexOf s' substr in
      if 0 <=? i then i + 1 else if HasPrefix s substr then 0 else -1
  end.

End stdlib.

(** ** [pkg/env] *)
Module env.

(** [Get] (lines 9-11) *)
Definition Get (e : gmap string string) (key : string) : string := stdlib.Getenv e key.

(** [GetOrDefault] (lines 15-20) *)
Definition GetOrDefault (e : gmap string string) (key defaultValue : string) : string :=
  let value := stdlib.Getenv e key in
  if negb (String.eqb value "") then value else defaultValue.

End env.

(** ** [pkg/registry]: the configuration of the Nacos client *)
Module registry.
Import Stdlib.Strings.Ascii.

Definition EnvNacosServerAddrs : string := "NACOS_SERVER_ADDRS".
Definition EnvNacosNamespaceID : string := "NACOS_NAMESPACE_ID".
Definition EnvNacosLogDir : string := "NACOS_LOG_DIR".
Definition EnvNacosCacheDir : string := "NACOS_CACHE_DIR".
Definition EnvNacosLogLevel : string := "NACOS_LOG_LEVEL".

Definition DefaultNacosServerAddr : string := "127.0.0.1:8848".
Definition DefaultNacosLogDir : string := "/tmp/nacos/log".
Definition DefaultNacosCacheDir : string := "/tmp/nacos/cache".
Definition DefaultNacosLogLevel : string := "warn".

(** [Port] is a [uint64]. *)
Record ServerAddr : Set := mkServerAddr {
  IP : string;
  Port : Z
}.

Record NacosConfig : Set := mkNacosConfig {
  ServerAddrs : list ServerAddr;
  NamespaceID : string;
  LogDir : string;
  CacheDir : string;
  LogLevel : string
}.

(** [parseServerAddr] (lines 87-97) *)
Definition parseServerAddr (addr : string) : ServerAddr :=
  let idx := stdlib.LastIndex addr ":"%char in
  if negb (idx =? -1) then
    let ip := stdlib.slice_to addr idx in
    let portStr := stdlib.slice_from addr (idx + 1) in
    match stdlib.ParseUint portStr 64 with
    | Some port => {| IP := ip; Port := port |}
    | None => {| IP := addr; Port := 8848 |}
    end
  else {| IP := addr; Port := 8848 |}.

(** [parseServerAddrs] (lines 61-84): the loop of lines 69-77 appends to
    [result]. *)
Definition parseServerAddrs (TrimSpace : string -> string) (addrs : string)
  : list ServerAddr :=
  if String.eqb addrs "" then [{| IP := "127.0.0.1"; Port := 8848 |}]
  else
    let parts := stdlib.Split addrs ","%char in
    let result :=
      fold_left
        (fun result part =>
           let part := TrimSpace part in
           if String.eqb part "" then result
           else result ++ [parseServerAddr part])
        parts [] in
    if (length result =? 0)%nat then [{| IP := "127.0.0.1"; Port := 8848 |}]
    else result.

(** [NewNacosConfigFromEnv] (lines 49-57) *)
Definition NewNacosConfigFromEnv (TrimSpace : string -> string) (e : gmap string string)
  : NacosConfig :=
  {| ServerAddrs :=
       parseServerAddrs TrimSpace
         (env.GetOrDefault e EnvNacosServerAddrs DefaultNacosServerAddr);
     NamespaceID := env.Get e EnvNacosNamespaceID;
     LogDir := env.GetOrDefault e EnvNacosLogDir DefaultNacosLogDir;
     CacheDir := env.GetOrDefault e EnvNacosCacheDir DefaultNacosCacheDir;
     LogLevel := env.GetOrDefault e EnvNacosLogLevel DefaultNacosLogLevel |}.

(** The addresses of the parts that are not blank, in their order. *)
Definition addresses_of (TrimSpace : string -> string) (parts : list string)
  : list ServerAddr :=
  map parseServerAddr
    (filter (fun part => part <> EmptyString) (map TrimSpace parts)).

End registry.

(** ** [pkg/rocketmq]: the configuration of the client *)
Module rocketmq.
Import Stdlib.Strings.Ascii.

(** What [configureSSL] reads and writes: the package's [sslOnce] and the
    flag [rmq.EnableSsl] of the client library. *)
Record SSL : Set := mkSSL {
  sslOnce : Once;
  EnableSsl : bool
}.

(** [configureSSL] (lines 18-22), called by one goroutine at a time: the
    function given to [sslOnce.Do] runs in the first call only. *)
Definition configureSSL (enable : bool) (s : SSL) : SSL :=
  match sslOnce s with
  | OnceFresh => {| sslOnce := OnceDone; EnableSsl := enable |}
  | _ => s
  end.

(** Calls of [configureSSL], one after the other. *)
Definition configureSSL_calls (enables : list bool) (s : SSL) : SSL :=
  fold_left (fun s enable => configureSSL enable s) enables s.

(** [conf.RocketMQ], the fields that are read.  [SendTimeout] is nil or
    holds the duration, in nanoseconds, that [AsDuration] gives;
    [RetryTimes] is an [int32]. *)
Record RocketMQ : Set := mkRocketMQ {
  NameServers : string;
  ProducerGroup : string;
  AccessKey : string;
  SecretKey : string;
  SendTimeout : option Z;
  RetryTimes : Z
}.

(** [credentials.SessionCredentials], the fields that are written. *)
Record SessionCredentials : Set := mkSessionCredentials {
  cAccessKey : string;
  cAccessSecret : string
}.

(** [Config] (lines 25-33) *)
Record Config : Set := mkConfig {
  Endpoint : string;
  NameSpace : string;
  ConsumerGroup : string;
  Credentials : SessionCredentials;
  cSendTimeout : Z;
  MaxAttempts : Z;
  EnableSSL : bool
}.

Definition Second : Z := 1000000000.

(** [NewConfigFromProto] (lines 37-65) *)
Definition NewConfigFromProto (TrimSpace : string -> string) (c : RocketMQ) : Config :=
  let servers := stdlib.ReplaceAll (NameServers c) ";" "," in
  let parts := stdlib.Split servers "," in
  {| Endpoint :=
       match parts with
       | part :: _ => TrimSpace part
       | [] => ""
       end;
     NameSpace := "";
     ConsumerGroup := ProducerGroup c;
     Credentials := {| cAccessKey := AccessKey c; cAccessSecret := SecretKey c |};
     cSendTimeout :=
       match SendTimeout c with
       | Some d => d
       | None => 3 * Second
       end;
     MaxAttempts := if 0 <? RetryTimes c then RetryTimes c else 3;
     EnableSSL := false |}.

(** [rmq.Config], the fields that are written. *)
Record RMQConfig : Set := mkRMQConfig {
  rEndpoint : string;
  rNameSpace : string;
  rConsumerGroup : string;
  rCredentials : SessionCredentials
}.

(** [ToRMQConfig] (lines 68-75) *)
Definition ToRMQConfig (c : Config) : RMQConfig :=
  {| rEndpoint := Endpoint c;
     rNameSpace := NameSpace c;
     rConsumerGroup := ConsumerGroup c;
     rCredentials := Credentials c |}.

(** The text before the first semicolon or comma. *)
Fixpoint first_name_server (s : string) : string :=
  match s with
  | EmptyString => EmptyString
  | String a s' =>
      if Ascii.eqb a ";" || Ascii.eqb a "," then EmptyString
      else String a (first_name_server s')
  end.

End rocketmq.

(** * The Nacos registry: [pkg/registry/nacos]

    The registry talks to a Nacos naming client and reads endpoints with
    [url.Parse] and [net.SplitHostPort].  These are opaque, and so are
    [float64] and the errors of the libraries.  What the client answers
    may depend on everything it has been asked before: the state that the
    methods of the registry pass on is the list of the calls made to the
    client, oldest first. *)
Module nacos.

(** [registry.ServiceInstance] of kratos; a nil [Metadata] is [None]. *)
Record ServiceInstance : Type := mkServiceInstance {
  ID : string;
  Name : string;
  Version : string;
  Metadata : option (gmap string string);
  Endpoints : list string
}.

(** [url.URL], the fields that are read. *)
Record URL : Set := mkURL {
  Scheme : string;
  Host : string
}.

Class Library : Type := {
  float64 : Type;
  (** the errors of the libraries *)
  E : Type;
  (** the [float64] 100 *)
  hundred : float64;
  (** [strconv.ParseFloat(s, 64)], [None] for an error *)
  ParseFloat : string -> option float64;
  (** [url.Parse] *)
  Parse : string -> E + URL;
  (** [net.SplitHostPort] *)
  SplitHostPort : string -> E + string * string;
  (** [net.JoinHostPort] *)
  JoinHostPort : string -> string -> string;
  (** [w > 0] *)
  positive : float64 -> bool;
  (** [int64(math.Ceil(w))] *)
  Ceil : float64 -> Z;
  (** [strconv.FormatInt(i, 10)] and [strconv.FormatUint(i, 10)] *)
  FormatInt : Z -> string;
  FormatUint : Z -> string
}.

Section Registry.
Context `{Library}.

Inductive error : Type :=
| ErrServiceInstanceNameEmpty
| ErrInvalidPort
(** an error of [url.Parse], of [net.SplitHostPort] or of the client, as it is *)
| ErrOf (e : E)
(** the error of [strconv.ParseUint] for this text *)
| ErrParseUint (s : string)
(** [fmt.Errorf("RegisterInstance err %w, endpoint: %s", e, endpoint)] *)
| ErrRegisterInstance (e : E) (endpoint : string).

(** [options] (lines 30-36) *)
Record options : Type := mkOptions {
  prefix : string;
  weight : float64;
  cluster : string;
  group : string;
  kind : string
}.

(** [Option] is a function that changes the options. *)
Definition Option : Type := options -> options.

Definition WithPrefix (p : string) : Option :=
  fun o => {| prefix := p; weight := weight o; cluster := cluster o;
              group := group o; kind := kind o |}.

Definition WithWeight (w : float64) : Option :=
  fun o => {| prefix := prefix o; weight := w; cluster := cluster o;
              group := group o; kind := kind o |}.

Definition WithCluster (c : string) : Option :=
  fun o => {| prefix := prefix o; weight := weight o; cluster := c;
              group := group o; kind := kind o |}.

Definition WithGroup (g : string) : Option :=
  fun o => {| prefix := prefix o; weight := weight o; cluster := cluster o;
              group := g; kind := kind o |}.

Definition WithDefaultKind (k : string) : Option :=
  fun o => {| prefix := prefix o; weight := weight o; cluster := cluster o;
              group := group o; kind := k |}.

(** [vo.RegisterInstanceParam], [vo.DeregisterInstanceParam] and
    [vo.SelectInstancesParam], the fields that are written. *)
Record RegisterInstanceParam : Type := mkRegisterInstanceParam {
  Ip : string;
  Port : Z;
  ServiceName : string;
  Weight : float64;
  Enable : bool;
  Healthy : bool;
  Ephemeral : bool;
  rMetadata : gmap string string;
  ClusterName : string;
  GroupName : string
}.

Record DeregisterInstanceParam : Type := mkDeregisterInstanceParam {
  dIp : string;
  dPort : Z;
  dServiceName : string;
  dGroupName : string;
  dCluster : string;
  dEphemeral : bool
}.

Record SelectInstancesParam : Type := mkSelectInstancesParam {
  sServiceName : string;
  sGroupName : string;
  HealthyOnly : bool
}.

(** [model.Instance], the fields that are read. *)
Record Instance : Type := mkInstance {
  InstanceId : string;
  iServiceName : string;
  iMetadata : option (gmap string string);
  iIp : string;
  iPort : Z;
  iWeight : float64
}.

(** A call made to the client. *)
Inductive Call : Type :=
| CallRegisterInstance (p : RegisterInstanceParam)
| CallDeregisterInstance (p : DeregisterInstanceParam)
| CallSelectInstances (p : SelectInstancesParam).

(** [naming_client.INamingClient], the methods that are called: what the
    client answers after the calls made so far. *)
Record INamingClient : Type := mkINamingClient {
  RegisterInstance : list Call -> RegisterInstanceParam -> bool * option E;
  DeregisterInstance : list Call -> DeregisterInstanceParam -> bool * option E;
  SelectInstances : list Call -> SelectInstancesParam -> E + list Instance
}.

(** [Registry] (lines 67-70) *)
Record Registry : Type := mkRegistry {
  opts : options;
  cli : INamingClient
}.

(** [New] (lines 73-88) *)
Definition New (cli : INamingClient) (opts : list Option) : Registry :=
  let op := {| prefix := "/microservices"; cluster := "DEFAULT";
               group := "DEFAULT_GROUP"; weight := hundred; kind := "grpc" |} in
  {| opts := fold_left (fun op option => option op) opts op; cli := cli |}.

(** [buildMetadata] (lines 91-108) *)
Definition buildMetadata (r : Registry) (si : ServiceInstance) (scheme : string)
  : gmap string string * float64 :=
  let weight := weight (opts r) in
  match Metadata si with
  | None => (<["version" := Version si]> (<["kind" := scheme]> ∅), weight)
  | Some md =>
      let rmd := <["version" := Version si]> (<["kind" := scheme]> md) in
      let weight :=
        match md !! "weight" with
        | Some w =>
            match ParseFloat w with
            | Some parsed => parsed
            | None => weight
            end
        | None => weight
        end in
      (rmd, weight)
  end.

(** [parseEndpoint] (lines 111-126); the port is read as a [uint16]. *)
Definition parseEndpoint (endpoint : string) : error + URL * string * Z :=
  match Parse endpoint with
  | inl err => inl (ErrOf err)
  | inr u =>
      match SplitHostPort (Host u) with
      | inl err => inl (ErrOf err)
      | inr (host, portStr) =>
          match stdlib.ParseUint portStr 16 with
          | None => inl (ErrParseUint portStr)
          | Some port => inr (u, host, port)
          end
      end
  end.

(** The loop of [Register] (lines 133-154) *)
Fixpoint Register_endpoints (r : Registry) (si : ServiceInstance)
    (endpoints : list string) (calls : list Call) : option error * list Call :=
  match endpoints with
  | [] => (None, calls)
  | endpoint :: endpoints =>
      match parseEndpoint endpoint with
      | inl err => (Some err, calls)
      | inr (u, host, p) =>
          let '(rmd, weight) := buildMetadata r si (Scheme u) in
          let param :=
            {| Ip := host; Port := p; ServiceName := Name si +:+ "." +:+ Scheme u;
               Weight := weight; Enable := true; Healthy := true; Ephemeral := true;
               rMetadata := rmd; ClusterName := cluster (opts r);
               GroupName := group (opts r) |} in
          match RegisterInstance (cli r) calls param with
          | (_, Some e) =>
              (Some (ErrRegisterInstance e endpoint), calls ++ [CallRegisterInstance param])
          | (_, None) =>
              Register_endpoints r si endpoints (calls ++ [CallRegisterInstance param])
          end
      end
  end.

(** [Register] (lines 129-156) *)
Definition Register (r : Registry) (si : ServiceInstance) (calls : list Call)
  : option error * list Call :=
  if String.eqb (Name si) "" then (Some ErrServiceInstanceNameEmpty, calls)
  else Register_endpoints r si (Endpoints si) calls.

(** The loop of [Deregister] (lines 160-175) *)
Fixpoint Deregister_endpoints (r : Registry) (service : ServiceInstance)
    (endpoints : list string) (calls : list Call) : option error * list Call :=
  match endpoints with
  | [] => (None, calls)
  | endpoint :: endpoints =>
      match parseEndpoint endpoint with
      | inl err => (Some err, calls)
      | inr (u, host, p) =>
          let param :=
            {| dIp := host; dPort := p;
               dServiceName := Name service +:+ "." +:+ Scheme u;
               dGroupName := group (opts r); dCluster := cluster (opts r);
               dEphemeral := true |} in
          match DeregisterInstance (cli r) calls param with
          | (_, Some err) => (Some (ErrOf err), calls ++ [CallDeregisterInstance param])
          | (_, None) =>
              Deregister_endpoints r service endpoints
                (calls ++ [CallDeregisterInstance param])
          end
      end
  end.

(** [Deregister] (lines 159-177) *)
Definition Deregister (r : Registry) (service : ServiceInstance) (calls : list Call)
  : option error * list Call :=
  Deregister_endpoints r service (Endpoints service) calls.

(** What a call of [GetService] comes to: it returns, or it panics. *)
Inductive Outcome (A : Type) : Type :=
| Returns (a : A)
| Panics.

(** The service instance that [GetService] makes of an instance of the
    client (lines 196-212); [None] when line 212 assigns to an entry of a
    nil map. *)
Definition GetService_item (r : Registry) (i : Instance) : option ServiceInstance :=
  let kind :=
    match default ∅ (iMetadata i) !! "kind" with
    | Some k => k
    | None => kind (opts r)
    end in
  let weight := if positive (iWeight i) then iWeight i else weight (opts r) in
  match iMetadata i with
  | None => None
  | Some md =>
      Some {| ID := InstanceId i;
              Name := iServiceName i;
              Version := default "" (md !! "version");
              Metadata := Some (<["weight" := FormatInt (Ceil weight)]> md);
              Endpoints :=
                [kind +:+ "://" +:+ JoinHostPort (iIp i) (FormatUint (iPort i))] |}
  end.

(** The loop of [GetService] (lines 195-214) *)
Fixpoint GetService_items (r : Registry) (res : list Instance)
    (items : list ServiceInstance) : Outcome (list ServiceInstance) :=
  match res with
  | [] => Returns _ items
  | i :: res =>
      match GetService_item r i with
      | None => Panics _
      | Some item => GetService_items r res (items ++ [item])
      end
  end.

(** [GetService] (lines 185-216) *)
Definition GetService (r : Registry) (serviceName : string) (calls : list Call)
  : Outcome (E + list ServiceInstance) * list Call :=
  let param :=
    {| sServiceName := serviceName; sGroupName := group (opts r);
       HealthyOnly := true |} in
  let calls' := calls ++ [CallSelectInstances param] in
  match SelectInstances (cli r) calls param with
  | inl err => (Returns _ (inl err), calls')
  | inr res =>
      match GetService_items r res [] with
      | Returns _ items => (Returns _ (inr items), calls')
      | Panics _ => (Panics _, calls')
      end
  end.

(** What [Register] asks of the client for an instance. *)
Definition asks_to_register (r : Registry) (si : ServiceInstance) (c : Call) : Prop :=
  exists p scheme,
    c = CallRegisterInstance p /\
    0 <= Port p < 65536 /\
    Enable p = true /\ Healthy p = true /\ Ephemeral p = true /\
    GroupName p = group (opts r) /\
    ClusterName p = cluster (opts r) /\
    ServiceName p = Name si +:+ "." +:+ scheme /\
    rMetadata p !! "kind" = Some scheme /\
    rMetadata p !! "version" = Some (Version si).

(** Where a registration or a deregistration goes. *)
Definition target (c : Call) : option (string * Z * string * string * string) :=
  match c with
  | CallRegisterInstance p => Some (Ip p, Port p, ServiceName p, GroupName p, ClusterName p)
  | CallDeregisterInstance p =>
      Some (dIp p, dPort p, dServiceName p, dGroupName p, dCluster p)
  | CallSelectInstances _ => None
  end.

(** Where the registration of an endpoint goes, if the endpoint can be
    read. *)
Definition endpoint_target (r : Registry) (name endpoint : string)
  : option (string * Z * string * string * string) :=
  match parseEndpoint endpoint with
  | inr (u, host, p) =>
      Some (host, p, name +:+ "." +:+ Scheme u, group (opts r), cluster (opts r))
  | inl _ => None
  end.

(** The call by which [GetService] asks for the instances. *)
Definition asks_for_instances (r : Registry) (serviceName : string) : Call :=
  CallSelectInstances
    {| sServiceName := serviceName; sGroupName := group (opts r); HealthyOnly := true |}.

(** A service instance made of an instance of the client. *)
Definition made_of (i : Instance) (item : ServiceInstance) : Prop :=
  ID item = InstanceId i /\
  Name item = iServiceName i /\
  length (Endpoints item) = 1%nat /\
  exists md,
    Metadata item = Some md /\
    is_Some (md !! "weight") /\
    (forall k, k <> "weight" -> md !! k = default ∅ (iMetadata i) !! k).

End Registry.

End nacos.

(** A library to try the registry with: weights are integers, an endpoint
    is read as [scheme://host:port] by splitting at its first and at its
    last colon, and the client accepts whatever it is asked to do. *)
Module nacos_test.
Import Stdlib.Strings.Ascii.

Definition scheme_of (endpoint : string) : string :=
  default "" (head (stdlib.Split endpoint ":"%char)).

Definition after_slashes (endpoint : string) : string :=
  stdlib.slice_from endpoint (Z.of_nat (String.length (scheme_of endpoint)) + 3).

Definition plain_library : nacos.Library :=
  {| nacos.float64 := Z;
     nacos.E := string;
     nacos.hundred := 100;
     nacos.ParseFloat := fun s => stdlib.ParseUint s 64;
     nacos.Parse := fun endpoint =>
       if String.eqb endpoint "" then inl "empty url"
       else inr (nacos.mkURL (scheme_of endpoint) (after_slashes endpoint));
     nacos.SplitHostPort := fun hostport =>
       let idx := stdlib.LastIndex hostport ":"%char in
       if idx =? -1 then inl "missing port in address"
       else inr (stdlib.slice_to hostport idx, stdlib.slice_from hostport (idx + 1));
     nacos.JoinHostPort := fun host port => host +:+ ":" +:+ port;
     nacos.positive := fun w => 0 <? w;
     nacos.Ceil := fun w => w;
     nacos.FormatInt := fun _ => "";
     nacos.FormatUint := fun _ => "" |}.

Definition accepting_client : @nacos.INamingClient plain_library :=
  {| nacos.RegisterInstance := fun _ _ => (true, None);
     nacos.DeregisterInstance := fun _ _ => (true, None);
     nacos.SelectInstances := fun _ _ => inr [] |}.

Definition greeter : nacos.ServiceInstance :=
  {| nacos.ID := "1"; nacos.Name := "greeter"; nacos.Version := "v1";
     nacos.Metadata := None;
     nacos.Endpoints := ["grpc://10.0.0.1:9000"; "http://10.0.0.1:8000"] |}.

End nacos_test.


(** * The logger: [pkg/log]

    [runtime.Caller], [fmt.Sprint] and [fmt.Sprintf("%d", ...)] are opaque.
    What [Log] does is the calls it makes to the zap logger. *)
Module zapLog.
Import Stdlib.Strings.Ascii.

(** [skipPatterns] (lines 101-104) *)
Definition skipPatterns : list string := ["go-kratos/kratos"; "pkg/log/zap.go"].

(** The markers of [formatCaller] (line 135) *)
Definition markers : list string := ["/internal/"; "/pkg/"; "/cmd/"; "/test/"].

Definition maxDepth : nat := 15.

(** The levels of kratos' [log.Level], an [int8]. *)
Definition LevelDebug : Z := -1.
Definition LevelInfo : Z := 0.
Definition LevelWarn : Z := 1.
Definition LevelError : Z := 2.
Definition LevelFatal : Z := 3.

(** The methods of [zap.Logger] that [Log] calls. *)
Inductive Method : Set :=
| Debug
| Info
| Warn
| Error
| Fatal.

(** A call of the zap logger: the method, the message and the fields, each
    a key and a text. *)
Record ZapCall : Set := mkZapCall {
  method : Method;
  msg : string;
  fields : list (string * string)
}.

Section Log.
(** [fmt.Sprintf("%d", line)] *)
Variable Itoa : Z -> string.
(** [runtime.Caller(i)] as [getCaller] sees it: the file and the line of
    the frame [i] levels up, [None] when there is no such frame. *)
Variable Caller : nat -> option (string * Z).
(** The values of [interface{}], [fmt.Sprint] of one of them, and
    [fmt.Sprint("Keyvalues must appear in pairs: ", keyvals)]. *)
Variable Any : Type.
Variable Sprint : Any -> string.
Variable Sprint_keyvals : list Any -> string.

(** The loop of [formatCaller] (lines 136-140) *)
Fixpoint formatCaller_markers (file : string) (line : Z) (markers : list string)
  : option string :=
  match markers with
  | [] => None
  | marker :: markers =>
      let idx := stdlib.LastIndexOf file marker in
      if negb (idx =? -1) then
        Some (stdlib.slice_from file (idx + 1) +:+ ":" +:+ Itoa line)
      else formatCaller_markers file line markers
  end.

(** [formatCaller] (lines 133-147) *)
Definition formatCaller (file : string) (line : Z) : string :=
  match formatCaller_markers file line markers with
  | Some s => s
  | None =>
      let parts := stdlib.Split file "/" in
      if (2 <=? length parts)%nat then
        nth (length parts - 2) parts "" +:+ "/" +:+ nth (length parts - 1) parts ""
          +:+ ":" +:+ Itoa line
      else file +:+ ":" +:+ Itoa line
  end.

(** The loop of [getCaller] (lines 110-128): [n] rounds from frame [i]. *)
Fixpoint getCaller_from (i n : nat) : string :=
  match n with
  | O => "unknown"
  | S n =>
      match Caller i with
      | None => "unknown"
      | Some (file, line) =>
          if existsb (stdlib.Contains file) skipPatterns then getCaller_from (S i) n
          else formatCaller file line
      end
  end.

(** [getCaller] (lines 108-130) *)
Definition getCaller : string := getCaller_from 3 (maxDepth - 3).

(** The loop of [Log] (lines 43-45) *)
Fixpoint Log_fields (keyvals : list Any) : list (string * string) :=
  match keyvals with
  | k :: v :: keyvals => (Sprint k, Sprint v) :: Log_fields keyvals
  | _ => []
  end.

(** [Log] (lines 35-59): the calls it makes to the zap logger. *)
Definition Log (level : Z) (keyvals : list Any) : list ZapCall :=
  if (length keyvals =? 0)%nat || negb (length keyvals mod 2 =? 0)%nat then
    [{| method := Warn; msg := Sprint_keyvals keyvals; fields := [] |}]
  else
    let data := ("caller", getCaller) :: Log_fields keyvals in
    if level =? LevelDebug then [{| method := Debug; msg := ""; fields := data |}]
    else if level =? LevelInfo then [{| method := Info; msg := ""; fields := data |}]
    else if level =? LevelWarn then [{| method := Warn; msg := ""; fields := data |}]
    else if level =? LevelError then [{| method := Error; msg := ""; fields := data |}]
    else if level =? LevelFatal then [{| method := Fatal; msg := ""; fields := data |}]
    else [].

(** The key-value list of pairs. *)
Fixpoint keyvals_of (pairs : list (Any * Any)) : list Any :=
  match pairs with
  | [] => []
  | (k, v) :: pairs => k :: v :: keyvals_of pairs
  end.

(** The method of the zap logger for a level. *)
Definition method_of (level : Z) : option Method :=
  if level =? LevelDebug then Some Debug
  else if level =? LevelInfo then Some Info
  else if level =? LevelWarn then Some Warn
  else if level =? LevelError then Some Error
  else if level =? LevelFatal then Some Fatal
  else None.

End Log.

(** A stack to try [getCaller] with: [Log], two frames of kratos, the
    caller. *)
Definition stack (i : nat) : option (string * Z) :=
  [("/src/app/pkg/log/zap.go", 41);
   ("/go/pkg/mod/github.com/go-kratos/kratos/v2@v2.8.0/log/log.go", 30);
   ("/go/pkg/mod/github.com/go-kratos/kratos/v2@v2.8.0/log/helper.go", 95);
   ("/go/pkg/mod/github.com/go-kratos/kratos/v2@v2.8.0/log/helper.go", 60);
   ("/src/app/internal/job/ticker_job.go", 48);
   ("/src/app/cmd/server/main.go", 111)] !! i.

End zapLog.
(** ** Lemmas on counting *)

Lemma count_app {A} (p : A -> bool) (l1 l2 : list A) :
  count p (l1 ++ l2) = (count p l1 + count p l2)%nat.
Proof. induction l1 as [|x l1 IH]; simpl; [done | rewrite IH; lia]. Qed.

Lemma count_insert {A} (p : A -> bool) (l : list A) (i : nat) (x y : A) :
  l !! i = Some y ->
  (count p (<[i := x]> l) + b2n (p y) = count p l + b2n (p x))%nat.
Proof.
  revert i. induction l as [|z l IH]; intros [|i] Hi; simplify_eq/=.
  - unfold b2n. destruct (p x), (p y); lia.
  - specialize (IH _ Hi). lia.
Qed.

Lemma count_zero_lookup {A} (p : A -> bool) (l : list A) (i : nat) (x : A) :
  count p l = 0%nat -> l !! i = Some x -> p x = false.
Proof.
  revert i. induction l as [|z l IH]; intros [|i] H0 Hi; simplify_eq/=.
  - destruct (p x); [lia | done].
  - apply (IH i); [destruct (p z); lia | done].
Qed.

Lemma count_pos_lookup {A} (p : A -> bool) (l : list A) :
  (0 < count p l)%nat -> exists i x, l !! i = Some x /\ p x = true.
Proof.
  induction l as [|z l IH]; simpl; [lia |].
  destruct (p z) eqn:Hz; intros H.
  - exists 0%nat, z. done.
  - destruct IH as (i & x & Hi & Hx); [lia |]. exists (S i), x. done.
Qed.

Lemma lookup_count_pos {A} (p : A -> bool) (l : list A) (i : nat) (x : A) :
  l !! i = Some x -> p x = true -> (0 < count p l)%nat.
Proof.
  intros Hi Hx. destruct (count p l) eqn:E; [| lia].
  rewrite (count_zero_lookup p l i x E Hi) in Hx. done.
Qed.

Lemma existsb_count {A} (p : A -> bool) (l : list A) :
  count p l = 0%nat -> existsb p l = false.
Proof.
  induction l as [|z l IH]; simpl; [done |].
  destruct (p z); [lia | auto].
Qed.

(** ** The callers of [Stop]: the invariant *)

Lemma init_StopInv (j : TickerJob) :
  stopCh j = ChOpen -> stopOnce j = OnceFresh -> StopInv (init j).
Proof.
  intros Hc Ho. split; simpl; rewrite ?Hc, ?Ho; try done.
Qed.

(** Everything but a step of a caller of [Stop] leaves the channel, the
    once and the number of closes alone. *)
Lemma step_stop_frame (e : Event) (w : World) :
  (forall i, e <> EvStopStep i) -> e <> EvStopCall ->
  stoppers (step e w) = stoppers w /\
  stopCh (job (step e w)) = stopCh (job w) /\
  stopOnce (job (step e w)) = stopOnce (job w) /\
  closes (step e w) = closes w.
Proof.
  intros Hs Hc. unfold step, closes. destruct (crashed w); [done |].
  destruct e as [ |c| |o| |i|err| ]; try done.
  - unfold step_main, wg_done.
    destruct (main w); simpl; try done; repeat case_match; simplify_eq/=; done.
  - unfold step_select. destruct (main w); try done.
    destruct (ready c w); [| done]. destruct c; done.
  - unfold step_imm, wg_done.
    destruct (imm w); simpl; try done; repeat case_match; simplify_eq/=; done.
  - unfold step_returns. destruct o; repeat case_match; done.
  - by specialize (Hs i).
  - unfold step_cancel. case_match; done.
  - unfold step_elapse. case_match; done.
Qed.

Lemma past_close_le_in_do (l : list StopPc) :
  (count past_close l <= count in_do l)%nat.
Proof. induction l as [|z l IH]; simpl; [lia |]. destruct z; simpl; lia. Qed.

(** With a single caller inside [Do], standing at line 74, nobody is past
    the close. *)
Lemma lone_caller_at_close (l : list StopPc) (i : nat) :
  l !! i = Some SL74 -> count in_do l = 1%nat -> count past_close l = 0%nat.
Proof.
  revert i. induction l as [|z l IH]; intros [|i] Hi H1; simplify_eq/=.
  - pose proof (past_close_le_in_do l). lia.
  - pose proof (lookup_count_pos in_do _ _ _ Hi eq_refl).
    destruct z; simpl in *; try lia; eauto.
Qed.

Lemma step_StopInv (e : Event) (w : World) : StopInv w -> StopInv (step e w).
Proof.
  intros I.
  destruct e as [ |c| |o| |i|err| ].
  1-4, 7-8:
    match goal with
    | |- StopInv (step ?e _) =>
        destruct (step_stop_frame e w ltac:(done) ltac:(done)) as (Hs & Hch & Ho & Hcl)
    end;
    destruct I; split; rewrite ?Hs, ?Hch, ?Ho, ?Hcl; done.
  { unfold step. destruct (crashed w); [done |].
    destruct I as [I1 I2 I3 I4 I5 I6 I7 I8].
    split; simpl; rewrite ?count_app; simpl; try lia; try done.
    intros Hf. rewrite I6; done. }
  unfold step. destruct (crashed w); [done |]. unfold step_stop.
  destruct (stoppers w !! i) as [pc|] eqn:Hi; [| done].
  pose proof (fun p x => count_insert p (stoppers w) i x pc Hi) as CI.
  destruct I as [I1 I2 I3 I4 I5 I6 I7 I8]. unfold closes in *.
  destruct w as [[nm lg iv ch on ei fn g] ce tk m im sts tr]. simpl in *.
  destruct pc; try (split; done).
  - (* line 73 *)
    destruct on; [| split; done |].
    + rewrite (I5 eq_refl) in *.
      pose proof (CI stop_panicked SL74). pose proof (CI stop_failed SL74).
      pose proof (CI in_do SL74). pose proof (CI past_close SL74).
      pose proof (CI stop_returned SL74). specialize (I6 ltac:(done)).
      split; unfold closes; simpl in *; try done; lia.
    + pose proof (CI stop_panicked (SReturned None)).
      pose proof (CI stop_failed (SReturned None)).
      pose proof (CI in_do (SReturned None)).
      pose proof (CI past_close (SReturned None)).
      split; unfold closes; simpl in *; try done; lia.
  - (* line 74 *)
    pose proof (lookup_count_pos in_do _ _ _ Hi eq_refl) as Hpos.
    destruct on; simpl in *; try lia.
    pose proof (lone_caller_at_close _ _ Hi I3) as Hnone.
    destruct ch; simpl in *; [| lia].
    pose proof (CI stop_panicked SL75). pose proof (CI stop_failed SL75).
    pose proof (CI in_do SL75). pose proof (CI past_close SL75).
    pose proof (CI stop_returned SL75). specialize (I6 ltac:(done)).
    split; unfold closes; simpl in *; try done; lia.
  - (* line 75 *)
    pose proof (lookup_count_pos past_close _ _ _ Hi eq_refl) as Hpos.
    destruct on; simpl in *; try lia.
    destruct ch; simpl in *; try lia.
    pose proof (CI stop_panicked (SReturned None)).
    pose proof (CI stop_failed (SReturned None)).
    pose proof (CI in_do (SReturned None)).
    pose proof (CI past_close (SReturned None)).
    split; unfold closes; simpl in *; try done; lia.
Qed.

(** ** [Start]: the invariant *)

Lemma init_StartInv (j : TickerJob) : fresh j -> StartInv j (init j).
Proof.
  intros (Hc & Ho & Hw). split; simpl; done.
Qed.

(** Unfolds one transition from a state that is written out. *)
Ltac world_cbv :=
  cbv [step crashed step_main step_select step_imm step_returns step_cancel
       step_elapse ready wg_done wg_add main_panicked imm_panicked orb
       with_job with_ctxErr with_ticker with_main with_imm with_stoppers emit
       set_wg set_stopCh set_stopOnce
       job ctxErr ticker main imm stoppers trace
       name log interval stopCh stopOnce executeImmediate executeFn wg].

(** Evaluates the innermost step of the goal, taken from a state that is
    written out, given whether a caller of [Stop] has panicked ([Hex]) and
    whether the interval is positive ([Hle]). *)
Ltac eval_step Hex Hle :=
  match goal with
  | |- context [step ?e (mkWorld ?a ?b ?c ?d ?i ?s ?t)] =>
      let w1 := fresh "w1" in
      let H := fresh "H" in
      evar (w1 : World);
      assert (step e (mkWorld a b c d i s t) = w1) as H
        by (world_cbv; rewrite ?Hex; world_cbv; rewrite ?Hle; simpl; world_cbv;
            subst w1; reflexivity);
      rewrite H; subst w1; clear H
  end.

Ltac unfold_readers :=
  unfold begun, ended, launched, elapsed, delivered, closes, cause_at, panic_at,
    same_config, wg_done, wg_add, ready in *.

Ltac use_refl :=
  repeat match goal with
  | H : ?x = ?x -> _ |- _ => specialize (H eq_refl)
  | H : forall r : option error, MReturned _ = MReturned r -> _ |- _ =>
      specialize (H _ eq_refl)
  | H : forall p : Panic, IPanicked _ = IPanicked p -> _ |- _ =>
      specialize (H _ eq_refl)
  end.

Ltac crush_inv :=
  use_refl; simplify_eq/=;
  split; unfold_readers; simpl in *; intros; simplify_eq/=;
  try done; try lia; try (intuition (first [congruence | lia | eauto])).

Ltac crush_cases im :=
  unfold_readers; simpl in *; repeat case_match; simplify_eq/=;
  try (crush_inv; fail); try (destruct im; simpl in *; crush_inv; fail).

Lemma step_StartInv (j0 : TickerJob) (e : Event) (w : World) :
  StartInv j0 w -> StartInv j0 (step e w).
Proof.
  intros I. unfold step. destruct (crashed w) eqn:Hcr; [done |].
  destruct I as [I1 I2 I3 I4 I5 I6 I7 I8 I9 I10 I10' I11 I12 I13 I14 I15 I16].
  destruct w as [[nm lg iv ch on ei fn g] ce tk m im sts tr].
  unfold crashed in Hcr. simpl in Hcr.
  apply orb_false_elim in Hcr as [Hcr _]. apply orb_false_elim in Hcr as [Hm Him].
  destruct e as [ |c| |o| |i|err| ].
  - (* EvMain *)
    unfold step_main; simpl in *.
    destruct m; simpl in *; try (split; done).
    all: crush_cases im.
  - (* EvSelect *)
    unfold step_select; simpl in *.
    destruct m; simpl in *; try (split; done).
    destruct c; crush_cases im.
  - (* EvImm *)
    unfold step_imm; simpl in *.
    destruct im; simpl in *; try (split; done).
    all: destruct m; crush_cases im.
  - (* EvReturns *)
    unfold step_returns; simpl in *.
    destruct o; [destruct im | destruct m]; simpl in *; try (split; done).
    all: crush_cases im.
  - (* EvStopCall *)
    crush_cases im.
  - (* EvStopStep *)
    unfold step_stop; simpl in *.
    crush_cases im.
  - (* EvCancel *)
    unfold step_cancel; simpl in *.
    destruct m; crush_cases im.
  - (* EvElapse *)
    unfold step_elapse; simpl in *.
    destruct tk as [|[|]|]; simpl in *; try (split; done).
    all: destruct m; crush_cases im.
Qed.

(** ** Executions *)

Lemma run_app (es1 es2 : list Event) (w : World) :
  run (es1 ++ es2) w = run es2 (run es1 w).
Proof. apply fold_left_app. Qed.

Lemma run_snoc (es : list Event) (e : Event) (w : World) :
  run (es ++ [e]) w = step e (run es w).
Proof. by rewrite run_app. Qed.

Lemma exec_run (sch : nat -> Event) (w : World) (n : nat) :
  exec sch w n = run (map sch (seq 0 n)) w.
Proof.
  induction n as [|n IH]; [done |].
  rewrite seq_S, map_app, run_app, <- IH. done.
Qed.

Lemma run_StopInv (es : list Event) (w : World) : StopInv w -> StopInv (run es w).
Proof. revert w. induction es as [|e es IH]; simpl; auto using step_StopInv. Qed.

Lemma run_StartInv (j0 : TickerJob) (es : list Event) (w : World) :
  StartInv j0 w -> StartInv j0 (run es w).
Proof. revert w. induction es as [|e es IH]; simpl; auto using step_StartInv. Qed.

Lemma reachable_StopInv (j : TickerJob) (es : list Event) :
  fresh j -> StopInv (run es (init j)).
Proof. intros (? & ? & ?). by apply run_StopInv, init_StopInv. Qed.

Lemma reachable_StartInv (j : TickerJob) (es : list Event) :
  fresh j -> StartInv j (run es (init j)).
Proof. intros. by apply run_StartInv, init_StartInv. Qed.

Lemma newTickerJob_fresh nm iv lg fn ei : fresh (newTickerJob nm iv lg fn ei).
Proof. done. Qed.

(** ** The tests of the package *)

Example TestTickerJob_StartStop_passes :
  main TestTickerJob_StartStop = MReturned None /\
  stoppers TestTickerJob_StartStop = [SReturned None] /\
  begun Ticked TestTickerJob_StartStop = 3%nat.
Proof. vm_compute. done. Qed.

Example TestTickerJob_StopMultipleTimes_passes :
  main TestTickerJob_StopMultipleTimes = MReturned None /\
  stoppers TestTickerJob_StopMultipleTimes = repeat (SReturned None) 5 /\
  closes TestTickerJob_StopMultipleTimes = 1%nat.
Proof. vm_compute. done. Qed.

Example TestTickerJob_ExecuteImmediate_passes :
  main TestTickerJob_ExecuteImmediate = MReturned None /\
  (begun Immediate TestTickerJob_ExecuteImmediate
   + begun Ticked TestTickerJob_ExecuteImmediate)%nat = 1%nat.
Proof. vm_compute. done. Qed.

Example TestTickerJob_NoExecuteImmediate_passes :
  main TestTickerJob_NoExecuteImmediate = MReturned None /\
  (begun Immediate TestTickerJob_NoExecuteImmediate
   + begun Ticked TestTickerJob_NoExecuteImmediate)%nat = 0%nat.
Proof. vm_compute. done. Qed.

Example TestTickerJob_ContextCancellation_passes :
  main TestTickerJob_ContextCancellation = MReturned (Some Canceled).
Proof. vm_compute. done. Qed.

Example TestTickerJob_StopWaitsForExecution_passes :
  stoppers TestTickerJob_StopWaitsForExecution_stopped = [SReturned None] /\
  main TestTickerJob_StopWaitsForExecution_stopped = MInFn /\
  executing Ticked TestTickerJob_StopWaitsForExecution_stopped = 1%nat /\
  main TestTickerJob_StopWaitsForExecution = MReturned None /\
  ended Ticked TestTickerJob_StopWaitsForExecution = 1%nat.
Proof. vm_compute. done. Qed.

(** ** Safety of [Start] and [Stop] *)

(** C8. [newTickerJob] validates nothing: for every name, every interval
    (zero and negative ones too), every logger, every action (nil too) and
    either flag it yields a job, and the job holds exactly these parameters,
    with an open stop channel, an unused once and an empty wait group. *)
Theorem newTickerJob_holds_parameters
    (nm : string) (iv : Z) (lg : Logger) (fn : option Func) (ei : bool) :
  exists j, newTickerJob nm iv lg fn ei = j /\
    name j = nm /\ interval j = iv /\ log j = NewHelper lg /\
    executeFn j = fn /\ executeImmediate j = ei /\
    stopCh j = ChOpen /\ stopOnce j = OnceFresh /\ wg j = 0.
Proof. eexists. split; [reflexivity |]. repeat split. Qed.

(** C10. [Servers] returns the tasks the registry holds: the registry has
    no field, so it holds none, and every call returns the empty list. *)
Theorem Servers_returns_the_empty_list (r : Registry) :
  r = mkRegistry /\ Servers r = [] /\ length (Servers r) = 0%nat.
Proof. destruct r. done. Qed.

(** C3. When [Start] has returned, its result tells why: it is nil exactly
    when the [select] left the loop through the stop channel, it is the
    (non-nil) error of the context exactly when the [select] left through
    [ctx.Done()], and it is never anything else. *)
Theorem Start_result_tells_the_cause (j : TickerJob) (es : list Event) (r : option error) :
  fresh j ->
  main (run es (init j)) = MReturned r ->
  (r = None <-> last_select (trace (run es (init j))) = Some CaseStop) /\
  ((exists e, r = Some e /\ ctxErr (run es (init j)) = Some e)
     <-> last_select (trace (run es (init j))) = Some CaseCtx) /\
  (r = None \/ r = ctxErr (run es (init j))).
Proof.
  intros Hf Hr. pose proof (st_cause _ _ (reachable_StartInv j es Hf)) as Hc.
  unfold cause_at in Hc. rewrite Hr in Hc.
  destruct Hc as [(Hs & -> & Hn) | (Hs & -> & _)]; rewrite Hs.
  - destruct (ctxErr (run es (init j))) as [e|] eqn:He; [| done].
    repeat split; try done; eauto.
  - repeat split; try done; eauto. intros (e & ? & _). done.
Qed.

(** C2, as the code has it: two invocations made by the loop never
    overlap, and neither do two immediate ones; a job without immediate
    execution never has two invocations executing at once. *)
Theorem invocations_of_one_call_site_never_overlap (j : TickerJob) (es : list Event) :
  fresh j ->
  (executing Ticked (run es (init j)) <= 1)%nat /\
  (executing Immediate (run es (init j)) <= 1)%nat /\
  (executeImmediate j = false -> (executing_all (run es (init j)) <= 1)%nat).
Proof.
  intros Hf. pose proof (reachable_StartInv j es Hf) as I.
  unfold executing_all, executing.
  rewrite (st_begun_imm _ _ I), (st_ended_imm _ _ I), (st_begun_tick _ _ I).
  destruct (st_config _ _ I) as (_ & _ & _ & Hei & _).
  split; [| split].
  - destruct (main (run es (init j))); simpl; lia.
  - destruct (imm (run es (init j))); simpl; lia.
  - intros Hno. rewrite Hno in Hei.
    assert (imm (run es (init j)) = INone) as ->.
    { destruct (before_launch (main (run es (init j)))) eqn:Hb.
      - by apply (st_before _ _ I).
      - pose proof (st_after _ _ I Hb) as Ha. rewrite Hei in Ha.
        destruct (imm (run es (init j))); done. }
    destruct (main (run es (init j))); simpl; lia.
Qed.

(** C2 in the wording of the specification, for every job and flag, does
    not hold: with immediate execution the launched goroutine and the loop
    can both be inside the action, as they are after [overlapping]. *)
Lemma immediate_and_ticked_invocation_overlap :
  executing_all (run overlapping (init (hourly true))) = 2%nat /\
  ~ (forall (j : TickerJob) (es : list Event),
       fresh j -> (executing_all (run es (init j)) <= 1)%nat).
Proof.
  split; [vm_compute; reflexivity |].
  intros H. specialize (H (hourly true) overlapping (newTickerJob_fresh _ _ _ _ _)).
  vm_compute in H. lia.
Qed.

(** C5. Until the interval has elapsed for the first time the loop has
    invoked nothing.  The immediate execution is launched by line 42,
    before the ticker exists: once [Start] is past that line exactly one
    execution has been launched when the flag is set and none when it is
    not, no more invocations have begun than were launched, and the launched
    goroutine enters the action without any interval elapsing. *)
Theorem invocations_before_the_first_interval (j : TickerJob) (es : list Event) :
  fresh j ->
  elapsed (run es (init j)) = 0%nat ->
  begun Ticked (run es (init j)) = 0%nat /\
  launched (run es (init j))
    = b2n (executeImmediate j && negb (before_launch (main (run es (init j))))) /\
  (begun Immediate (run es (init j)) <= launched (run es (init j)))%nat /\
  (executeImmediate j = false ->
   (begun Immediate (run es (init j)) + begun Ticked (run es (init j)))%nat = 0%nat) /\
  (imm (run es (init j)) = IL44 -> crashed (run es (init j)) = false ->
   is_Some (executeFn j) ->
   begun Immediate (step EvImm (run es (init j))) = 1%nat /\
   elapsed (step EvImm (run es (init j))) = 0%nat).
Proof.
  intros Hf H0. pose proof (reachable_StartInv j es Hf) as I.
  set (w := run es (init j)) in *.
  destruct (st_config _ _ I) as (_ & _ & _ & Hei & Hfn).
  pose proof (st_credit _ _ I). pose proof (st_delivered _ _ I).
  assert (begun Ticked w = 0%nat) as HT by lia.
  assert (launched w = b2n (executeImmediate j && negb (before_launch (main w)))) as HL.
  { rewrite (st_launched _ _ I), <- Hei.
    destruct (before_launch (main w)) eqn:Hb.
    - rewrite (st_before _ _ I Hb), andb_false_r. done.
    - rewrite (st_after _ _ I Hb), andb_true_r. done. }
  assert (begun Immediate w <= launched w)%nat as HI.
  { rewrite (st_launched _ _ I), (st_begun_imm _ _ I). destruct (imm w); simpl; lia. }
  split; [done |]. split; [done |]. split; [done |]. split.
  - intros Hno. rewrite HL, Hno in HI. simpl in HI. lia.
  - intros Hpc Hcr [f Hf']. rewrite Hf' in Hfn.
    pose proof (st_begun_imm _ _ I) as Hb.
    unfold step, step_imm, begun, elapsed in *. fold w. rewrite Hcr, Hpc in *.
    rewrite Hfn. simpl in *. rewrite Hb. done.
Qed.

Lemma step_ticks_at_hand (e : Event) (w : World) :
  is_elapse e = false -> (ticks_at_hand (step e w) <= ticks_at_hand w)%nat.
Proof.
  intros He. unfold step. destruct (crashed w); [done |].
  unfold ticks_at_hand, begun.
  destruct w as [[nm lg iv ch on ei fn g] ce tk m im sts tr].
  destruct e as [ |c| |o| |i|err| ]; try done; simpl.
  - unfold step_main, wg_done. destruct m; simpl; repeat case_match; simpl; lia.
  - unfold step_select, ready. destruct m; simpl; try lia.
    destruct c; simpl; repeat case_match; simpl; lia.
  - unfold step_imm, wg_done. destruct im; simpl; repeat case_match; simpl; lia.
  - unfold step_returns. destruct o; simpl; repeat case_match; simpl; lia.
  - unfold step_stop; simpl. repeat case_match; simpl; lia.
  - unfold step_cancel; simpl. repeat case_match; simpl; lia.
Qed.

Lemma run_ticks_at_hand (es : list Event) (w : World) :
  forallb (fun e => negb (is_elapse e)) es = true ->
  (ticks_at_hand (run es w) <= ticks_at_hand w)%nat.
Proof.
  revert w. induction es as [|e es IH]; intros w H; simpl in *; [lia |].
  apply andb_prop in H as [He Hes]. apply negb_true_iff in He.
  specialize (IH (step e w) Hes). pose proof (step_ticks_at_hand e w He). lia.
Qed.

(** However often the interval elapses, a single tick is kept. *)
Lemma elapse_keeps_one_tick (k : nat) (w : World) :
  main (run (repeat EvElapse k) w) = main w /\
  begun Ticked (run (repeat EvElapse k) w) = begun Ticked w /\
  (pending (ticker (run (repeat EvElapse k) w)) <= 1)%nat.
Proof.
  revert w. induction k as [|k IH]; intros w; simpl.
  - repeat split. destruct (ticker w) as [|[|]|]; simpl; lia.
  - destruct (IH (step EvElapse w)) as (Hm & Hb & Hp).
    rewrite Hm, Hb. repeat split; [| | done].
    + unfold step. destruct (crashed w); [done |].
      unfold step_elapse. destruct (ticker w); done.
    + unfold step. destruct (crashed w); [done |].
      unfold step_elapse, begun. destruct (ticker w); done.
Qed.

(** While the loop is inside the action nothing has panicked. *)
Lemma in_fn_alive (j0 : TickerJob) (w : World) :
  StartInv j0 w -> StopInv w -> main w = MInFn -> crashed w = false.
Proof.
  intros I S Hin. unfold crashed.
  rewrite (existsb_count _ _ (si_panicked _ S)), orb_false_r, Hin. simpl.
  destruct (st_in_fn _ _ I Hin) as [f Hf].
  pose proof (st_imm_panic _ _ I) as Hp.
  destruct (imm w); try done. destruct (Hp _ eq_refl). congruence.
Qed.

(** Once the interval has elapsed a tick is waiting in the channel of a
    running ticker. *)
Lemma elapse_delivers_a_tick (k : nat) (w : World) :
  crashed w = false -> (exists p, ticker w = Running p) -> (1 <= k)%nat ->
  ticker (run (repeat EvElapse k) w) = Running true.
Proof.
  revert w. induction k as [|k IH]; intros w Hcr [p Hp] Hk; [lia |].
  simpl. assert (step EvElapse w = with_ticker (emit (ObsElapsed (negb p)) w) (Running true))
    as Hstep by (unfold step, step_elapse; rewrite Hcr, Hp; done).
  destruct k as [|k]; [by rewrite Hstep |].
  apply IH; [| | lia]; rewrite Hstep; [done | by exists true].
Qed.

(** C6. An invocation made by the loop executes exactly while the loop's
    own goroutine is inside the call: meanwhile the loop takes no case of
    its [select] and executes no other statement of [Start], so no second
    ticked invocation can begin.  A tick that falls into a slow execution
    waits for the loop, and ticks are not queued up: however many intervals
    elapse meanwhile, one tick is waiting afterwards and at most one
    further invocation follows unless the interval elapses again. *)
Theorem ticked_invocations_run_inside_the_loop (j : TickerJob) (es : list Event) :
  fresh j ->
  executing Ticked (run es (init j)) = main_in_fn (main (run es (init j))) /\
  (main (run es (init j)) = MInFn ->
   (forall c, step (EvSelect c) (run es (init j)) = run es (init j)) /\
   step EvMain (run es (init j)) = run es (init j) /\
   (forall (k : nat), (1 <= k)%nat ->
      ticker (run (repeat EvElapse k) (run es (init j))) = Running true) /\
   (forall (k : nat) (es' : list Event),
      forallb (fun e => negb (is_elapse e)) es' = true ->
      (begun Ticked (run es' (run (repeat EvElapse k) (run es (init j))))
       <= begun Ticked (run es (init j)) + 1)%nat)).
Proof.
  intros Hf. pose proof (reachable_StartInv j es Hf) as I.
  set (w := run es (init j)) in *. split.
  - unfold executing. rewrite (st_begun_tick _ _ I). lia.
  - intros Hin. split; [| split; [| split]].
    + intros c. unfold step, step_select. rewrite Hin. by destruct (crashed w).
    + unfold step, step_main. rewrite Hin. by destruct (crashed w).
    + intros k Hk. apply elapse_delivers_a_tick; [| | done].
      * apply (in_fn_alive j); [done | by apply reachable_StopInv | done].
      * pose proof (st_ticker _ _ I) as Ht. unfold ticker_at in Ht.
        fold w in Ht. rewrite Hin in Ht. done.
    + intros k es' Hes'.
      pose proof (run_ticks_at_hand es' (run (repeat EvElapse k) w) Hes') as Hle.
      destruct (elapse_keeps_one_tick k w) as (Hm & Hb & Hp).
      unfold ticks_at_hand in Hle. rewrite Hm, Hb, Hin in Hle. simpl in Hle. lia.
Qed.

(** [Start] on its own with an interval that is not positive. *)
Lemma start_to_ticker_panics (j : TickerJob) :
  fresh j -> interval j <= 0 ->
  main (run start_to_ticker (init j)) = MPanicked PanicNonPositiveInterval /\
  launched (run start_to_ticker (init j)) = b2n (executeImmediate j).
Proof.
  intros (Hc & Ho & Hw) Hiv.
  assert ((interval j <=? 0) = true) as Hle by lia.
  assert (existsb stop_panicked [] = false) as Hex by done.
  clear Hiv. destruct j as [nm lg iv ch on ei fn g]. simpl in * |-. subst.
  unfold launched, run, start_to_ticker, fold_left, init.
  destruct ei; do 4 (eval_step Hex Hle); done.
Qed.

(** With an interval that is not positive [Start] does not return. *)
Lemma no_return_without_interval (j : TickerJob) (es : list Event) (r : option error) :
  fresh j -> interval j <= 0 -> main (run es (init j)) <> MReturned r.
Proof.
  intros Hf Hiv Hr. pose proof (reachable_StartInv j es Hf) as I.
  pose proof (st_panic _ _ I) as Hp. unfold panic_at in Hp. rewrite Hr in Hp.
  destruct (st_config _ _ I) as (_ & _ & Hi & _). lia.
Qed.

(** C9. With an interval that is not positive [Start] never returns, an
    error or otherwise: the ticker is never created, and [Start] running on
    its own ends in the panic of [time.NewTicker], after line 42 has
    launched the immediate execution when the flag is set. *)
Theorem Start_panics_without_positive_interval (j : TickerJob) :
  fresh j -> interval j <= 0 ->
  (forall es r, main (run es (init j)) <> MReturned r) /\
  (forall es, ticker (run es (init j)) = NoTicker) /\
  main (run start_to_ticker (init j)) = MPanicked PanicNonPositiveInterval /\
  launched (run start_to_ticker (init j)) = b2n (executeImmediate j).
Proof.
  intros Hf Hiv. split; [| split].
  - intros es r. by apply no_return_without_interval.
  - intros es. pose proof (reachable_StartInv j es Hf) as I.
    pose proof (st_panic _ _ I) as Hp. pose proof (st_ticker _ _ I) as Ht.
    destruct (st_config _ _ I) as (_ & _ & Hi & _).
    unfold panic_at, ticker_at in *.
    destruct (main (run es (init j))); try done; try lia.
    destruct Hp as [(_ & _ & ?) | (_ & _ & ?)]; [done | lia].
  - by apply start_to_ticker_panics.
Qed.

(** ** Progress under a fair schedule *)

Section Progress.
Variable sch : nat -> Event.
Variable w0 : World.
Variable rank : World -> nat.
Variable next : World -> Event.
Variable goal : World -> bool.
Variable n0 : nat.

(** No event moves away from the goal, and the event awaited stays the
    same as long as nothing has moved. *)
Hypothesis Hstep : forall m, (n0 <= m)%nat ->
  goal (exec sch w0 m) = false ->
  goal (exec sch w0 (S m)) = true \/
  (rank (exec sch w0 (S m)) < rank (exec sch w0 m))%nat \/
  (rank (exec sch w0 (S m)) = rank (exec sch w0 m) /\
   next (exec sch w0 (S m)) = next (exec sch w0 m)).

(** The event awaited moves towards the goal. *)
Hypothesis Hnext : forall m, (n0 <= m)%nat ->
  goal (exec sch w0 m) = false ->
  sch m = next (exec sch w0 m) ->
  goal (exec sch w0 (S m)) = true \/
  (rank (exec sch w0 (S m)) < rank (exec sch w0 m))%nat.

(** The event awaited comes. *)
Hypothesis Hfair : forall m, (n0 <= m)%nat ->
  goal (exec sch w0 m) = false ->
  forall n, exists k, (n <= k)%nat /\ sch k = next (exec sch w0 m).

Lemma wait_for_next (n d : nat) :
  (n0 <= n)%nat ->
  goal (exec sch w0 n) = false ->
  (exists m, (n <= m)%nat /\ goal (exec sch w0 m) = true) \/
  (exists m, (n <= m)%nat /\ (rank (exec sch w0 m) < rank (exec sch w0 n))%nat) \/
  (goal (exec sch w0 (n + d)) = false /\
   rank (exec sch w0 (n + d)) = rank (exec sch w0 n) /\
   next (exec sch w0 (n + d)) = next (exec sch w0 n)).
Proof.
  intros Hn Hg. induction d as [|d IH].
  - right. right. rewrite Nat.add_0_r. done.
  - destruct IH as [IH | [IH | (Hg' & Hr & Hx)]]; [by left | by right; left |].
    replace (n + S d)%nat with (S (n + d)) by lia.
    destruct (Hstep (n + d) ltac:(lia) Hg') as [H | [H | [H1 H2]]].
    + left. exists (S (n + d)). split; [lia | done].
    + right. left. exists (S (n + d)). split; [lia | lia].
    + destruct (goal (exec sch w0 (S (n + d)))) eqn:Hg''.
      * left. exists (S (n + d)). split; [lia | done].
      * right. right. split; [done |]. split; congruence.
Qed.

Lemma fair_progress : exists m, (n0 <= m)%nat /\ goal (exec sch w0 m) = true.
Proof.
  assert (forall r n, (n0 <= n)%nat -> rank (exec sch w0 n) = r ->
            exists m, (n <= m)%nat /\ goal (exec sch w0 m) = true) as H.
  { induction r as [r IH] using lt_wf_ind. intros n Hn Hr.
    destruct (goal (exec sch w0 n)) eqn:Hg; [by exists n |].
    destruct (Hfair n Hn Hg n) as (k & Hk & Hsch).
    destruct (wait_for_next n (k - n) Hn Hg) as [H | [H | (Hg' & Hr' & Hx)]].
    - done.
    - destruct H as (m & Hm & Hlt).
      destruct (IH (rank (exec sch w0 m)) ltac:(lia) m ltac:(lia) eq_refl)
        as (m' & ? & ?).
      exists m'. split; [lia | done].
    - replace (n + (k - n))%nat with k in * by lia.
      destruct (Hnext k ltac:(lia) Hg' ltac:(congruence)) as [H | H].
      + exists (S k). split; [lia | done].
      + destruct (IH (rank (exec sch w0 (S k))) ltac:(lia) (S k) ltac:(lia) eq_refl)
          as (m' & ? & ?).
        exists m'. split; [lia | done]. }
  destruct (H _ n0 ltac:(lia) eq_refl) as (m & ? & ?). eauto.
Qed.
End Progress.

Lemma exec_StopInv (sch : nat -> Event) (w : World) (n : nat) :
  StopInv w -> StopInv (exec sch w n).
Proof. rewrite exec_run. apply run_StopInv. Qed.

Lemma exec_StartInv (j0 : TickerJob) (sch : nat -> Event) (w : World) (n : nat) :
  StartInv j0 w -> StartInv j0 (exec sch w n).
Proof. rewrite exec_run. apply run_StartInv. Qed.

(** With a positive interval and an action nothing panics. *)
Lemma no_crash (j0 : TickerJob) (w : World) :
  StartInv j0 w -> StopInv w -> 0 < interval j0 -> is_Some (executeFn j0) ->
  crashed w = false.
Proof.
  intros I S Hiv [f Hfn]. unfold crashed.
  destruct (st_config _ _ I) as (_ & _ & Hi & _ & Hf).
  rewrite (existsb_count _ _ (si_panicked _ S)), orb_false_r.
  apply orb_false_intro.
  - pose proof (st_panic _ _ I) as Hp. unfold panic_at in Hp.
    destruct (main w); try done.
    destruct Hp as [(_ & ? & _) | (_ & ? & _)]; [lia | congruence].
  - pose proof (st_imm_panic _ _ I) as Hp.
    destruct (imm w); try done. destruct (Hp _ eq_refl). congruence.
Qed.

(** ** Every call of [Stop] returns *)

Lemma runner_lookup (l : list StopPc) :
  (0 < count in_do l)%nat -> exists pc, l !! runner l = Some pc /\ in_do pc = true.
Proof.
  induction l as [|z l IH]; simpl; [lia |].
  destruct (in_do z) eqn:Hz; [eauto |]. intros H. apply IH. lia.
Qed.

Lemma runner_unique (l : list StopPc) (i : nat) (pc : StopPc) :
  count in_do l = 1%nat -> l !! i = Some pc -> in_do pc = true -> i = runner l.
Proof.
  revert i. induction l as [|z l IH]; intros [|i] H1 Hi Hpc; simplify_eq/=.
  - by rewrite Hpc.
  - destruct (in_do z) eqn:Hz.
    + pose proof (lookup_count_pos in_do _ _ _ Hi Hpc). lia.
    + f_equal. apply IH; done.
Qed.

Lemma runner_app (l l' : list StopPc) :
  (0 < count in_do l)%nat -> runner (l ++ l') = runner l.
Proof.
  induction l as [|z l IH]; simpl; [lia |].
  destruct (in_do z); [done |]. intros H. f_equal. apply IH. lia.
Qed.

(** With the once fresh every caller stands at line 73; with the once
    done every caller stands at line 73 or has returned nil. *)
Lemma caller_outside_do (w : World) (i : nat) (pc : StopPc) :
  StopInv w -> stopOnce (job w) <> OnceRunning -> stoppers w !! i = Some pc ->
  pc = SL73 \/ (pc = SReturned None /\ stopOnce (job w) = OnceDone).
Proof.
  intros S Ho Hi.
  pose proof (count_zero_lookup _ _ _ _ (si_panicked _ S) Hi) as H1.
  pose proof (count_zero_lookup _ _ _ _ (si_failed _ S) Hi) as H2.
  assert (count in_do (stoppers w) = 0%nat) as H3.
  { rewrite (si_in_do _ S). destruct (stopOnce (job w)); done. }
  pose proof (count_zero_lookup _ _ _ _ H3 Hi) as H4.
  destruct pc as [ | | |[e|]|p]; try done; [by left |]. right. split; [done |].
  destruct (stopOnce (job w)) eqn:Hon; try done.
  pose proof (count_zero_lookup _ _ _ _ (si_not_done _ S ltac:(congruence)) Hi). done.
Qed.

(** With the once running, the caller inside [Do] is at line 74 before the
    close and at line 75 after it. *)
Lemma runner_inside_do (w : World) :
  StopInv w -> stopOnce (job w) = OnceRunning ->
  stoppers w !! runner (stoppers w)
  = Some (if is_closed (stopCh (job w)) then SL75 else SL74).
Proof.
  intros S Ho. pose proof (si_in_do _ S) as H1. pose proof (si_past_close _ S) as H2.
  rewrite Ho in H1, H2. simpl in *.
  destruct (runner_lookup (stoppers w) ltac:(lia)) as (pc & Hl & Hpc).
  rewrite Hl. f_equal.
  destruct (is_closed (stopCh (job w))); simpl in *.
  - destruct (count_pos_lookup past_close (stoppers w) ltac:(lia)) as (k & x & Hk & Hx).
    assert (k = runner (stoppers w)) by (apply (runner_unique _ _ x); destruct x; done).
    subst k. rewrite Hl in Hk. assert (x = pc) as -> by congruence. by destruct pc.
  - pose proof (count_zero_lookup _ _ _ _ H2 Hl). by destruct pc.
Qed.

Lemma stop_step_progress (i : nat) (e : Event) (w : World) :
  StopInv w -> crashed w = false ->
  (i < length (stoppers w))%nat ->
  stop_returned_nil i w = false ->
  (stop_returned_nil i (step e w) = true \/
   (once_rank (step e w) < once_rank w)%nat \/
   (once_rank (step e w) = once_rank w /\ stop_next i (step e w) = stop_next i w)) /\
  (e = stop_next i w ->
   stop_returned_nil i (step e w) = true \/ (once_rank (step e w) < once_rank w)%nat).
Proof.
  intros S Hcr Hi Hg.
  destruct (lookup_lt_is_Some_2 _ _ Hi) as [pci Hpci].
  assert (forall e', (forall k, e' <> EvStopStep k) -> e' <> EvStopCall ->
     once_rank (step e' w) = once_rank w /\ stop_next i (step e' w) = stop_next i w) as Hframe.
  { intros e' H1 H2. destruct (step_stop_frame e' w H1 H2) as (Hs & Hc & Ho & _).
    unfold once_rank, stop_next. rewrite Hs, Hc, Ho. done. }
  destruct e as [ |c| |o| |k|err| ];
    try (split; [right; right; apply Hframe; done |];
         unfold stop_next; destruct (stopOnce (job w)); done).
  - (* a new caller *)
    unfold step. rewrite Hcr. split.
    + right. right. unfold once_rank, stop_next. simpl. split; [done |].
      destruct (stopOnce (job w)) eqn:Ho; try done.
      rewrite runner_app; [done |]. rewrite (si_in_do _ S), Ho. simpl. lia.
    + unfold stop_next. destruct (stopOnce (job w)); done.
  - (* a caller moves *)
    unfold step. rewrite Hcr. unfold step_stop.
    destruct (stoppers w !! k) as [pc|] eqn:Hk.
    2:{ split; [right; right; done |]. unfold stop_next. intros He.
        destruct (stopOnce (job w)) eqn:Ho; injection He as ->; try congruence.
        rewrite (runner_inside_do w S Ho) in Hk. done. }
    destruct (stopOnce (job w)) eqn:Ho.
    + (* fresh *)
      destruct (caller_outside_do w k pc S ltac:(congruence) Hk) as [-> | [_ ?]];
        [| congruence].
      split; [right; left | intros _; right];
        unfold once_rank; simpl; rewrite Ho; destruct (is_closed _); lia.
    + (* running *)
      pose proof (runner_inside_do w S Ho) as Hr.
      unfold stop_next. rewrite Ho.
      destruct pc.
      * (* blocked at line 73 *)
        split; [right; right; rewrite Ho; done |].
        intros He. injection He as ->. rewrite Hr in Hk. by destruct (is_closed _).
      * (* close *)
        assert (k = runner (stoppers w)) as -> by (by apply (runner_unique _ _ SL74);
          [rewrite (si_in_do _ S), Ho |..]).
        destruct (stopCh (job w)) eqn:Hc; simpl in Hr; [| rewrite Hk in Hr; done].
        split; [right; left | intros _; right];
          unfold once_rank; simpl; rewrite Ho, Hc; simpl; lia.
      * (* end of Do *)
        assert (k = runner (stoppers w)) as -> by (by apply (runner_unique _ _ SL75);
          [rewrite (si_in_do _ S), Ho |..]).
        destruct (stopCh (job w)) eqn:Hc; simpl in Hr; [rewrite Hk in Hr; done |].
        split; [right; left | intros _; right];
          unfold once_rank; simpl; rewrite Ho, Hc; simpl; lia.
      * pose proof (si_not_done _ S ltac:(congruence)) as Hn.
        pose proof (count_zero_lookup _ _ _ _ Hn Hk). done.
      * pose proof (count_zero_lookup _ _ _ _ (si_panicked _ S) Hk). done.
    + (* done *)
      unfold stop_next. rewrite Ho.
      destruct (caller_outside_do w k pc S ltac:(congruence) Hk) as [-> | [-> _]].
      * destruct (decide (k = i)) as [-> | Hne].
        -- split; [left | intros _; left]; unfold stop_returned_nil; simpl;
             rewrite list_lookup_insert_eq; done.
        -- split; [| congruence]. right. right.
           unfold once_rank, stop_next. simpl. rewrite Ho. done.
      * split; [right; right; rewrite Ho; done |].
        intros He. injection He as ->. unfold stop_returned_nil in Hg.
        rewrite Hk in Hg. done.
Qed.

Lemma step_stoppers_length (e : Event) (w : World) :
  (length (stoppers w) <= length (stoppers (step e w)))%nat.
Proof.
  unfold step. destruct (crashed w); [done |].
  destruct e as [ |c| |o| |k|err| ]; simpl.
  - unfold step_main, wg_done. destruct (main w); simpl; repeat case_match; simpl; lia.
  - unfold step_select. destruct (main w); simpl; try lia.
    destruct (ready c w); [| lia]. destruct c; simpl; lia.
  - unfold step_imm, wg_done. destruct (imm w); simpl; repeat case_match; simpl; lia.
  - unfold step_returns. destruct o; repeat case_match; simpl; lia.
  - rewrite length_app. simpl. lia.
  - unfold step_stop. repeat case_match; simpl; rewrite ?length_insert; lia.
  - unfold step_cancel. case_match; simpl; lia.
  - unfold step_elapse. case_match; simpl; lia.
Qed.

Lemma exec_stoppers_length (sch : nat -> Event) (w : World) (n m : nat) :
  (n <= m)%nat ->
  (length (stoppers (exec sch w n)) <= length (stoppers (exec sch w m)))%nat.
Proof.
  induction 1 as [|m Hm IH]; [done |]. simpl.
  pose proof (step_stoppers_length (sch m) (exec sch w m)). lia.
Qed.

(** In a process that does not die, under a fair schedule, every call of
    [Stop] returns nil. *)
Lemma stop_call_returns (sch : nat -> Event) (w0 : World) (n i : nat) :
  StopInv w0 ->
  (forall m, crashed (exec sch w0 m) = false) ->
  fair sch ->
  (i < length (stoppers (exec sch w0 n)))%nat ->
  exists m, (n <= m)%nat /\ stoppers (exec sch w0 m) !! i = Some (SReturned None).
Proof.
  intros S Hcr Hfair Hi.
  destruct (fair_progress sch w0 once_rank (stop_next i) (stop_returned_nil i) n)
    as (m & Hm & Hg).
  - intros m Hm Hg. simpl.
    apply stop_step_progress; auto using exec_StopInv.
    pose proof (exec_stoppers_length sch w0 n m Hm). lia.
  - intros m Hm Hg He. simpl.
    apply stop_step_progress; auto using exec_StopInv.
    pose proof (exec_stoppers_length sch w0 n m Hm). lia.
  - intros m Hm Hg k. apply Hfair. unfold stop_next. by destruct (stopOnce _).
  - exists m. split; [done |]. unfold stop_returned_nil in Hg.
    destruct (stoppers (exec sch w0 m) !! i) as [[ | | |[e|]|p]|]; done.
Qed.

(** ** [Start] returns *)

Lemma step_asked_to_end (e : Event) (w : World) :
  asked_to_end w = true -> asked_to_end (step e w) = true.
Proof.
  unfold step. destruct (crashed w); [done |].
  unfold asked_to_end, ready.
  destruct w as [[nm lg iv ch on ei fn g] ce tk m im sts tr].
  destruct e as [ |c| |o| |k|err| ]; simpl.
  - unfold step_main, wg_done. destruct m; simpl; repeat case_match; simplify_eq/=; done.
  - unfold step_select, ready. destruct m; simpl; try done.
    destruct c; simpl; repeat case_match; simplify_eq/=; done.
  - unfold step_imm, wg_done. destruct im; simpl; repeat case_match; simplify_eq/=; done.
  - unfold step_returns. destruct o; simpl; repeat case_match; simplify_eq/=; done.
  - done.
  - unfold step_stop; simpl. repeat case_match; simplify_eq/=; done.
  - unfold step_cancel; simpl. repeat case_match; simplify_eq/=; done.
  - unfold step_elapse; simpl. repeat case_match; simplify_eq/=; done.
Qed.

Lemma exec_asked_to_end (sch : nat -> Event) (w : World) (n m : nat) :
  (n <= m)%nat -> asked_to_end (exec sch w n) = true -> asked_to_end (exec sch w m) = true.
Proof. induction 1; simpl; auto using step_asked_to_end. Qed.

Ltac exit_goal :=
  split;
  [ first [ by left | right; left; lia | right; right; split; [lia | done] ]
  | intros ?; first [ discriminate | by left | right; lia ] ].

(** Events that leave [Start], its goroutine and the context alone change
    nothing of the way to the exit. *)
Lemma exit_frame (w w' : World) :
  main w' = main w -> imm w' = imm w -> ctxErr w' = ctxErr w ->
  exit_rank w' = exit_rank w /\ exit_next w' = exit_next w.
Proof. intros Hm Hi Hc. unfold exit_rank, exit_next. rewrite Hm, Hi, Hc. done. Qed.

Lemma exit_next_thread (w : World) :
  exit_next w = EvMain \/ exit_next w = EvSelect CaseCtx \/
  exit_next w = EvSelect CaseStop \/ exit_next w = EvImm \/
  (exists o, exit_next w = EvReturns o).
Proof.
  unfold exit_next. destruct (main w); auto; repeat case_match; eauto 6.
Qed.

Lemma exit_step_progress (j0 : TickerJob) (e : Event) (w : World) :
  StartInv j0 w -> crashed w = false ->
  0 < interval j0 -> is_Some (executeFn j0) ->
  asked_to_end w = true ->
  prefers_tick w e = false ->
  returned w = false ->
  (returned (step e w) = true \/
   (exit_rank (step e w) < exit_rank w)%nat \/
   (exit_rank (step e w) = exit_rank w /\ exit_next (step e w) = exit_next w)) /\
  (e = exit_next w ->
   returned (step e w) = true \/ (exit_rank (step e w) < exit_rank w)%nat).
Proof.
  intros I Hcr Hiv [f Hfn] Hask Hpt Hret.
  assert (forall e', step e' w = step e w ->
            main (step e' w) = main w -> imm (step e' w) = imm w ->
            ctxErr (step e' w) = ctxErr w ->
            e' <> exit_next w ->
            (returned (step e' w) = true \/
             (exit_rank (step e' w) < exit_rank w)%nat \/
             (exit_rank (step e' w) = exit_rank w /\
              exit_next (step e' w) = exit_next w)) /\
            (e' = exit_next w ->
             returned (step e' w) = true \/ (exit_rank (step e' w) < exit_rank w)%nat))
    as Hframe.
  { intros e' _ Hm Hi Hc Hne. split; [| done]. right. right. by apply exit_frame. }
  assert (forall e',
            match e' with
            | EvStopCall | EvStopStep _ | EvCancel _ | EvElapse => True
            | _ => False
            end -> e' <> exit_next w) as Hne.
  { intros e' He' ->.
    destruct (exit_next_thread w) as [H | [H | [H | [H | [o H]]]]];
      rewrite H in He'; done. }
  destruct e as [ |c| |o| |k|err| ].
  5:{ apply Hframe; [done | | | | by apply Hne]; unfold step; rewrite Hcr; done. }
  5:{ apply Hframe; [done | | | | by apply Hne]; unfold step; rewrite Hcr;
      unfold step_stop; repeat case_match; done. }
  6:{ apply Hframe; [done | | | | by apply Hne]; unfold step; rewrite Hcr;
      unfold step_elapse; repeat case_match; done. }
  all: clear Hframe.
  all: unfold step; rewrite Hcr.
  all: destruct I as [I1 I2 I3 _ _ _ _ _ _ _ _ _ _ _ _ _ I16].
  all: destruct w as [[nm lg iv ch on ei fn g] ce tk m im sts tr].
  all: unfold crashed in Hcr; simpl in Hcr.
  all: apply orb_false_elim in Hcr as [Hcr _]; apply orb_false_elim in Hcr as [Hm Him].
  all: unfold same_config in I1; simpl in I1; destruct I1 as (_ & _ & Hi & _ & Hf).
  all: unfold asked_to_end, prefers_tick, ready, returned, exit_rank, exit_next in *.
  all: simpl in *; subst iv; rewrite Hfn in Hf; subst fn; clear Hne.
  - (* EvMain *)
    unfold step_main, wg_done; simpl.
    destruct m; simpl in *; try done.
    all: destruct im; simpl in *; use_refl; simplify_eq/=.
    all: repeat case_match; simplify_eq/=; try lia.
    all: exit_goal.
  - (* EvSelect *)
    unfold step_select; simpl.
    destruct m; simpl in *; try done.
    all: try (split; [right; right; done | intros ?; destruct im; discriminate]).
    clear I2 I3 I16.
    destruct c, ce, ch; simpl in *; try done.
    all: try (destruct tk as [|[|]|]; simpl in *; try done).
    all: exit_goal.
  - (* EvImm *)
    unfold step_imm, wg_done; simpl.
    destruct im; simpl in *; try done.
    all: destruct m; simpl in *; use_refl; simplify_eq/=.
    all: repeat case_match; simplify_eq/=; try lia.
    all: exit_goal.
  - (* EvReturns *)
    unfold step_returns; simpl. clear I2 I3 I16.
    destruct o, im, m, ce; simpl in *; try done.
    all: exit_goal.
  - (* EvCancel *)
    unfold step_cancel; simpl. clear I2 I3 I16.
    destruct ce; simpl.
    + split; [right; right; done |]. destruct m; repeat case_match; done.
    + split; [right; left; lia |]. destruct m; repeat case_match; done.
Qed.

(** Once asked to end, [Start] returns: under a fair schedule whose
    [select] does not prefer the tick for ever, for a job with a positive
    interval and an action. *)
Lemma start_returns (j : TickerJob) (sch : nat -> Event) (n0 : nat) :
  fresh j -> 0 < interval j -> is_Some (executeFn j) ->
  fair sch -> select_fair sch (init j) ->
  asked_to_end (exec sch (init j) n0) = true ->
  exists m, (n0 <= m)%nat /\ returned (exec sch (init j) m) = true.
Proof.
  intros Hf Hiv Hfn Hfair [N HN] Hask.
  assert (forall m, crashed (exec sch (init j) m) = false) as Hcr.
  { intros m. apply (no_crash j); [| | done | done].
    - by apply exec_StartInv, init_StartInv.
    - destruct Hf as (? & ? & ?). by apply exec_StopInv, init_StopInv. }
  destruct (fair_progress sch (init j) exit_rank exit_next returned (Nat.max n0 N))
    as (m & Hm & Hg).
  - intros m Hm Hg.
    apply (exit_step_progress j); auto.
    + by apply exec_StartInv, init_StartInv.
    + apply (exec_asked_to_end sch (init j) n0); [lia | done].
    + apply HN. lia.
  - intros m Hm Hg.
    apply (exit_step_progress j); auto.
    + by apply exec_StartInv, init_StartInv.
    + apply (exec_asked_to_end sch (init j) n0); [lia | done].
    + apply HN. lia.
  - intros m Hm Hg k. apply Hfair.
    destruct (exit_next_thread (exec sch (init j) m)) as [H | [H | [H | [H | [o H]]]]];
      rewrite H; done.
  - exists m. split; [lia | done].
Qed.

(** A call of [Stop] that has returned has left the channel closed. *)
Lemma returned_stop_closed (w : World) (i : nat) (r : option error) :
  StopInv w -> stoppers w !! i = Some (SReturned r) ->
  r = None /\ stopCh (job w) = ChClosed /\ closes w = 1%nat.
Proof.
  intros S Hi.
  assert (stopOnce (job w) = OnceDone) as Ho.
  { destruct (stopOnce (job w)) eqn:Ho; [| | done].
    - pose proof (count_zero_lookup _ _ _ _ (si_not_done _ S ltac:(congruence)) Hi). done.
    - pose proof (count_zero_lookup _ _ _ _ (si_not_done _ S ltac:(congruence)) Hi). done. }
  pose proof (si_done _ S Ho) as Hc. pose proof (si_closes _ S) as Hn.
  rewrite Hc in Hn. split; [| done].
  pose proof (count_zero_lookup _ _ _ _ (si_failed _ S) Hi). by destruct r.
Qed.

(** C1. When [Start] has returned, every invocation of the action it
    launched is over: the immediate execution, when one was launched, and
    every invocation made by the loop have ended, and the wait group is
    empty.  And [Start] does return once [Stop] has been called or the
    context is done: for a job with a positive interval and an action,
    under every fair schedule whose [select] does not prefer the tick for
    ever. *)
Theorem Start_returns_after_joining (j : TickerJob) :
  fresh j ->
  (forall (es : list Event) (r : option error),
     main (run es (init j)) = MReturned r ->
     executing_all (run es (init j)) = 0%nat /\
     ended Immediate (run es (init j)) = launched (run es (init j)) /\
     ended Ticked (run es (init j)) = begun Ticked (run es (init j)) /\
     wg (job (run es (init j))) = 0) /\
  (0 < interval j -> is_Some (executeFn j) ->
   forall (sch : nat -> Event) (n0 : nat),
     fair sch -> select_fair sch (init j) ->
     stoppers (exec sch (init j) n0) <> [] \/ ctxErr (exec sch (init j) n0) <> None ->
     exists m r, (n0 <= m)%nat /\ main (exec sch (init j) m) = MReturned r).
Proof.
  intros Hf. split.
  - intros es r Hr. pose proof (reachable_StartInv j es Hf) as I.
    destruct (st_returned _ _ I r Hr) as (Hw & Hp & Hh).
    unfold executing_all, executing.
    rewrite (st_begun_imm _ _ I), (st_ended_imm _ _ I), (st_begun_tick _ _ I),
      (st_launched _ _ I).
    rewrite Hr in *. simpl in *.
    destruct (imm (run es (init j))); simpl in *; try done; lia.
  - intros Hiv Hfn sch n0 Hfair Hsel Hreq.
    assert (forall m, StopInv (exec sch (init j) m)) as HS.
    { intros m. destruct Hf as (? & ? & ?). by apply exec_StopInv, init_StopInv. }
    assert (forall m, crashed (exec sch (init j) m) = false) as Hcr.
    { intros m. apply (no_crash j); [| done | done | done].
      by apply exec_StartInv, init_StartInv. }
    assert (exists n1, (n0 <= n1)%nat /\ asked_to_end (exec sch (init j) n1) = true)
      as (n1 & Hn1 & Hask).
    { destruct Hreq as [Hst | Hctx].
      - destruct (stop_call_returns sch (init j) n0 0) as (m & Hm & Hret); auto.
        { destruct Hf as (? & ? & ?). by apply init_StopInv. }
        { destruct (stoppers (exec sch (init j) n0)); [done | simpl; lia]. }
        exists m. split; [done |].
        destruct (returned_stop_closed _ _ _ (HS m) Hret) as (_ & Hc & _).
        unfold asked_to_end, ready. rewrite Hc. done.
      - exists n0. split; [done |]. unfold asked_to_end, ready.
        destruct (ctxErr (exec sch (init j) n0)); [| done]. apply orb_true_r. }
    destruct (start_returns j sch n1 Hf Hiv Hfn Hfair Hsel Hask) as (m & Hm & Hret).
    unfold returned in Hret.
    destruct (main (exec sch (init j) m)) eqn:Hmain; try done.
    exists m, r. split; [lia | done].
Qed.


(** ** [Stop] before [Start] *)

(** A step of a caller of [Stop] touches nothing of [Start]. *)
Lemma stop_event_frame (e : Event) (w : World) :
  is_stop_event e = true ->
  main (step e w) = main w /\ imm (step e w) = imm w /\
  ticker (step e w) = ticker w /\ ctxErr (step e w) = ctxErr w /\
  wg (job (step e w)) = wg (job w) /\
  (forall p, p ObsClose = false -> count p (trace (step e w)) = count p (trace w)).
Proof.
  intros He. unfold step. destruct (crashed w); [done |].
  destruct e as [ |c| |o| |k|err| ]; try done.
  unfold step_stop. repeat case_match; simpl; repeat split; try done.
  intros p Hp. rewrite Hp. done.
Qed.

Lemma stop_events_frame (es : list Event) (w : World) :
  forallb is_stop_event es = true ->
  main (run es w) = main w /\ imm (run es w) = imm w /\
  ticker (run es w) = ticker w /\ ctxErr (run es w) = ctxErr w /\
  wg (job (run es w)) = wg (job w) /\
  (forall p, p ObsClose = false -> count p (trace (run es w)) = count p (trace w)).
Proof.
  revert w. induction es as [|e es IH]; intros w H; simpl in *; [done |].
  apply andb_prop in H as [He Hes].
  destruct (IH (step e w) Hes) as (-> & -> & -> & -> & -> & Hp).
  destruct (stop_event_frame e w He) as (-> & -> & -> & -> & -> & Hp').
  repeat split. intros p H. rewrite Hp, Hp'; done.
Qed.




(** ** The fair schedule [demo] *)

Lemma round_robin_slot (c q : nat) :
  (c < 8)%nat ->
  round_robin (c + q * 8) =
  match c with
  | 0 => EvMain
  | 1 => EvSelect CaseCtx
  | 2 => EvSelect CaseStop
  | 3 => EvImm
  | 4 => EvReturns Immediate
  | 5 => EvReturns Ticked
  | 6 => EvStopStep (stop_turn q)
  | _ => EvElapse
  end%nat.
Proof.
  intros Hc. unfold round_robin.
  rewrite Nat.Div0.mod_add, Nat.div_add, (Nat.mod_small c 8), (Nat.div_small c 8) by lia.
  done.
Qed.

Lemma demo_after_prefix (k : nat) : demo (10 + k) = round_robin k.
Proof.
  unfold demo. rewrite (lookup_ge_None_2 demo_prefix (10 + k)) by (simpl; lia).
  simpl length. f_equal. lia.
Qed.

Lemma stop_turn_comes (i n : nat) :
  exists q, (n <= q)%nat /\ stop_turn q = i.
Proof.
  exists ((i + n + 1) * (i + n + 1) + i)%nat. split; [nia |].
  unfold stop_turn. rewrite (Nat.sqrt_unique _ (i + n + 1)) by nia. lia.
Qed.

Lemma demo_fair : fair demo.
Proof.
  intros e He n.
  assert (forall c q, (c < 8)%nat -> (n <= q)%nat ->
            exists k, (n <= k)%nat /\ demo k = round_robin (c + q * 8)) as Hslot.
  { intros c q Hc Hq. exists (10 + (c + q * 8))%nat. split; [lia |].
    apply demo_after_prefix. }
  destruct e as [ |[| |]| |[|]| |i|err| ]; try done.
  - destruct (Hslot 0%nat n) as (k & ? & Hk); [lia | lia |].
    rewrite round_robin_slot in Hk by lia. eauto.
  - destruct (Hslot 1%nat n) as (k & ? & Hk); [lia | lia |].
    rewrite round_robin_slot in Hk by lia. eauto.
  - destruct (Hslot 2%nat n) as (k & ? & Hk); [lia | lia |].
    rewrite round_robin_slot in Hk by lia. eauto.
  - destruct (Hslot 3%nat n) as (k & ? & Hk); [lia | lia |].
    rewrite round_robin_slot in Hk by lia. eauto.
  - destruct (Hslot 4%nat n) as (k & ? & Hk); [lia | lia |].
    rewrite round_robin_slot in Hk by lia. eauto.
  - destruct (Hslot 5%nat n) as (k & ? & Hk); [lia | lia |].
    rewrite round_robin_slot in Hk by lia. eauto.
  - destruct (stop_turn_comes i n) as (q & Hq & Hturn).
    destruct (Hslot 6%nat q) as (k & ? & Hk); [lia | done |].
    rewrite round_robin_slot, Hturn in Hk by lia. eauto.
Qed.

Lemma demo_select_fair (w : World) : select_fair demo w.
Proof.
  exists 10%nat. intros m Hm.
  replace m with (10 + (m - 10))%nat by lia. rewrite demo_after_prefix.
  unfold prefers_tick, round_robin.
  destruct ((m - 10) mod 8)%nat as [|[|[|[|[|[|[|]]]]]]]; done.
Qed.


(** ** A job that cannot start *)

Lemma stop_first_fair : fair stop_first.
Proof.
  intros e He n.
  assert (forall c q, (c < 8)%nat -> (n <= q)%nat ->
            exists k, (n <= k)%nat /\ stop_first k = round_robin (c + q * 8)) as Hslot.
  { intros c q Hc Hq. exists (S (c + q * 8)). split; [lia | done]. }
  destruct e as [ |[| |]| |[|]| |i|err| ]; try done.
  - destruct (Hslot 0%nat n) as (k & ? & Hk); [lia | lia |].
    rewrite round_robin_slot in Hk by lia. eauto.
  - destruct (Hslot 1%nat n) as (k & ? & Hk); [lia | lia |].
    rewrite round_robin_slot in Hk by lia. eauto.
  - destruct (Hslot 2%nat n) as (k & ? & Hk); [lia | lia |].
    rewrite round_robin_slot in Hk by lia. eauto.
  - destruct (Hslot 3%nat n) as (k & ? & Hk); [lia | lia |].
    rewrite round_robin_slot in Hk by lia. eauto.
  - destruct (Hslot 4%nat n) as (k & ? & Hk); [lia | lia |].
    rewrite round_robin_slot in Hk by lia. eauto.
  - destruct (Hslot 5%nat n) as (k & ? & Hk); [lia | lia |].
    rewrite round_robin_slot in Hk by lia. eauto.
  - destruct (stop_turn_comes i n) as (q & Hq & Hturn).
    destruct (Hslot 6%nat q) as (k & ? & Hk); [lia | done |].
    rewrite round_robin_slot, Hturn in Hk by lia. eauto.
Qed.

Lemma stop_first_select_fair (w : World) : select_fair stop_first w.
Proof.
  exists 1%nat. intros m Hm. destruct m as [|m]; [lia |].
  unfold prefers_tick, stop_first, round_robin.
  destruct (m mod 8)%nat as [|[|[|[|[|[|[|]]]]]]]; done.
Qed.

(** C1 in the wording of the specification, for every job, does not hold:
    the job [broken], whose interval is not positive, is made by
    [newTickerJob] like any other; [Stop] is called on it, the schedule is
    fair, and [Start] never returns. *)
Lemma Start_of_a_broken_job_never_returns :
  fresh broken /\
  fair stop_first /\ select_fair stop_first (init broken) /\
  stoppers (exec stop_first (init broken) 1) <> [] /\
  (forall m r, main (exec stop_first (init broken) m) <> MReturned r) /\
  ~ (forall (j : TickerJob) (sch : nat -> Event) (n0 : nat),
       fresh j -> fair sch -> select_fair sch (init j) ->
       stoppers (exec sch (init j) n0) <> [] \/ ctxErr (exec sch (init j) n0) <> None ->
       exists m r, (n0 <= m)%nat /\ main (exec sch (init j) m) = MReturned r).
Proof.
  assert (forall m r, main (exec stop_first (init broken) m) <> MReturned r) as Hnever.
  { intros m r. rewrite exec_run.
    by apply no_return_without_interval; [apply newTickerJob_fresh |]. }
  split; [apply newTickerJob_fresh |].
  split; [apply stop_first_fair |].
  split; [apply stop_first_select_fair |].
  split; [done |].
  split; [exact Hnever |].
  intros H.
  destruct (H broken stop_first 1%nat (newTickerJob_fresh _ _ _ _ _) stop_first_fair
              (stop_first_select_fair _) ltac:(by left)) as (m & r & _ & Hr).
  exact (Hnever m r Hr).
Qed.

(** ** The theorems at work *)

Lemma Start_returns_after_joining_witness :
  exists m r, (10 <= m)%nat /\ main (exec demo (init (hourly true)) m) = MReturned r.
Proof.
  apply (Start_returns_after_joining (hourly true) (newTickerJob_fresh _ _ _ _ _)).
  - done.
  - by eexists.
  - apply demo_fair.
  - apply demo_select_fair.
  - left. vm_compute. done.
Defined.

Lemma invocations_of_one_call_site_never_overlap_witness :
  (executing Ticked (run overlapping (init (hourly true))) <= 1)%nat /\
  (executing Immediate (run overlapping (init (hourly true))) <= 1)%nat /\
  (executeImmediate (hourly true) = false ->
   (executing_all (run overlapping (init (hourly true))) <= 1)%nat).
Proof.
  apply (invocations_of_one_call_site_never_overlap (hourly true) overlapping).
  apply newTickerJob_fresh.
Defined.

Lemma Start_result_tells_the_cause_witness :
  (Some Canceled = None <->
   last_select (trace (run cancelled_run (init (hourly false)))) = Some CaseStop) /\
  ((exists e, Some Canceled = Some e /\
              ctxErr (run cancelled_run (init (hourly false))) = Some e)
     <-> last_select (trace (run cancelled_run (init (hourly false)))) = Some CaseCtx) /\
  (Some Canceled = None \/
   Some Canceled = ctxErr (run cancelled_run (init (hourly false)))).
Proof.
  apply (Start_result_tells_the_cause (hourly false) cancelled_run (Some Canceled)).
  - apply newTickerJob_fresh.
  - vm_compute. reflexivity.
Defined.


Lemma invocations_before_the_first_interval_witness :
  begun Ticked (run [EvMain; EvMain; EvMain] (init (hourly true))) = 0%nat /\
  launched (run [EvMain; EvMain; EvMain] (init (hourly true))) = 1%nat /\
  begun Immediate (step EvImm (run [EvMain; EvMain; EvMain] (init (hourly true)))) = 1%nat.
Proof.
  destruct (invocations_before_the_first_interval (hourly true) [EvMain; EvMain; EvMain])
    as (H1 & H2 & _ & _ & H5).
  - apply newTickerJob_fresh.
  - vm_compute. reflexivity.
  - split; [exact H1 |]. split; [exact H2 |]. apply H5.
    + vm_compute. reflexivity.
    + vm_compute. reflexivity.
    + by eexists.
Defined.

Lemma ticked_invocations_run_inside_the_loop_witness :
  executing Ticked (run overlapping (init (hourly true))) = 1%nat /\
  (begun Ticked (run [EvReturns Ticked; EvMain; EvSelect CaseTick; EvMain; EvMain;
                      EvReturns Ticked; EvMain; EvSelect CaseTick; EvMain; EvMain]
                   (run (repeat EvElapse 5) (run overlapping (init (hourly true)))))
   <= begun Ticked (run overlapping (init (hourly true))) + 1)%nat.
Proof.
  destruct (ticked_invocations_run_inside_the_loop (hourly true) overlapping) as [H1 H2].
  - apply newTickerJob_fresh.
  - split; [exact H1 |]. apply H2; [vm_compute; reflexivity | reflexivity].
Defined.


Lemma Start_panics_without_positive_interval_witness :
  main (run start_to_ticker (init broken)) = MPanicked PanicNonPositiveInterval /\
  launched (run start_to_ticker (init broken)) = 1%nat.
Proof.
  destruct (Start_panics_without_positive_interval broken (newTickerJob_fresh _ _ _ _ _))
    as (_ & _ & H3 & H4); [done |].
  split; [exact H3 | exact H4].
Defined.


(** ** More of [Start] and [Stop] *)

Lemma step_log_lines (j0 : TickerJob) (e : Event) (w : World) :
  StartInv j0 w ->
  log_lines (trace w) = log_at (main w) (name (job w)) (interval (job w)) ->
  log_lines (trace (step e w))
  = log_at (main (step e w)) (name (job (step e w))) (interval (job (step e w))).
Proof.
  intros I H. pose proof (st_cause _ _ I) as Hc. clear I.
  unfold step. destruct (crashed w); [done |].
  unfold cause_at in Hc.
  destruct w as [[nm lg iv ch on ei fn g] ce tk m im sts tr]. simpl in *.
  destruct e as [ |c| |o| |i|err| ]; simpl.
  - unfold step_main, wg_done; simpl.
    destruct m; simpl in *; repeat case_match; simplify_eq/=;
      rewrite ?H; try done.
    destruct Hc as [_ Hc]. by destruct ce.
  - unfold step_select, ready; simpl.
    destruct m; simpl in *; try done.
    destruct c; simpl; repeat case_match; simplify_eq/=; rewrite ?H; done.
  - unfold step_imm, wg_done; simpl.
    destruct im; simpl; repeat case_match; simplify_eq/=; done.
  - unfold step_returns; simpl.
    destruct o; [destruct im | destruct m]; simpl in *; done.
  - done.
  - unfold step_stop; simpl. repeat case_match; simplify_eq/=; done.
  - unfold step_cancel; simpl. destruct ce; simpl; [done |].
    destruct m; simpl in *; try done.
  - unfold step_elapse; simpl. destruct tk; done.
Qed.

Lemma run_log_lines (j : TickerJob) (es : list Event) :
  fresh j ->
  log_lines (trace (run es (init j)))
  = log_at (main (run es (init j))) (name (job (run es (init j))))
      (interval (job (run es (init j)))).
Proof.
  intros Hf. induction es as [|e es IH] using rev_ind; [done |].
  rewrite run_snoc. apply (step_log_lines j); [by apply reachable_StartInv | done].
Qed.

(** X1. What [Start] logs: nothing before line 38, the line of line 38
    from then on, and one more line when the loop is left, which is the
    line of line 58 when the stop channel ended the loop and the line of
    line 54 when the context did.  So a [Start] that has returned has
    logged two lines, the second of which tells nil from the error of the
    context. *)
Theorem Start_logs_start_and_cause (j : TickerJob) (es : list Event) :
  fresh j ->
  log_lines (trace (run es (init j)))
  = log_at (main (run es (init j))) (name j) (interval j) /\
  (forall r, main (run es (init j)) = MReturned r ->
     rev (log_lines (trace (run es (init j))))
     = [LogStarted (name j) (interval j);
        match r with
        | None => LogStopped (name j)
        | Some _ => LogStoppedByContext (name j)
        end]).
Proof.
  intros Hf. pose proof (run_log_lines j es Hf) as H.
  destruct (st_config _ _ (reachable_StartInv j es Hf)) as (Hn & _ & Hi & _).
  rewrite Hn, Hi in H. split; [done |].
  intros r Hr. rewrite H, Hr. by destruct r.
Qed.

(** Once [Start] has returned and its goroutine is at rest nothing of
    them moves. *)
Lemma step_after_return (e : Event) (w : World) (r : option error) :
  main w = MReturned r -> imm_at_rest (imm w) = true -> ticker w = Stopped ->
  main (step e w) = MReturned r /\ imm (step e w) = imm w /\
  ticker (step e w) = Stopped /\ wg (job (step e w)) = wg (job w) /\
  (forall p, p ObsClose = false -> count p (trace (step e w)) = count p (trace w)).
Proof.
  intros Hm Hi Ht. unfold step. destruct (crashed w); [done |].
  destruct e as [ |c| |o| |i|err| ]; simpl.
  - unfold step_main. rewrite Hm. done.
  - unfold step_select. rewrite Hm. done.
  - unfold step_imm. destruct (imm w) eqn:E; simpl in Hi; done.
  - unfold step_returns. rewrite Hm. destruct o; [| done].
    destruct (imm w) eqn:E; simpl in Hi; done.
  - done.
  - unfold step_stop. repeat case_match; simpl; repeat split; try done.
    intros p Hp. by rewrite Hp.
  - unfold step_cancel. destruct (ctxErr w); done.
  - unfold step_elapse. rewrite Ht. done.
Qed.

Lemma run_after_return (es : list Event) (w : World) (r : option error) :
  main w = MReturned r -> imm_at_rest (imm w) = true -> ticker w = Stopped ->
  main (run es w) = MReturned r /\ imm (run es w) = imm w /\
  ticker (run es w) = Stopped /\ wg (job (run es w)) = wg (job w) /\
  (forall p, p ObsClose = false -> count p (trace (run es w)) = count p (trace w)).
Proof.
  revert w. induction es as [|e es IH]; intros w Hm Hi Ht; [done |]. simpl.
  destruct (step_after_return e w r Hm Hi Ht) as (Hm' & Hi' & Ht' & Hw' & Hp').
  destruct (IH (step e w) Hm' ltac:(by rewrite Hi') Ht') as (? & ? & ? & ? & Hp).
  repeat split; try congruence. intros p Hcl. rewrite Hp, Hp'; done.
Qed.

(** X2. A [Start] that has returned stays returned with the same result,
    whatever happens afterwards: further calls of [Stop], the context
    being cancelled, time passing.  Line 49 has stopped the ticker, so no
    interval elapses for the job any more, the wait group stays empty, and
    the action is never entered or left again. *)
Theorem Start_stays_returned (j : TickerJob) (es es' : list Event) (r : option error) :
  fresh j ->
  main (run es (init j)) = MReturned r ->
  main (run (es ++ es') (init j)) = MReturned r /\
  ticker (run (es ++ es') (init j)) = Stopped /\
  wg (job (run (es ++ es') (init j))) = 0 /\
  elapsed (run (es ++ es') (init j)) = elapsed (run es (init j)) /\
  (forall o, begun o (run (es ++ es') (init j)) = begun o (run es (init j)) /\
             ended o (run (es ++ es') (init j)) = ended o (run es (init j))).
Proof.
  intros Hf Hr. pose proof (reachable_StartInv j es Hf) as I.
  destruct (st_returned _ _ I r Hr) as (Hw & Hp & Hh).
  pose proof (st_ticker _ _ I) as Ht. unfold ticker_at in Ht. rewrite Hr in Ht.
  assert (imm_at_rest (imm (run es (init j))) = true) as Hi.
  { rewrite Hr in Hh. destruct (imm (run es (init j))); done. }
  rewrite run_app.
  destruct (run_after_return es' _ r Hr Hi Ht) as (Hm' & _ & Ht' & Hw' & Hc).
  split; [done |]. split; [done |]. split; [congruence |].
  unfold elapsed, begun, ended. split; [by apply Hc |].
  intros o. split; apply Hc; by destruct o.
Qed.

(** X3. The action is invoked at most once for every interval that has
    elapsed, and once more when the job executes immediately: the
    immediate execution is launched at most once, and only with the flag;
    the invocations of the loop, a tick it has taken and a tick that waits
    add up to no more than the intervals elapsed. *)
Theorem invocations_are_bounded (j : TickerJob) (es : list Event) :
  fresh j ->
  (begun Immediate (run es (init j)) <= launched (run es (init j)))%nat /\
  (launched (run es (init j)) <= b2n (executeImmediate j))%nat /\
  (begun Ticked (run es (init j)) + tick_taken (main (run es (init j)))
     + pending (ticker (run es (init j))) <= elapsed (run es (init j)))%nat /\
  (begun Immediate (run es (init j)) + begun Ticked (run es (init j))
     <= elapsed (run es (init j)) + b2n (executeImmediate j))%nat.
Proof.
  intros Hf. pose proof (reachable_StartInv j es Hf) as I.
  set (w := run es (init j)) in *.
  destruct (st_config _ _ I) as (_ & _ & _ & Hei & _).
  pose proof (st_credit _ _ I). pose proof (st_delivered _ _ I).
  assert (begun Immediate w <= launched w)%nat.
  { rewrite (st_launched _ _ I), (st_begun_imm _ _ I). destruct (imm w); simpl; lia. }
  assert (launched w <= b2n (executeImmediate j))%nat.
  { rewrite (st_launched _ _ I), <- Hei.
    destruct (before_launch (main w)) eqn:Hb.
    - rewrite (st_before _ _ I Hb). simpl. lia.
    - rewrite (st_after _ _ I Hb). lia. }
  repeat split; lia.
Qed.

(** One tick taken by a loop that waits in its [select]. *)
Lemma one_tick_round (j0 : TickerJob) (w : World) :
  StartInv j0 w -> StopInv w -> is_Some (executeFn j0) ->
  main w = ML52 -> ticker w = Running false ->
  main (run one_tick w) = ML52 /\ ticker (run one_tick w) = Running false /\
  begun Ticked (run one_tick w) = S (begun Ticked w) /\
  ended Ticked (run one_tick w) = S (ended Ticked w) /\
  elapsed (run one_tick w) = S (elapsed w).
Proof.
  intros I S [f Hfn] Hm Ht.
  pose proof (existsb_count _ _ (si_panicked _ S)) as Hex.
  destruct (st_config _ _ I) as (_ & _ & _ & _ & Hf). rewrite Hfn in Hf.
  pose proof (st_wg _ _ I) as Hw. rewrite Hm in Hw.
  pose proof (st_imm_panic _ _ I) as Hp.
  unfold begun, ended, elapsed. clear I S.
  destruct w as [[nm lg iv ch on ei fn g] ce tk m im sts tr]. simpl in * |-. subst.
  unfold run, one_tick, fold_left.
  destruct im; try (destruct (Hp _ eq_refl); congruence);
    specialize (Hw eq_refl eq_refl); simpl in Hw; subst g;
    do 6 (eval_step Hex Hex); simpl; done.
Qed.

(** X4. A loop that keeps up with its ticker invokes the action once per
    interval: from its [select], with no tick waiting and a non-nil action,
    [k] ticks that the loop takes one after the other bring it back to its
    [select] after exactly [k] more invocations, each of them ended. *)
Theorem one_invocation_per_tick (j : TickerJob) (es : list Event) (k : nat) :
  fresh j -> is_Some (executeFn j) ->
  main (run es (init j)) = ML52 -> ticker (run es (init j)) = Running false ->
  main (run (es ++ ticks k) (init j)) = ML52 /\
  begun Ticked (run (es ++ ticks k) (init j)) = (begun Ticked (run es (init j)) + k)%nat /\
  ended Ticked (run (es ++ ticks k) (init j)) = (ended Ticked (run es (init j)) + k)%nat /\
  elapsed (run (es ++ ticks k) (init j)) = (elapsed (run es (init j)) + k)%nat.
Proof.
  intros Hf Hfn. revert es. induction k as [|k IH]; intros es Hm Ht.
  - unfold ticks. simpl. rewrite app_nil_r. repeat split; [done | lia..].
  - destruct (one_tick_round j (run es (init j))) as (Hm1 & Ht1 & Hb1 & He1 & Hl1);
      [by apply reachable_StartInv | by apply reachable_StopInv | done..|].
    rewrite <- run_app in Hm1, Ht1, Hb1, He1, Hl1.
    destruct (IH (es ++ one_tick) Hm1 Ht1) as (Hm2 & Hb2 & He2 & Hl2).
    change (ticks (S k)) with (one_tick ++ ticks k). rewrite app_assoc.
    rewrite Hb2, He2, Hl2, Hb1, He1, Hl1. repeat split; [done | lia..].
Qed.

(** With a nil action the action is never entered. *)
Lemma step_nil_action (e : Event) (w : World) :
  executeFn (job w) = None ->
  (begun Immediate w = 0%nat /\ begun Ticked w = 0%nat /\
   main w <> MInFn /\ imm w <> IInFn) ->
  executeFn (job (step e w)) = None /\
  begun Immediate (step e w) = 0%nat /\ begun Ticked (step e w) = 0%nat /\
  main (step e w) <> MInFn /\ imm (step e w) <> IInFn.
Proof.
  intros Hfn (Hbi & Hbt & Hm & Hi). unfold step. destruct (crashed w); [done |].
  unfold begun in *.
  destruct w as [[nm lg iv ch on ei fn g] ce tk m im sts tr]. simpl in *. subst fn.
  destruct e as [ |c| |o| |i|err| ]; simpl.
  - unfold step_main, wg_done; simpl.
    destruct m; simpl; repeat case_match; simplify_eq/=; done.
  - unfold step_select, ready; simpl.
    destruct m; simpl; try done. destruct c; simpl; repeat case_match; done.
  - unfold step_imm, wg_done; simpl.
    destruct im; simpl; repeat case_match; simplify_eq/=; done.
  - unfold step_returns; simpl. destruct o; [destruct im | destruct m]; done.
  - done.
  - unfold step_stop; simpl. repeat case_match; done.
  - unfold step_cancel; simpl. destruct ce; done.
  - unfold step_elapse; simpl. destruct tk; done.
Qed.

(** X5. A job made with a nil action never enters the action: the call
    of line 65 panics when the loop takes its first tick, and so does the
    call of line 44 in the goroutine that line 42 launches. *)
Theorem nil_action_panics_when_called (j : TickerJob) (es : list Event) :
  executeFn j = None ->
  begun Immediate (run es (init j)) = 0%nat /\
  begun Ticked (run es (init j)) = 0%nat /\
  (main (run es (init j)) = ML65 -> crashed (run es (init j)) = false ->
   main (step EvMain (run es (init j))) = MPanicked PanicNilFunc) /\
  (imm (run es (init j)) = IL44 -> crashed (run es (init j)) = false ->
   imm (step EvImm (run es (init j))) = IPanicked PanicNilFunc).
Proof.
  intros Hfn.
  assert (executeFn (job (run es (init j))) = None /\
          begun Immediate (run es (init j)) = 0%nat /\
          begun Ticked (run es (init j)) = 0%nat /\
          main (run es (init j)) <> MInFn /\ imm (run es (init j)) <> IInFn)
    as (Hf & Hbi & Hbt & _).
  { induction es as [|e es IH] using rev_ind; [done |].
    rewrite run_snoc. destruct IH as (? & ?). by apply step_nil_action. }
  split; [done |]. split; [done |]. split.
  - intros Hm Hcr. unfold step, step_main. rewrite Hcr, Hm, Hf. done.
  - intros Hi Hcr. unfold step, step_imm. rewrite Hcr, Hi, Hf. done.
Qed.

(** X6. The wait group and the stop channel are never misused: no
    goroutine of [Start] or [Stop] panics of a wait-group counter that
    would become negative or of closing the channel that is closed.  As
    long as nothing has panicked the counter of the wait group is 0, 1 or
    2 and counts every invocation that is executing. *)
Theorem wait_group_counts_the_invocations (j : TickerJob) (es : list Event) :
  fresh j ->
  (forall p,
     main (run es (init j)) = MPanicked p \/ imm (run es (init j)) = IPanicked p \/
     (exists i, stoppers (run es (init j)) !! i = Some (SPanicked p)) ->
     p <> PanicNegativeCounter /\ p <> PanicCloseOfClosed) /\
  (crashed (run es (init j)) = false ->
   Z.of_nat (executing_all (run es (init j))) <= wg (job (run es (init j))) <= 2).
Proof.
  intros Hf. pose proof (reachable_StartInv j es Hf) as I.
  pose proof (reachable_StopInv j es Hf) as S.
  set (w := run es (init j)) in *. split.
  - intros p [Hm | [Hi | (i & Hs)]].
    + pose proof (st_panic _ _ I) as Hp. unfold panic_at in Hp. rewrite Hm in Hp.
      destruct Hp as [(-> & _) | (-> & _)]; done.
    + destruct (st_imm_panic _ _ I p Hi) as [-> _]. done.
    + pose proof (count_zero_lookup _ _ _ _ (si_panicked _ S) Hs). done.
  - intros Hcr. unfold crashed in Hcr.
    apply orb_false_elim in Hcr as [Hcr _]. apply orb_false_elim in Hcr as [Hm Hi].
    rewrite (st_wg _ _ I Hm Hi). unfold executing_all, executing.
    rewrite (st_begun_imm _ _ I), (st_ended_imm _ _ I), (st_begun_tick _ _ I).
    destruct (main w), (imm w); simpl; lia.
Qed.



(** A step of the call of [Stop] that was made last. *)
Lemma step_stop_last (J : TickerJob) (ce : option error) (tk : Ticker) (m : MainPc)
    (im : ImmPc) (sts : list StopPc) (pc : StopPc) (tr : list Obs) :
  crashed (mkWorld J ce tk m im sts tr) = false -> stop_panicked pc = false ->
  step (EvStopStep (length sts)) (mkWorld J ce tk m im (sts ++ [pc]) tr)
  = match pc with
    | SL73 =>
        match stopOnce J with
        | OnceFresh => mkWorld (set_stopOnce J OnceRunning) ce tk m im (sts ++ [SL74]) tr
        | OnceRunning => mkWorld J ce tk m im (sts ++ [pc]) tr
        | OnceDone => mkWorld J ce tk m im (sts ++ [SReturned None]) tr
        end
    | SL74 =>
        match stopCh J with
        | ChClosed => mkWorld J ce tk m im (sts ++ [SPanicked PanicCloseOfClosed]) tr
        | ChOpen => mkWorld (set_stopCh J ChClosed) ce tk m im (sts ++ [SL75]) (ObsClose :: tr)
        end
    | SL75 => mkWorld (set_stopOnce J OnceDone) ce tk m im (sts ++ [SReturned None]) tr
    | _ => mkWorld J ce tk m im (sts ++ [pc]) tr
    end.
Proof.
  intros Hcr Hpc. unfold step, crashed in *. simpl in *.
  rewrite existsb_app. simpl. rewrite Hpc, orb_false_r, Hcr.
  unfold step_stop. simpl. rewrite list_lookup_middle by done.
  assert (forall x, <[length sts := x]> (sts ++ [pc]) = sts ++ [x]) as Hins.
  { intros x. rewrite insert_app_r_alt by lia. by rewrite Nat.sub_diag. }
  destruct pc; try done.
  - destruct (stopOnce J); unfold with_stoppers, with_job; simpl; by rewrite ?Hins.
  - destruct (stopCh J); unfold with_stoppers, with_job, emit; simpl; by rewrite ?Hins.
  - unfold with_stoppers, with_job; simpl; by rewrite ?Hins.
Qed.

(** X8. [Stop] does not wait for [Start]: a call made while no other call
    is inside [stopOnce.Do] returns nil after three steps of its own,
    with the stop channel closed, whatever [Start] and the action are doing,
    and it leaves the loop, the immediate execution, the ticker, the
    context and the wait group as they were. *)
Theorem Stop_does_not_wait_for_Start (j : TickerJob) (es : list Event) :
  fresh j ->
  crashed (run es (init j)) = false ->
  stopOnce (job (run es (init j))) <> OnceRunning ->
  stoppers (run (es ++ stop_call (length (stoppers (run es (init j))))) (init j))
    !! length (stoppers (run es (init j))) = Some (SReturned None) /\
  stopCh (job (run (es ++ stop_call (length (stoppers (run es (init j))))) (init j)))
    = ChClosed /\
  main (run (es ++ stop_call (length (stoppers (run es (init j))))) (init j))
    = main (run es (init j)) /\
  imm (run (es ++ stop_call (length (stoppers (run es (init j))))) (init j))
    = imm (run es (init j)) /\
  ticker (run (es ++ stop_call (length (stoppers (run es (init j))))) (init j))
    = ticker (run es (init j)) /\
  ctxErr (run (es ++ stop_call (length (stoppers (run es (init j))))) (init j))
    = ctxErr (run es (init j)) /\
  wg (job (run (es ++ stop_call (length (stoppers (run es (init j))))) (init j)))
    = wg (job (run es (init j))).
Proof.
  intros Hf Hcr Hon. pose proof (reachable_StopInv j es Hf) as S.
  rewrite run_app. set (w := run es (init j)) in *.
  destruct (stop_events_frame (stop_call (length (stoppers w))) w eq_refl)
    as (Hm & Hi & Ht & Hc & Hw & _).
  split; [| split]; [| | done].
  - pose proof (si_fresh _ S) as Hfr. pose proof (si_done _ S) as Hdn. clear S Hm Hi Ht Hc Hw.
    destruct w as [J ce tk m im sts tr]. simpl in *.
    unfold run, stop_call, fold_left.
    assert (step EvStopCall (mkWorld J ce tk m im sts tr)
            = mkWorld J ce tk m im (sts ++ [SL73]) tr) as -> by (unfold step; by rewrite Hcr).
    rewrite (step_stop_last J) by done.
    destruct (stopOnce J) eqn:Eo; [| done |].
    + rewrite (step_stop_last (set_stopOnce J OnceRunning)) by done.
      simpl. rewrite (Hfr eq_refl).
      rewrite (step_stop_last (set_stopCh (set_stopOnce J OnceRunning) ChClosed)) by done.
      simpl. by rewrite list_lookup_middle.
    + rewrite !(step_stop_last J) by done. simpl. by rewrite list_lookup_middle.
  - pose proof (si_fresh _ S) as Hfr. pose proof (si_done _ S) as Hdn. clear S Hm Hi Ht Hc Hw.
    destruct w as [J ce tk m im sts tr]. simpl in *.
    unfold run, stop_call, fold_left.
    assert (step EvStopCall (mkWorld J ce tk m im sts tr)
            = mkWorld J ce tk m im (sts ++ [SL73]) tr) as -> by (unfold step; by rewrite Hcr).
    rewrite (step_stop_last J) by done.
    destruct (stopOnce J) eqn:Eo; [| done |].
    + rewrite (step_stop_last (set_stopOnce J OnceRunning)) by done.
      simpl. rewrite (Hfr eq_refl).
      by rewrite (step_stop_last (set_stopCh (set_stopOnce J OnceRunning) ChClosed)) by done.
    + rewrite !(step_stop_last J) by done. simpl. by apply Hdn.
Qed.

(** ** These theorems at work *)

Lemma Start_logs_start_and_cause_witness :
  rev (log_lines (trace (run cancelled_run (init (hourly false)))))
  = [LogStarted "test-job" 3600000000000; LogStoppedByContext "test-job"].
Proof.
  destruct (Start_logs_start_and_cause (hourly false) cancelled_run
              (newTickerJob_fresh _ _ _ _ _)) as [_ H].
  apply (H (Some Canceled)). vm_compute. reflexivity.
Defined.

Lemma Start_stays_returned_witness :
  main (run (stopped_run ++ [EvElapse; EvStopCall; EvMain; EvSelect CaseTick])
          (init (hourly false))) = MReturned None /\
  ticker (run (stopped_run ++ [EvElapse; EvStopCall; EvMain; EvSelect CaseTick])
            (init (hourly false))) = Stopped.
Proof.
  destruct (Start_stays_returned (hourly false) stopped_run
              [EvElapse; EvStopCall; EvMain; EvSelect CaseTick] None
              (newTickerJob_fresh _ _ _ _ _)) as (H1 & H2 & _).
  - vm_compute. reflexivity.
  - split; [exact H1 | exact H2].
Defined.

Lemma invocations_are_bounded_witness :
  (begun Immediate (run overlapping (init (hourly true)))
   + begun Ticked (run overlapping (init (hourly true)))
   <= elapsed (run overlapping (init (hourly true))) + b2n (executeImmediate (hourly true)))%nat.
Proof.
  apply (invocations_are_bounded (hourly true) overlapping).
  apply newTickerJob_fresh.
Defined.

Lemma one_invocation_per_tick_witness :
  main (run (to_select ++ ticks 3) (init (hourly false))) = ML52 /\
  begun Ticked (run (to_select ++ ticks 3) (init (hourly false)))
  = (begun Ticked (run to_select (init (hourly false))) + 3)%nat.
Proof.
  destruct (one_invocation_per_tick (hourly false) to_select 3) as (H1 & H2 & _).
  - apply newTickerJob_fresh.
  - by eexists.
  - vm_compute. reflexivity.
  - vm_compute. reflexivity.
  - split; [exact H1 | exact H2].
Defined.

Lemma nil_action_panics_when_called_witness :
  begun Immediate (run to_select_immediate (init (actionless true))) = 0%nat /\
  imm (step EvImm (run to_select_immediate (init (actionless true))))
  = IPanicked PanicNilFunc.
Proof.
  destruct (nil_action_panics_when_called (actionless true) to_select_immediate)
    as (H1 & _ & _ & H4).
  - reflexivity.
  - split; [exact H1 |]. apply H4; vm_compute; reflexivity.
Defined.

Lemma wait_group_counts_the_invocations_witness :
  Z.of_nat (executing_all (run overlapping (init (hourly true))))
  <= wg (job (run overlapping (init (hourly true)))) <= 2.
Proof.
  destruct (wait_group_counts_the_invocations (hourly true) overlapping) as [_ H].
  - apply newTickerJob_fresh.
  - apply H. vm_compute. reflexivity.
Defined.


Lemma Stop_does_not_wait_for_Start_witness :
  stoppers (run (overlapping ++ stop_call 0) (init (hourly true))) !! 0%nat
  = Some (SReturned None) /\
  main (run (overlapping ++ stop_call 0) (init (hourly true))) = MInFn.
Proof.
  destruct (Stop_does_not_wait_for_Start (hourly true) overlapping)
    as (H1 & _ & H3 & _).
  - apply newTickerJob_fresh.
  - vm_compute. reflexivity.
  - vm_compute. discriminate.
  - split; [exact H1 | exact H3].
Defined.

(** * Configuration *)

(** The tables of [nacos_test.go]. *)
Example TestParseServerAddr :
  registry.parseServerAddr "192.168.1.1:8848" = registry.mkServerAddr "192.168.1.1" 8848 /\
  registry.parseServerAddr "192.168.1.1" = registry.mkServerAddr "192.168.1.1" 8848 /\
  registry.parseServerAddr "192.168.1.1:abc" = registry.mkServerAddr "192.168.1.1:abc" 8848 /\
  registry.parseServerAddr "localhost:8848" = registry.mkServerAddr "localhost" 8848 /\
  registry.parseServerAddr "[::1]:8848" = registry.mkServerAddr "[::1]" 8848.
Proof. vm_compute. done. Qed.

Example TestParseServerAddrs :
  let parse := registry.parseServerAddrs stdlib.TrimSpaceASCII in
  let addr := registry.mkServerAddr in
  parse "" = [addr "127.0.0.1" 8848] /\
  parse "192.168.1.1:8848" = [addr "192.168.1.1" 8848] /\
  parse "192.168.1.1" = [addr "192.168.1.1" 8848] /\
  parse "192.168.1.1:8848,192.168.1.2:8849"
  = [addr "192.168.1.1" 8848; addr "192.168.1.2" 8849] /\
  parse "192.168.1.1:8848,192.168.1.2"
  = [addr "192.168.1.1" 8848; addr "192.168.1.2" 8848] /\
  parse "192.168.1.1:8848 , 192.168.1.2:8849"
  = [addr "192.168.1.1" 8848; addr "192.168.1.2" 8849] /\
  parse "192.168.1.1:8848,,192.168.1.2:8849"
  = [addr "192.168.1.1" 8848; addr "192.168.1.2" 8849] /\
  parse ",,," = [addr "127.0.0.1" 8848] /\
  parse "10.0.0.1:9999" = [addr "10.0.0.1" 9999].
Proof. vm_compute. done. Qed.

Example TestNewNacosConfigFromEnv :
  registry.NewNacosConfigFromEnv stdlib.TrimSpaceASCII ∅
  = registry.mkNacosConfig [registry.mkServerAddr "127.0.0.1" 8848] ""
      registry.DefaultNacosLogDir registry.DefaultNacosCacheDir
      registry.DefaultNacosLogLevel /\
  registry.NewNacosConfigFromEnv stdlib.TrimSpaceASCII
    (<[registry.EnvNacosServerAddrs := "10.0.0.1:8848,10.0.0.2:8848"]>
       (<[registry.EnvNacosNamespaceID := "test-namespace"]>
          (<[registry.EnvNacosLogDir := "/var/log/nacos"]>
             (<[registry.EnvNacosCacheDir := "/var/cache/nacos"]>
                (<[registry.EnvNacosLogLevel := "debug"]> ∅)))))
  = registry.mkNacosConfig
      [registry.mkServerAddr "10.0.0.1" 8848; registry.mkServerAddr "10.0.0.2" 8848]
      "test-namespace" "/var/log/nacos" "/var/cache/nacos" "debug".
Proof. vm_compute. done. Qed.

Section Configuration.
Import Stdlib.Strings.Ascii.

Lemma String_eqb_empty (s : string) :
  String.eqb s "" = bool_decide (s = "").
Proof. destruct s; done. Qed.

Lemma LastIndex_bounds (s : string) (c : ascii) :
  -1 <= stdlib.LastIndex s c < Z.of_nat (String.length s).
Proof.
  induction s as [|a s IH]; simpl; [lia |].
  destruct (0 <=? stdlib.LastIndex s c) eqn:E; [lia |].
  destruct (Ascii.eqb a c); lia.
Qed.

Lemma LastIndex_split (s : string) (c : ascii) :
  0 <= stdlib.LastIndex s c ->
  s = stdlib.slice_to s (stdlib.LastIndex s c)
      +:+ String c (stdlib.slice_from s (stdlib.LastIndex s c + 1)) /\
  stdlib.LastIndex (stdlib.slice_from s (stdlib.LastIndex s c + 1)) c = -1.
Proof.
  unfold stdlib.slice_to, stdlib.slice_from.
  induction s as [|a s IH]; simpl; [lia |].
  pose proof (LastIndex_bounds s c) as Hb.
  destruct (0 <=? stdlib.LastIndex s c) eqn:E.
  - intros _. apply Z.leb_le in E. destruct (IH E) as [IH1 IH2].
    replace (Z.to_nat (stdlib.LastIndex s c + 1))
      with (S (Z.to_nat (stdlib.LastIndex s c))) by lia.
    replace (Z.to_nat (stdlib.LastIndex s c + 1 + 1))
      with (S (Z.to_nat (stdlib.LastIndex s c + 1))) by lia.
    cbn [stdlib.take_bytes stdlib.drop_bytes].
    split; [exact (f_equal (String a) IH1) | done].
  - apply Z.leb_gt in E. assert (stdlib.LastIndex s c = -1) as Hs by lia.
    destruct (Ascii.eqb_spec a c) as [-> | Hne]; [| lia].
    intros _. simpl. destruct s; done.
Qed.

Lemma LastIndex_app (ip p : string) (c : ascii) :
  stdlib.LastIndex p c = -1 ->
  stdlib.LastIndex (ip +:+ String c p) c = Z.of_nat (String.length ip).
Proof.
  intros Hp. induction ip as [|a ip IH]; simpl.
  - rewrite Hp. simpl. by rewrite Ascii.eqb_refl.
  - rewrite IH. destruct (0 <=? Z.of_nat (String.length ip)) eqn:E; lia.
Qed.

Lemma take_bytes_app (ip s : string) :
  stdlib.take_bytes (String.length ip) (ip +:+ s) = ip.
Proof. induction ip as [|a ip IH]; simpl; [by destruct s | by rewrite IH]. Qed.

Lemma drop_bytes_app (ip s : string) :
  stdlib.drop_bytes (String.length ip) (ip +:+ s) = s.
Proof. induction ip as [|a ip IH]; simpl; [by destruct s | done]. Qed.

Lemma digits_no_sep (c : ascii) (p : string) (acc v : Z) :
  stdlib.digit c = None -> stdlib.digits acc p = Some v -> stdlib.LastIndex p c = -1.
Proof.
  intros Hc. revert acc. induction p as [|a p IH]; intros acc Hd; simpl in *; [done |].
  destruct (stdlib.digit a) as [d|] eqn:Ea; [| done].
  rewrite (IH _ Hd). simpl.
  destruct (Ascii.eqb_spec a c) as [-> | Hne]; [congruence | done].
Qed.

Lemma digits_bounds (p : string) (acc v : Z) :
  0 <= acc -> stdlib.digits acc p = Some v -> 0 <= v.
Proof.
  revert acc. induction p as [|a p IH]; intros acc Ha Hd; simpl in *; [naive_solver |].
  destruct (stdlib.digit a) as [d|] eqn:Ea; [| done].
  refine (IH _ _ Hd). unfold stdlib.digit in Ea.
  case_match; [| done]. simplify_eq. lia.
Qed.

Lemma ParseUint_bounds (s : string) (bitSize v : Z) :
  stdlib.ParseUint s bitSize = Some v -> 0 <= v < 2 ^ bitSize.
Proof.
  unfold stdlib.ParseUint. destruct s as [|a s]; [done |].
  destruct (stdlib.digits 0 (String a s)) as [v'|] eqn:E; [| done].
  destruct (v' <? 2 ^ bitSize) eqn:Hlt; [| done]. intros [= <-].
  apply Z.ltb_lt in Hlt. split; [| done]. by apply (digits_bounds _ 0 v' ltac:(lia) E).
Qed.

Lemma ParseUint_no_sep (c : ascii) (s : string) (bitSize v : Z) :
  stdlib.digit c = None -> stdlib.ParseUint s bitSize = Some v ->
  stdlib.LastIndex s c = -1.
Proof.
  intros Hc. unfold stdlib.ParseUint. destruct s as [|a s]; [done |].
  destruct (stdlib.digits 0 (String a s)) as [v'|] eqn:E; [| done].
  intros _. by apply (digits_no_sep c _ 0 v').
Qed.

Lemma parseServerAddr_at (ip p : string) :
  stdlib.LastIndex p ":" = -1 ->
  registry.parseServerAddr (ip +:+ ":" +:+ p)
  = match stdlib.ParseUint p 64 with
    | Some port => registry.mkServerAddr ip port
    | None => registry.mkServerAddr (ip +:+ ":" +:+ p) 8848
    end.
Proof.
  intros Hp. unfold registry.parseServerAddr.
  change (ip +:+ ":" +:+ p) with (ip +:+ String ":" p).
  rewrite (LastIndex_app ip p ":" Hp).
  destruct (Z.eqb_spec (Z.of_nat (String.length ip)) (-1)) as [Hx | _]; [lia |].
  simpl negb. cbv iota.
  unfold stdlib.slice_to, stdlib.slice_from.
  rewrite Nat2Z.id, take_bytes_app.
  replace (Z.to_nat (Z.of_nat (String.length ip) + 1)) with (S (String.length ip)) by lia.
  change (S (String.length ip)) with (String.length (String ":" ip)).
  assert (forall q, stdlib.drop_bytes (S (String.length ip)) (ip +:+ String ":" q) = q) as ->.
  { intros q. clear. induction ip as [|a ip IH]; simpl; done. }
  done.
Qed.

Lemma parseServerAddr_port (addr : string) :
  0 <= registry.Port (registry.parseServerAddr addr) < 2 ^ 64.
Proof.
  unfold registry.parseServerAddr.
  destruct (negb _); [| simpl; lia].
  destruct (stdlib.ParseUint _ 64) as [v|] eqn:E; [| simpl; lia].
  simpl. by apply (ParseUint_bounds _ _ _ E).
Qed.

Lemma parse_loop (TrimSpace : string -> string) (parts : list string)
    (acc : list registry.ServerAddr) :
  fold_left
    (fun result part =>
       let part := TrimSpace part in
       if String.eqb part "" then result
       else result ++ [registry.parseServerAddr part])
    parts acc
  = acc ++ registry.addresses_of TrimSpace parts.
Proof.
  unfold registry.addresses_of.
  revert acc. induction parts as [|part parts IH]; intros acc; simpl.
  - by rewrite app_nil_r.
  - rewrite IH, String_eqb_empty, filter_cons.
    destruct (decide (TrimSpace part <> "")) as [Hne | He].
    + rewrite bool_decide_eq_false_2 by done. simpl. by rewrite <- app_assoc.
    + apply dec_stable in He. rewrite bool_decide_eq_true_2 by done. done.
Qed.

(** X9. [parseServerAddrs] reads the text between the commas in order:
    with a [strings.TrimSpace] that leaves the empty text empty, its
    result is the addresses of the parts that are not blank, one for each
    and in their order, and the default address alone when every part is
    blank. *)
Theorem parseServerAddrs_reads_the_parts_in_order (TrimSpace : string -> string)
    (addrs : string) :
  TrimSpace "" = "" ->
  registry.parseServerAddrs TrimSpace addrs
  = match registry.addresses_of TrimSpace (stdlib.Split addrs ",") with
    | [] => [registry.mkServerAddr "127.0.0.1" 8848]
    | result => result
    end.
Proof.
  intros Ht. unfold registry.parseServerAddrs. rewrite parse_loop. simpl.
  destruct addrs as [|a addrs].
  - simpl. unfold registry.addresses_of. simpl. rewrite Ht, filter_cons.
    by rewrite decide_False by naive_solver.
  - change (String.eqb (String a addrs) "") with false. cbv iota.
    by destruct (registry.addresses_of _ _).
Qed.

Lemma parseServerAddrs_length (TrimSpace : string -> string) (addrs : string) :
  (1 <= length (registry.parseServerAddrs TrimSpace addrs))%nat.
Proof.
  unfold registry.parseServerAddrs. rewrite parse_loop. simpl.
  destruct (String.eqb addrs ""); [simpl; lia |].
  destruct (registry.addresses_of _ _); simpl; lia.
Qed.

(** X10. Whatever the text and whatever [strings.TrimSpace] does,
    [parseServerAddrs] returns at least one address, and every port it
    returns is a [uint64]. *)
Theorem parseServerAddrs_is_never_empty (TrimSpace : string -> string) (addrs : string) :
  (1 <= length (registry.parseServerAddrs TrimSpace addrs))%nat /\
  Forall (fun a => 0 <= registry.Port a < 2 ^ 64)
    (registry.parseServerAddrs TrimSpace addrs).
Proof.
  split; [apply parseServerAddrs_length |].
  unfold registry.parseServerAddrs. rewrite parse_loop. simpl.
  assert (Forall (fun a => 0 <= registry.Port a < 2 ^ 64)
            [registry.mkServerAddr "127.0.0.1" 8848]) as Hd.
  { repeat constructor; simpl; lia. }
  destruct (String.eqb addrs ""); [done |].
  destruct (registry.addresses_of _ _) as [|a l] eqn:E; simpl; [done |].
  rewrite <- E. unfold registry.addresses_of.
  apply Forall_map, Forall_forall. intros x _. apply parseServerAddr_port.
Qed.

(** X11. [parseServerAddr] splits at the last colon: a host, which may hold
    colons itself or be empty, followed by a colon and decimal digits that
    fit 64 bits is read as that host and that port. *)
Theorem parseServerAddr_splits_at_the_last_colon (ip p : string) (port : Z) :
  stdlib.ParseUint p 64 = Some port ->
  registry.parseServerAddr (ip +:+ ":" +:+ p) = registry.mkServerAddr ip port.
Proof.
  intros Hp. rewrite parseServerAddr_at; [by rewrite Hp |].
  by apply (ParseUint_no_sep ":" p 64 port).
Qed.

(** X12. What follows the last colon and is no port stays in the host:
    when it is empty, holds a byte that is no digit or does not fit 64 bits,
    [parseServerAddr] returns the whole text as the host, colon included,
    with the port 8848. *)
Theorem parseServerAddr_keeps_an_invalid_port_in_the_host (ip p : string) :
  stdlib.LastIndex p ":" = -1 ->
  stdlib.ParseUint p 64 = None ->
  registry.parseServerAddr (ip +:+ ":" +:+ p)
  = registry.mkServerAddr (ip +:+ ":" +:+ p) 8848.
Proof. intros Hc Hp. rewrite parseServerAddr_at by done. by rewrite Hp. Qed.

(** X13. [parseServerAddr] loses nothing of its text: either the host it
    returns is the whole text and the port is 8848, or the text is the
    host, a colon and a text that [strconv.ParseUint] reads as the
    port. *)
Theorem parseServerAddr_loses_nothing (addr : string) :
  (registry.IP (registry.parseServerAddr addr) = addr /\
   registry.Port (registry.parseServerAddr addr) = 8848) \/
  (exists p, addr = registry.IP (registry.parseServerAddr addr) +:+ ":" +:+ p /\
             stdlib.ParseUint p 64 = Some (registry.Port (registry.parseServerAddr addr))).
Proof.
  unfold registry.parseServerAddr.
  pose proof (LastIndex_bounds addr ":") as Hb.
  destruct (stdlib.LastIndex addr ":" =? -1) eqn:E; simpl; [by left |].
  apply Z.eqb_neq in E.
  destruct (LastIndex_split addr ":" ltac:(lia)) as [Hs _].
  destruct (stdlib.ParseUint _ 64) as [v|] eqn:Ep; simpl; [| by left].
  right. eexists. split; [exact Hs | exact Ep].
Qed.

Lemma GetOrDefault_nonempty (e : gmap string string) (key d : string) :
  d <> "" -> env.GetOrDefault e key d <> "".
Proof.
  intros Hd. unfold env.GetOrDefault. rewrite String_eqb_empty.
  case_bool_decide; simpl; done.
Qed.

Lemma Getenv_empty_or_unset (e : gmap string string) (k key : string) :
  stdlib.Getenv (<[k := ""]> e) key = stdlib.Getenv (delete k e) key.
Proof.
  unfold stdlib.Getenv. destruct (decide (k = key)) as [-> | Hne].
  - by rewrite lookup_insert_eq, lookup_delete_eq.
  - by rewrite lookup_insert_ne, lookup_delete_ne.
Qed.

(** X14. The configuration of the Nacos client that
    [NewNacosConfigFromEnv] reads has a server address, a log directory, a
    cache directory and a log level in every environment, and a variable
    that is set to the empty text counts as one that is not set. *)
Theorem NewNacosConfigFromEnv_is_complete (TrimSpace : string -> string)
    (e : gmap string string) :
  (1 <= length (registry.ServerAddrs (registry.NewNacosConfigFromEnv TrimSpace e)))%nat /\
  registry.LogDir (registry.NewNacosConfigFromEnv TrimSpace e) <> "" /\
  registry.CacheDir (registry.NewNacosConfigFromEnv TrimSpace e) <> "" /\
  registry.LogLevel (registry.NewNacosConfigFromEnv TrimSpace e) <> "" /\
  (forall k, registry.NewNacosConfigFromEnv TrimSpace (<[k := ""]> e)
             = registry.NewNacosConfigFromEnv TrimSpace (delete k e)).
Proof.
  split; [apply parseServerAddrs_length |].
  split; [by apply GetOrDefault_nonempty |].
  split; [by apply GetOrDefault_nonempty |].
  split; [by apply GetOrDefault_nonempty |].
  intros k. unfold registry.NewNacosConfigFromEnv, env.GetOrDefault, env.Get.
  by rewrite !Getenv_empty_or_unset.
Qed.

End Configuration.

Lemma parseServerAddrs_reads_the_parts_in_order_witness :
  registry.parseServerAddrs stdlib.TrimSpaceASCII " 10.0.0.1:8848 ,, [::1]:9000,nacos"
  = [registry.mkServerAddr "10.0.0.1" 8848; registry.mkServerAddr "[::1]" 9000;
     registry.mkServerAddr "nacos" 8848].
Proof.
  exact (parseServerAddrs_reads_the_parts_in_order stdlib.TrimSpaceASCII
           " 10.0.0.1:8848 ,, [::1]:9000,nacos" eq_refl).
Defined.

Lemma parseServerAddr_splits_at_the_last_colon_witness :
  registry.parseServerAddr "[::1]:8848" = registry.mkServerAddr "[::1]" 8848.
Proof.
  exact (parseServerAddr_splits_at_the_last_colon "[::1]" "8848" 8848 eq_refl).
Defined.

Lemma parseServerAddr_keeps_an_invalid_port_in_the_host_witness :
  registry.parseServerAddr "nacos:18446744073709551616"
  = registry.mkServerAddr "nacos:18446744073709551616" 8848.
Proof.
  exact (parseServerAddr_keeps_an_invalid_port_in_the_host
           "nacos" "18446744073709551616" eq_refl eq_refl).
Defined.

Section RocketMQ.
Import Stdlib.Strings.Ascii.

Lemma Split_ReplaceAll_head (s : string) :
  exists rest,
    stdlib.Split (stdlib.ReplaceAll s ";" ",") "," = rocketmq.first_name_server s :: rest.
Proof.
  induction s as [|a s [rest IH]]; simpl; [by eexists |].
  destruct (Ascii.eqb_spec a ";") as [-> | H1]; simpl; [by eexists |].
  destruct (Ascii.eqb_spec a ",") as [-> | H2]; simpl; [by eexists |].
  rewrite IH. by eexists.
Qed.

(** X15. The endpoint of a configuration made by [NewConfigFromProto] is
    the first name server alone: the text of [name_servers] before its
    first semicolon or comma, trimmed; the name servers after it are
    dropped.  [ToRMQConfig] hands this endpoint on. *)
Theorem endpoint_is_the_first_name_server (TrimSpace : string -> string)
    (c : rocketmq.RocketMQ) :
  rocketmq.Endpoint (rocketmq.NewConfigFromProto TrimSpace c)
  = TrimSpace (rocketmq.first_name_server (rocketmq.NameServers c)) /\
  rocketmq.rEndpoint (rocketmq.ToRMQConfig (rocketmq.NewConfigFromProto TrimSpace c))
  = TrimSpace (rocketmq.first_name_server (rocketmq.NameServers c)).
Proof.
  unfold rocketmq.ToRMQConfig, rocketmq.NewConfigFromProto. simpl.
  destruct (Split_ReplaceAll_head (rocketmq.NameServers c)) as [rest ->]. done.
Qed.

(** X16. A configuration made by [NewConfigFromProto] has a positive
    number of attempts whatever [retry_times] is, the one given when that
    is positive and 3 otherwise; SSL is off; and the configuration handed
    to the client library has the producer group as its consumer group and
    no namespace. *)
Theorem config_from_proto_can_be_used (TrimSpace : string -> string)
    (c : rocketmq.RocketMQ) :
  0 < rocketmq.MaxAttempts (rocketmq.NewConfigFromProto TrimSpace c) /\
  (rocketmq.MaxAttempts (rocketmq.NewConfigFromProto TrimSpace c) = rocketmq.RetryTimes c \/
   rocketmq.RetryTimes c <= 0 /\
   rocketmq.MaxAttempts (rocketmq.NewConfigFromProto TrimSpace c) = 3) /\
  rocketmq.EnableSSL (rocketmq.NewConfigFromProto TrimSpace c) = false /\
  rocketmq.rNameSpace (rocketmq.ToRMQConfig (rocketmq.NewConfigFromProto TrimSpace c)) = "" /\
  rocketmq.rConsumerGroup (rocketmq.ToRMQConfig (rocketmq.NewConfigFromProto TrimSpace c))
  = rocketmq.ProducerGroup c.
Proof.
  unfold rocketmq.ToRMQConfig, rocketmq.NewConfigFromProto. simpl.
  destruct (Z.ltb_spec 0 (rocketmq.RetryTimes c)); repeat split; auto with lia.
Qed.

Lemma configureSSL_calls_done (enables : list bool) (s : rocketmq.SSL) :
  rocketmq.sslOnce s = OnceDone -> rocketmq.configureSSL_calls enables s = s.
Proof.
  revert s. induction enables as [|b bs IH]; intros s Hs; [done |].
  unfold rocketmq.configureSSL_calls in *. simpl.
  unfold rocketmq.configureSSL at 2. rewrite Hs. by apply IH.
Qed.

(** X17. The first call of [configureSSL] decides: after calls made one
    after the other the flag of the client library is what the first of
    them asked for, whatever the flag was before and whatever the later
    calls ask for. *)
Theorem configureSSL_first_call_decides (enable was : bool) (later : list bool) :
  rocketmq.configureSSL_calls (enable :: later) (rocketmq.mkSSL OnceFresh was)
  = rocketmq.mkSSL OnceDone enable.
Proof.
  change (rocketmq.configureSSL_calls (enable :: later) (rocketmq.mkSSL OnceFresh was))
    with (rocketmq.configureSSL_calls later (rocketmq.mkSSL OnceDone enable)).
  by apply configureSSL_calls_done.
Qed.

End RocketMQ.

(** * The Nacos registry *)

Section Nacos.
Context `{nacos.Library}.

Lemma buildMetadata_keys (r : nacos.Registry) (si : nacos.ServiceInstance)
    (scheme : string) :
  (nacos.buildMetadata r si scheme).1 !! "kind" = Some scheme /\
  (nacos.buildMetadata r si scheme).1 !! "version" = Some (nacos.Version si).
Proof.
  unfold nacos.buildMetadata. destruct (nacos.Metadata si) as [md|]; simpl.
  - by rewrite lookup_insert_ne, !lookup_insert_eq.
  - by rewrite lookup_insert_ne, !lookup_insert_eq.
Qed.

(** X18. The metadata that [buildMetadata] hands to the client always
    says which kind of endpoint and which version it is for, over whatever
    the instance says under these keys; every other entry is the
    instance's own; and an instance with no metadata at all is treated
    like one whose metadata is empty. *)
Theorem buildMetadata_sets_kind_and_version (r : nacos.Registry)
    (si : nacos.ServiceInstance) (scheme : string) :
  (nacos.buildMetadata r si scheme).1 !! "kind" = Some scheme /\
  (nacos.buildMetadata r si scheme).1 !! "version" = Some (nacos.Version si) /\
  (forall k, k <> "kind" -> k <> "version" ->
     (nacos.buildMetadata r si scheme).1 !! k = default ∅ (nacos.Metadata si) !! k) /\
  (nacos.Metadata si = None ->
   nacos.buildMetadata r si scheme
   = nacos.buildMetadata r
       (nacos.mkServiceInstance (nacos.ID si) (nacos.Name si) (nacos.Version si)
          (Some ∅) (nacos.Endpoints si)) scheme).
Proof.
  unfold nacos.buildMetadata.
  destruct (nacos.Metadata si) as [md|] eqn:E; simpl.
  - split; [by rewrite lookup_insert_ne, lookup_insert_eq |].
    split; [by rewrite lookup_insert_eq |].
    split; [| done]. intros k H1 H2. by rewrite !lookup_insert_ne.
  - split; [by rewrite lookup_insert_ne, lookup_insert_eq |].
    split; [by rewrite lookup_insert_eq |].
    split; [| done]. intros k H1 H2. by rewrite !lookup_insert_ne.
Qed.

Lemma Register_endpoints_app (r : nacos.Registry) (si : nacos.ServiceInstance)
    (first rest : list string) (calls : list nacos.Call) :
  nacos.Register_endpoints r si (first ++ rest) calls
  = match nacos.Register_endpoints r si first calls with
    | (None, calls) => nacos.Register_endpoints r si rest calls
    | failed => failed
    end.
Proof.
  revert calls. induction first as [|endpoint first IH]; intros calls; simpl; [done |].
  destruct (nacos.parseEndpoint endpoint) as [err | [[u host] p]]; [done |].
  destruct (nacos.buildMetadata r si (nacos.Scheme u)) as [rmd weight].
  destruct (nacos.RegisterInstance _ _ _) as [ok [e|]]; [done |]. apply IH.
Qed.

Lemma Deregister_endpoints_app (r : nacos.Registry) (si : nacos.ServiceInstance)
    (first rest : list string) (calls : list nacos.Call) :
  nacos.Deregister_endpoints r si (first ++ rest) calls
  = match nacos.Deregister_endpoints r si first calls with
    | (None, calls) => nacos.Deregister_endpoints r si rest calls
    | failed => failed
    end.
Proof.
  revert calls. induction first as [|endpoint first IH]; intros calls; simpl; [done |].
  destruct (nacos.parseEndpoint endpoint) as [err | [[u host] p]]; [done |].
  destruct (nacos.DeregisterInstance _ _ _) as [ok [e|]]; [done |]. apply IH.
Qed.

Lemma parseEndpoint_port (endpoint : string) (u : nacos.URL) (host : string) (p : Z) :
  nacos.parseEndpoint endpoint = inr (u, host, p) -> 0 <= p < 65536.
Proof.
  unfold nacos.parseEndpoint. intros Hp.
  destruct (nacos.Parse endpoint) as [? | u']; [done |].
  destruct (nacos.SplitHostPort _) as [? | [host' portStr]]; [done |].
  destruct (stdlib.ParseUint portStr 16) as [port|] eqn:E; [| done].
  simplify_eq. apply (ParseUint_bounds _ _ _ E).
Qed.

Lemma Register_endpoints_calls (r : nacos.Registry) (si : nacos.ServiceInstance)
    (endpoints : list string) (calls : list nacos.Call) :
  exists made,
    (nacos.Register_endpoints r si endpoints calls).2 = calls ++ made /\
    (length made <= length endpoints)%nat /\
    Forall (nacos.asks_to_register r si) made /\
    ((nacos.Register_endpoints r si endpoints calls).1 = None ->
     length made = length endpoints) /\
    (nacos.Register_endpoints r si endpoints calls).1 <> Some nacos.ErrInvalidPort /\
    (nacos.Register_endpoints r si endpoints calls).1
    <> Some nacos.ErrServiceInstanceNameEmpty.
Proof.
  revert calls. induction endpoints as [|endpoint endpoints IH]; intros calls; simpl.
  - exists []. by rewrite app_nil_r.
  - destruct (nacos.parseEndpoint endpoint) as [err | [[u host] p]] eqn:Ep.
    + exists []. rewrite app_nil_r. simpl. repeat split; try done; [lia | |].
      * intros [= ->]. unfold nacos.parseEndpoint in Ep. repeat case_match; done.
      * intros [= ->]. unfold nacos.parseEndpoint in Ep. repeat case_match; done.
    + pose proof (buildMetadata_keys r si (nacos.Scheme u)) as Hmd.
      destruct (nacos.buildMetadata r si (nacos.Scheme u)) as [rmd weight].
      destruct Hmd as [Hk Hv]. simpl in Hk, Hv.
      assert (nacos.asks_to_register r si
                (nacos.CallRegisterInstance
                   (nacos.mkRegisterInstanceParam host p
                      (nacos.Name si +:+ "." +:+ nacos.Scheme u) weight true true true
                      rmd (nacos.cluster (nacos.opts r)) (nacos.group (nacos.opts r)))))
        as Hask.
      { eexists _, (nacos.Scheme u). split; [done |]. simpl.
        split; [by apply (parseEndpoint_port _ _ _ _ Ep) | done]. }
      destruct (nacos.RegisterInstance _ _ _) as [ok [e|]].
      * eexists [_]. simpl. repeat split; try done; [lia | by constructor].
      * destruct (IH (calls ++
                        [nacos.CallRegisterInstance
                           (nacos.mkRegisterInstanceParam host p
                              (nacos.Name si +:+ "." +:+ nacos.Scheme u) weight true true
                              true rmd (nacos.cluster (nacos.opts r))
                              (nacos.group (nacos.opts r)))]))
          as (made & Hm & Hl & Hf & Hn & He1 & He2).
        eexists (_ :: made). rewrite Hm, <- app_assoc. simpl.
        repeat split; try done; [lia | by constructor |].
        intros Hr. by rewrite (Hn Hr).
Qed.

(** X20. The calls of [Register]: it asks the client to register and
    nothing else, at most once for each endpoint and exactly once for each
    when it returns nil; every registration is enabled, healthy and
    ephemeral, goes to the group and the cluster of the options under the
    name of the instance followed by a dot and the scheme, and has a port
    of 16 bits.  For an instance without a name it asks nothing and
    returns [ErrServiceInstanceNameEmpty], whatever the endpoints are.
    [ErrInvalidPort] is never returned. *)
Theorem Register_asks_once_for_each_endpoint (r : nacos.Registry)
    (si : nacos.ServiceInstance) (calls : list nacos.Call) :
  exists made,
    (nacos.Register r si calls).2 = calls ++ made /\
    (length made <= length (nacos.Endpoints si))%nat /\
    Forall (nacos.asks_to_register r si) made /\
    ((nacos.Register r si calls).1 = None -> length made = length (nacos.Endpoints si)) /\
    (nacos.Name si = "" ->
     made = [] /\ (nacos.Register r si calls).1 = Some nacos.ErrServiceInstanceNameEmpty) /\
    (nacos.Register r si calls).1 <> Some nacos.ErrInvalidPort.
Proof.
  unfold nacos.Register. rewrite String_eqb_empty. case_bool_decide as Hn; simpl.
  - exists []. rewrite app_nil_r. repeat split; try done. simpl. lia.
  - destruct (Register_endpoints_calls r si (nacos.Endpoints si) calls)
      as (made & Hm & Hl & Hf & Hr & He & _).
    exists made. repeat split; try done.
Qed.

Lemma Register_endpoints_targets (r : nacos.Registry) (si : nacos.ServiceInstance)
    (endpoints : list string) (calls : list nacos.Call) :
  exists made,
    (nacos.Register_endpoints r si endpoints calls).2 = calls ++ made /\
    map nacos.target made
      `prefix_of` map (nacos.endpoint_target r (nacos.Name si)) endpoints /\
    ((nacos.Register_endpoints r si endpoints calls).1 = None ->
     map nacos.target made = map (nacos.endpoint_target r (nacos.Name si)) endpoints).
Proof.
  revert calls. induction endpoints as [|endpoint endpoints IH]; intros calls; simpl.
  - exists []. by rewrite app_nil_r.
  - unfold nacos.endpoint_target at 1 3.
    destruct (nacos.parseEndpoint endpoint) as [err | [[u host] p]] eqn:Ep.
    + exists []. rewrite app_nil_r. simpl. split; [done |]. split; [| done].
      apply prefix_nil.
    + destruct (nacos.buildMetadata r si (nacos.Scheme u)) as [rmd weight].
      destruct (nacos.RegisterInstance _ _ _) as [ok [e|]].
      * eexists [_]. simpl. split; [done |]. split; [| done].
        apply prefix_cons, prefix_nil.
      * destruct (IH (calls ++
                        [nacos.CallRegisterInstance
                           (nacos.mkRegisterInstanceParam host p
                              (nacos.Name si +:+ "." +:+ nacos.Scheme u) weight true true
                              true rmd (nacos.cluster (nacos.opts r))
                              (nacos.group (nacos.opts r)))]))
          as (made & Hm & Hp & Hn).
        eexists (_ :: made). rewrite Hm, <- app_assoc. simpl.
        split; [done |]. split; [by apply prefix_cons |].
        intros Hr. by rewrite (Hn Hr).
Qed.

Lemma Deregister_endpoints_targets (r : nacos.Registry) (si : nacos.ServiceInstance)
    (endpoints : list string) (calls : list nacos.Call) :
  exists made,
    (nacos.Deregister_endpoints r si endpoints calls).2 = calls ++ made /\
    map nacos.target made
      `prefix_of` map (nacos.endpoint_target r (nacos.Name si)) endpoints /\
    ((nacos.Deregister_endpoints r si endpoints calls).1 = None ->
     map nacos.target made = map (nacos.endpoint_target r (nacos.Name si)) endpoints).
Proof.
  revert calls. induction endpoints as [|endpoint endpoints IH]; intros calls; simpl.
  - exists []. by rewrite app_nil_r.
  - unfold nacos.endpoint_target at 1 3.
    destruct (nacos.parseEndpoint endpoint) as [err | [[u host] p]] eqn:Ep.
    + exists []. rewrite app_nil_r. simpl. split; [done |]. split; [| done].
      apply prefix_nil.
    + destruct (nacos.DeregisterInstance _ _ _) as [ok [e|]].
      * eexists [_]. simpl. split; [done |]. split; [| done].
        apply prefix_cons, prefix_nil.
      * destruct (IH (calls ++
                        [nacos.CallDeregisterInstance
                           (nacos.mkDeregisterInstanceParam host p
                              (nacos.Name si +:+ "." +:+ nacos.Scheme u)
                              (nacos.group (nacos.opts r))
                              (nacos.cluster (nacos.opts r)) true)]))
          as (made & Hm & Hp & Hn).
        eexists (_ :: made). rewrite Hm, <- app_assoc. simpl.
        split; [done |]. split; [by apply prefix_cons |].
        intros Hr. by rewrite (Hn Hr).
Qed.

Lemma Register_endpoints_accepted (r : nacos.Registry) (si : nacos.ServiceInstance)
    (endpoints : list string) (calls : list nacos.Call) :
  (forall cs p, (nacos.RegisterInstance (nacos.cli r) cs p).2 = None) ->
  Forall (fun endpoint => exists x, nacos.parseEndpoint endpoint = inr x) endpoints ->
  (nacos.Register_endpoints r si endpoints calls).1 = None.
Proof.
  intros Hacc Hall. revert calls.
  induction Hall as [|endpoint endpoints [[[u host] p] Hp] Hall IH]; intros calls; simpl;
    [done |].
  rewrite Hp. destruct (nacos.buildMetadata r si (nacos.Scheme u)) as [rmd weight].
  match goal with
  | |- context [nacos.RegisterInstance ?c ?cs ?q] =>
      pose proof (Hacc cs q) as Ha; destruct (nacos.RegisterInstance c cs q) as [ok e]
  end.
  simpl in Ha. subst e. apply IH.
Qed.

Lemma Deregister_endpoints_accepted (r : nacos.Registry) (si : nacos.ServiceInstance)
    (endpoints : list string) (calls : list nacos.Call) :
  (forall cs p, (nacos.DeregisterInstance (nacos.cli r) cs p).2 = None) ->
  Forall (fun endpoint => exists x, nacos.parseEndpoint endpoint = inr x) endpoints ->
  (nacos.Deregister_endpoints r si endpoints calls).1 = None.
Proof.
  intros Hacc Hall. revert calls.
  induction Hall as [|endpoint endpoints [[[u host] p] Hp] Hall IH]; intros calls; simpl;
    [done |].
  rewrite Hp.
  match goal with
  | |- context [nacos.DeregisterInstance ?c ?cs ?q] =>
      pose proof (Hacc cs q) as Ha; destruct (nacos.DeregisterInstance c cs q) as [ok e]
  end.
  simpl in Ha. subst e. apply IH.
Qed.

Lemma Deregister_endpoints_only (r : nacos.Registry) (si : nacos.ServiceInstance)
    (endpoints : list string) (calls : list nacos.Call) :
  exists made,
    (nacos.Deregister_endpoints r si endpoints calls).2 = calls ++ made /\
    Forall (fun c => exists p, c = nacos.CallDeregisterInstance p) made.
Proof.
  revert calls. induction endpoints as [|endpoint endpoints IH]; intros calls; simpl.
  - exists []. by rewrite app_nil_r.
  - destruct (nacos.parseEndpoint endpoint) as [err | [[u host] p]].
    + exists []. by rewrite app_nil_r.
    + destruct (nacos.DeregisterInstance _ _ _) as [ok [e|]].
      * eexists [_]. split; [done |]. repeat constructor. by eexists.
      * destruct (IH (calls ++
                        [nacos.CallDeregisterInstance
                           (nacos.mkDeregisterInstanceParam host p
                              (nacos.Name si +:+ "." +:+ nacos.Scheme u)
                              (nacos.group (nacos.opts r))
                              (nacos.cluster (nacos.opts r)) true)]))
          as (made & Hm & Hf).
        eexists (_ :: made). rewrite Hm, <- app_assoc. split; [done |].
        constructor; [by eexists | done].
Qed.

(** X19. [Register] and [Deregister] stop at the first endpoint that
    cannot be read and roll nothing back.  With a client that accepts what
    it is asked, for an instance with a name whose endpoints can be read up
    to one that cannot: both return the error of reading that endpoint;
    [Register] has asked the client to register each of the endpoints
    before it, in their order, and has asked nothing else, so that they
    stay registered; [Deregister] has deregistered each of them; and
    neither has touched the endpoints after it. *)
Theorem registration_stops_at_the_first_failure (r : nacos.Registry)
    (si : nacos.ServiceInstance) (first rest : list string) (bad : string)
    (err : nacos.error) (calls calls' : list nacos.Call) :
  nacos.Name si <> "" ->
  nacos.Endpoints si = first ++ bad :: rest ->
  Forall (fun endpoint => exists x, nacos.parseEndpoint endpoint = inr x) first ->
  nacos.parseEndpoint bad = inl err ->
  (forall cs p, (nacos.RegisterInstance (nacos.cli r) cs p).2 = None) ->
  (forall cs p, (nacos.DeregisterInstance (nacos.cli r) cs p).2 = None) ->
  (exists made,
     nacos.Register r si calls = (Some err, calls ++ made) /\
     Forall (nacos.asks_to_register r si) made /\
     map nacos.target made = map (nacos.endpoint_target r (nacos.Name si)) first) /\
  (exists made,
     nacos.Deregister r si calls' = (Some err, calls' ++ made) /\
     Forall (fun c => exists p, c = nacos.CallDeregisterInstance p) made /\
     map nacos.target made = map (nacos.endpoint_target r (nacos.Name si)) first).
Proof.
  intros Hname Heps Hfirst Hbad Hreg Hdereg. split.
  - unfold nacos.Register. rewrite String_eqb_empty, bool_decide_eq_false_2 by done.
    rewrite Heps, Register_endpoints_app.
    pose proof (Register_endpoints_accepted r si first calls Hreg Hfirst) as Hok.
    destruct (Register_endpoints_calls r si first calls) as (made & Hm & _ & Hask & _).
    destruct (Register_endpoints_targets r si first calls) as (made' & Hm' & _ & Ht).
    assert (made' = made) as -> by (rewrite Hm in Hm'; by apply app_inv_head in Hm').
    destruct (nacos.Register_endpoints r si first calls) as [res calls1].
    simpl in Hok, Hm. subst res calls1. exists made. simpl. rewrite Hbad.
    split; [done |]. split; [done |]. by apply Ht.
  - unfold nacos.Deregister. rewrite Heps, Deregister_endpoints_app.
    pose proof (Deregister_endpoints_accepted r si first calls' Hdereg Hfirst) as Hok.
    destruct (Deregister_endpoints_only r si first calls') as (made & Hm & Hask).
    destruct (Deregister_endpoints_targets r si first calls') as (made' & Hm' & _ & Ht).
    assert (made' = made) as -> by (rewrite Hm in Hm'; by apply app_inv_head in Hm').
    destruct (nacos.Deregister_endpoints r si first calls') as [res calls1].
    simpl in Hok, Hm. subst res calls1. exists made. simpl. rewrite Hbad.
    split; [done |]. split; [done |]. by apply Ht.
Qed.

(** X21. [Deregister] goes where [Register] went: the calls of either
    address, in the order of the endpoints, the host, port, service name,
    group and cluster read from the endpoints, up to the endpoint at which
    it stops; when both return nil they have addressed the same places,
    one for each endpoint. *)
Theorem Deregister_goes_where_Register_went (r : nacos.Registry)
    (si : nacos.ServiceInstance) (calls calls' : list nacos.Call) :
  exists registered deregistered,
    (nacos.Register r si calls).2 = calls ++ registered /\
    (nacos.Deregister r si calls').2 = calls' ++ deregistered /\
    map nacos.target registered
      `prefix_of` map (nacos.endpoint_target r (nacos.Name si)) (nacos.Endpoints si) /\
    map nacos.target deregistered
      `prefix_of` map (nacos.endpoint_target r (nacos.Name si)) (nacos.Endpoints si) /\
    ((nacos.Register r si calls).1 = None -> (nacos.Deregister r si calls').1 = None ->
     map nacos.target registered = map nacos.target deregistered /\
     length registered = length (nacos.Endpoints si)).
Proof.
  destruct (Deregister_endpoints_targets r si (nacos.Endpoints si) calls')
    as (dereg & Hd & Hdp & Hdn).
  unfold nacos.Deregister, nacos.Register.
  destruct (String.eqb (nacos.Name si) "").
  - exists [], dereg. rewrite app_nil_r. simpl.
    split; [done |]. split; [done |]. split; [apply prefix_nil |]. split; done.
  - destruct (Register_endpoints_targets r si (nacos.Endpoints si) calls)
      as (reg & Hr & Hrp & Hrn).
    exists reg, dereg. split; [done |]. split; [done |]. split; [done |].
    split; [done |]. intros H1 H2. rewrite (Hrn H1), (Hdn H2). split; [done |].
    rewrite <- (length_map nacos.target reg), (Hrn H1). by rewrite length_map.
Qed.

Lemma GetService_item_made_of (r : nacos.Registry) (i : nacos.Instance)
    (item : nacos.ServiceInstance) :
  nacos.GetService_item r i = Some item -> nacos.made_of i item.
Proof.
  unfold nacos.GetService_item, nacos.made_of.
  destruct (nacos.iMetadata i) as [md|]; [| done]. intros [= <-]. simpl.
  repeat split. eexists. split; [done |].
  split; [by rewrite lookup_insert_eq |]. intros k Hk. by rewrite lookup_insert_ne.
Qed.

Lemma GetService_items_all (r : nacos.Registry) (res : list nacos.Instance)
    (items : list nacos.ServiceInstance) :
  Forall (fun i => is_Some (nacos.iMetadata i)) res ->
  exists more,
    nacos.GetService_items r res items = nacos.Returns _ (items ++ more) /\
    Forall2 nacos.made_of res more.
Proof.
  intros Hall. revert items. induction Hall as [|i res [md Hi] Hall IH]; intros items.
  - exists []. by rewrite app_nil_r.
  - simpl. destruct (nacos.GetService_item r i) as [item|] eqn:E.
    + destruct (IH (items ++ [item])) as (more & Hm & Hf).
      exists (item :: more). rewrite Hm, <- app_assoc. split; [done |].
      constructor; [by apply (GetService_item_made_of r) | done].
    + unfold nacos.GetService_item in E. by rewrite Hi in E.
Qed.

Lemma GetService_items_nil_map (r : nacos.Registry) (res : list nacos.Instance)
    (items : list nacos.ServiceInstance) :
  Exists (fun i => nacos.iMetadata i = None) res ->
  nacos.GetService_items r res items = nacos.Panics _.
Proof.
  intros Hex. revert items. induction Hex as [i res Hi | i res Hex IH]; intros items; simpl.
  - unfold nacos.GetService_item. by rewrite Hi.
  - by destruct (nacos.GetService_item r i).
Qed.

(** X22. [GetService] asks the client once, for the healthy instances of
    the service in the group of the options.  An error of the client is
    returned as it is.  If every instance that the client returns has
    metadata, [GetService] returns one service instance for each, in their
    order, with one endpoint and with the metadata of the instance and a
    weight added to them; if one of them has none, the assignment of line
    212 writes to a nil map and [GetService] panics. *)
Theorem GetService_needs_metadata (r : nacos.Registry) (serviceName : string)
    (calls : list nacos.Call) :
  (nacos.GetService r serviceName calls).2
  = calls ++ [nacos.asks_for_instances r serviceName] /\
  match nacos.SelectInstances (nacos.cli r) calls
          (nacos.mkSelectInstancesParam serviceName (nacos.group (nacos.opts r)) true) with
  | inl err => (nacos.GetService r serviceName calls).1 = nacos.Returns _ (inl err)
  | inr res =>
      (Forall (fun i => is_Some (nacos.iMetadata i)) res ->
       exists items,
         (nacos.GetService r serviceName calls).1 = nacos.Returns _ (inr items) /\
         Forall2 nacos.made_of res items) /\
      (Exists (fun i => nacos.iMetadata i = None) res ->
       (nacos.GetService r serviceName calls).1 = nacos.Panics _)
  end.
Proof.
  unfold nacos.GetService, nacos.asks_for_instances.
  destruct (nacos.SelectInstances _ _ _) as [err | res]; [done |]. split.
  - by destruct (nacos.GetService_items r res []).
  - split.
    + intros Hall. destruct (GetService_items_all r res [] Hall) as (items & -> & Hf).
      by exists items.
    + intros Hex. by rewrite (GetService_items_nil_map r res [] Hex).
Qed.

Lemma Register_endpoints_frame (r1 r2 : nacos.Registry) (si : nacos.ServiceInstance)
    (endpoints : list string) (calls : list nacos.Call) :
  nacos.cli r1 = nacos.cli r2 ->
  nacos.weight (nacos.opts r1) = nacos.weight (nacos.opts r2) ->
  nacos.cluster (nacos.opts r1) = nacos.cluster (nacos.opts r2) ->
  nacos.group (nacos.opts r1) = nacos.group (nacos.opts r2) ->
  nacos.Register_endpoints r1 si endpoints calls
  = nacos.Register_endpoints r2 si endpoints calls.
Proof.
  intros Hc Hw Hcl Hg. revert calls.
  induction endpoints as [|endpoint endpoints IH]; intros calls; simpl; [done |].
  destruct (nacos.parseEndpoint endpoint) as [err | [[u host] p]]; [done |].
  unfold nacos.buildMetadata. rewrite Hc, Hw, Hcl, Hg.
  destruct (nacos.Metadata si) as [md|]; simpl.
  - destruct (nacos.RegisterInstance _ _ _) as [ok [e|]]; [done |]. apply IH.
  - destruct (nacos.RegisterInstance _ _ _) as [ok [e|]]; [done |]. apply IH.
Qed.

Lemma Deregister_endpoints_frame (r1 r2 : nacos.Registry) (si : nacos.ServiceInstance)
    (endpoints : list string) (calls : list nacos.Call) :
  nacos.cli r1 = nacos.cli r2 ->
  nacos.cluster (nacos.opts r1) = nacos.cluster (nacos.opts r2) ->
  nacos.group (nacos.opts r1) = nacos.group (nacos.opts r2) ->
  nacos.Deregister_endpoints r1 si endpoints calls
  = nacos.Deregister_endpoints r2 si endpoints calls.
Proof.
  intros Hc Hcl Hg. revert calls.
  induction endpoints as [|endpoint endpoints IH]; intros calls; simpl; [done |].
  destruct (nacos.parseEndpoint endpoint) as [err | [[u host] p]]; [done |].
  rewrite Hc, Hcl, Hg.
  destruct (nacos.DeregisterInstance _ _ _) as [ok [e|]]; [done |]. apply IH.
Qed.

(** X23. Of the options, registration reads the weight, the cluster and
    the group only: two registries with the same client that agree on
    these three register and deregister alike; the prefix and the default
    kind make no difference to either. *)
Theorem registration_reads_weight_cluster_and_group (r1 r2 : nacos.Registry)
    (si : nacos.ServiceInstance) (calls : list nacos.Call) :
  nacos.cli r1 = nacos.cli r2 ->
  nacos.weight (nacos.opts r1) = nacos.weight (nacos.opts r2) ->
  nacos.cluster (nacos.opts r1) = nacos.cluster (nacos.opts r2) ->
  nacos.group (nacos.opts r1) = nacos.group (nacos.opts r2) ->
  nacos.Register r1 si calls = nacos.Register r2 si calls /\
  nacos.Deregister r1 si calls = nacos.Deregister r2 si calls.
Proof.
  intros Hc Hw Hcl Hg. unfold nacos.Register, nacos.Deregister.
  rewrite (Register_endpoints_frame r1 r2) by done.
  by rewrite (Deregister_endpoints_frame r1 r2).
Qed.

End Nacos.

Lemma registration_stops_at_the_first_failure_witness :
  (exists made,
     nacos.Register (nacos.New nacos_test.accepting_client [])
       (nacos.mkServiceInstance "1" "greeter" "v1" None
          ["grpc://10.0.0.1:9000"; "http://10.0.0.1:http"; "http://10.0.0.1:8000"]) []
     = (Some (nacos.ErrParseUint "http"), [] ++ made) /\
     Forall (nacos.asks_to_register (nacos.New nacos_test.accepting_client [])
               (nacos.mkServiceInstance "1" "greeter" "v1" None
                  ["grpc://10.0.0.1:9000"; "http://10.0.0.1:http"; "http://10.0.0.1:8000"]))
       made /\
     map nacos.target made
     = [Some ("10.0.0.1", 9000, "greeter.grpc", "DEFAULT_GROUP", "DEFAULT")]) /\
  (exists made,
     nacos.Deregister (nacos.New nacos_test.accepting_client [])
       (nacos.mkServiceInstance "1" "greeter" "v1" None
          ["grpc://10.0.0.1:9000"; "http://10.0.0.1:http"; "http://10.0.0.1:8000"]) []
     = (Some (nacos.ErrParseUint "http"), [] ++ made) /\
     Forall (fun c => exists p, c = nacos.CallDeregisterInstance p) made /\
     map nacos.target made
     = [Some ("10.0.0.1", 9000, "greeter.grpc", "DEFAULT_GROUP", "DEFAULT")]).
Proof.
  apply (registration_stops_at_the_first_failure (H := nacos_test.plain_library)
           (nacos.New nacos_test.accepting_client [])
           (nacos.mkServiceInstance "1" "greeter" "v1" None
              ["grpc://10.0.0.1:9000"; "http://10.0.0.1:http"; "http://10.0.0.1:8000"])
           ["grpc://10.0.0.1:9000"] ["http://10.0.0.1:8000"] "http://10.0.0.1:http"
           (nacos.ErrParseUint "http") [] []).
  - discriminate.
  - reflexivity.
  - repeat constructor. by eexists.
  - reflexivity.
  - reflexivity.
  - reflexivity.
Defined.

Lemma registration_reads_weight_cluster_and_group_witness :
  nacos.Register
    (nacos.New nacos_test.accepting_client
       [nacos.WithPrefix "/services"; nacos.WithDefaultKind "http"])
    nacos_test.greeter []
  = nacos.Register (nacos.New nacos_test.accepting_client []) nacos_test.greeter [] /\
  nacos.Deregister
    (nacos.New nacos_test.accepting_client
       [nacos.WithPrefix "/services"; nacos.WithDefaultKind "http"])
    nacos_test.greeter []
  = nacos.Deregister (nacos.New nacos_test.accepting_client []) nacos_test.greeter [].
Proof.
  apply (registration_reads_weight_cluster_and_group (H := nacos_test.plain_library));
    reflexivity.
Defined.

(** * The logger *)

Section ZapLog.
Import Stdlib.Strings.Ascii.

Lemma LastIndexOf_bounds (s sub : string) :
  -1 <= stdlib.LastIndexOf s sub <= Z.of_nat (String.length s).
Proof.
  induction s as [|a s IH].
  - destruct sub; simpl; lia.
  - cbn [stdlib.LastIndexOf String.length]. cbv zeta.
    destruct (0 <=? stdlib.LastIndexOf s sub) eqn:E; [lia |].
    destruct (stdlib.HasPrefix (String a s) sub); lia.
Qed.

Lemma LastIndexOf_HasPrefix (s sub : string) :
  0 <= stdlib.LastIndexOf s sub ->
  stdlib.HasPrefix (stdlib.slice_from s (stdlib.LastIndexOf s sub)) sub = true.
Proof.
  unfold stdlib.slice_from. induction s as [|a s IH].
  - simpl. destruct sub; simpl; [done | intros ?; lia].
  - cbn [stdlib.LastIndexOf]. cbv zeta.
    pose proof (LastIndexOf_bounds s sub) as Hb.
    destruct (0 <=? stdlib.LastIndexOf s sub) eqn:E.
    + apply Z.leb_le in E. intros _.
      replace (Z.to_nat (stdlib.LastIndexOf s sub + 1))
        with (S (Z.to_nat (stdlib.LastIndexOf s sub))) by lia.
      cbn [stdlib.drop_bytes]. by apply IH.
    + destruct (stdlib.HasPrefix (String a s) sub) eqn:Hp; [done | lia].
Qed.

Lemma Contains_LastIndexOf (s sub : string) :
  stdlib.Contains s sub = (0 <=? stdlib.LastIndexOf s sub).
Proof.
  induction s as [|a s IH].
  - simpl. destruct sub; done.
  - cbn [stdlib.Contains stdlib.LastIndexOf]. cbv zeta. rewrite IH.
    destruct (0 <=? stdlib.LastIndexOf s sub) eqn:E.
    + apply Z.leb_le in E. rewrite orb_true_r. symmetry. apply Z.leb_le. lia.
    + rewrite orb_false_r. by destruct (stdlib.HasPrefix (String a s) sub).
Qed.

Lemma HasPrefix_app (s p : string) :
  stdlib.HasPrefix s p = true -> exists t, s = p +:+ t.
Proof.
  revert s. induction p as [|b p IH]; intros s Hp; simpl in *; [by eexists |].
  destruct s as [|a s]; [done |]. apply andb_prop in Hp as [Ha Hp].
  apply Ascii.eqb_eq in Ha as ->. destruct (IH s Hp) as [t ->]. by eexists.
Qed.

Lemma take_drop_bytes (n : nat) (s : string) :
  s = stdlib.take_bytes n s +:+ stdlib.drop_bytes n s.
Proof.
  revert s. induction n as [|n IH]; intros s; [by destruct s |].
  destruct s as [|a s]; [done |]. cbn [stdlib.take_bytes stdlib.drop_bytes].
  exact (f_equal (String a) (IH s)).
Qed.

Lemma drop_bytes_S (n : nat) (s : string) :
  stdlib.drop_bytes (S n) s = stdlib.drop_bytes 1 (stdlib.drop_bytes n s).
Proof.
  revert s. induction n as [|n IH]; intros s; [by destruct s |].
  destruct s as [|a s]; [done |].
  change (stdlib.drop_bytes (S n) s = stdlib.drop_bytes 1 (stdlib.drop_bytes n s)).
  apply IH.
Qed.

Lemma append_assoc (a b c : string) : (a +:+ b) +:+ c = a +:+ b +:+ c.
Proof.
  induction a as [|x a IH]; [done |].
  change (String x ((a +:+ b) +:+ c) = String x (a +:+ b +:+ c)). by f_equal.
Qed.

(** The text after an occurrence found by [strings.LastIndex]. *)
Lemma LastIndexOf_tail (s sub : string) :
  0 <= stdlib.LastIndexOf s sub ->
  exists dir t,
    s = dir +:+ sub +:+ t /\
    stdlib.slice_from s (stdlib.LastIndexOf s sub + 1)
    = stdlib.drop_bytes 1 (sub +:+ t).
Proof.
  intros Hi. destruct (HasPrefix_app _ _ (LastIndexOf_HasPrefix s sub Hi)) as [t Ht].
  exists (stdlib.slice_to s (stdlib.LastIndexOf s sub)), t. split.
  - rewrite <- Ht. apply take_drop_bytes.
  - rewrite <- Ht. unfold stdlib.slice_from.
    replace (Z.to_nat (stdlib.LastIndexOf s sub + 1))
      with (S (Z.to_nat (stdlib.LastIndexOf s sub))) by lia.
    apply drop_bytes_S.
Qed.

Lemma Split_nonempty (s : string) (c : ascii) :
  exists h t, stdlib.Split s c = h :: t.
Proof.
  induction s as [|a s (h & t & IH)]; simpl; [by eexists _, _ |].
  destruct (Ascii.eqb a c); [by eexists _, _ |]. rewrite IH. by eexists _, _.
Qed.

Lemma Split_no_sep (s : string) (c : ascii) :
  stdlib.LastIndex s c = -1 -> stdlib.Split s c = [s].
Proof.
  induction s as [|a s IH]; simpl; [done |].
  pose proof (LastIndex_bounds s c) as Hb.
  destruct (0 <=? stdlib.LastIndex s c) eqn:E; [lia |].
  destruct (Ascii.eqb a c); [done |]. intros _. rewrite IH; [done |].
  apply Z.leb_gt in E. lia.
Qed.

Lemma Split_app (s q : string) (c : ascii) :
  stdlib.Split (s +:+ String c q) c = stdlib.Split s c ++ stdlib.Split q c.
Proof.
  induction s as [|a s IH]; simpl.
  - by rewrite Ascii.eqb_refl.
  - destruct (Ascii.eqb a c); [by rewrite IH |].
    rewrite IH. by destruct (Split_nonempty s c) as (h & t & ->).
Qed.

(** The parts of a text that holds the separator: those of the text before
    its last occurrence, and the text after it. *)
Lemma Split_last (s : string) (c : ascii) :
  0 <= stdlib.LastIndex s c ->
  stdlib.Split s c
  = stdlib.Split (stdlib.slice_to s (stdlib.LastIndex s c)) c
    ++ [stdlib.slice_from s (stdlib.LastIndex s c + 1)].
Proof.
  intros Hi. destruct (LastIndex_split s c Hi) as [Hs Hn].
  rewrite Hs at 1. rewrite Split_app. by rewrite (Split_no_sep _ _ Hn).
Qed.

Lemma nth_last_two {A} (l : list A) (p q d : A) :
  nth (length (l ++ [p; q]) - 2) (l ++ [p; q]) d = p /\
  nth (length (l ++ [p; q]) - 1) (l ++ [p; q]) d = q.
Proof.
  rewrite length_app. simpl. split.
  - replace (length l + 2 - 2)%nat with (length l + 0)%nat by lia.
    by rewrite app_nth2_plus.
  - replace (length l + 2 - 1)%nat with (length l + 1)%nat by lia.
    by rewrite app_nth2_plus.
Qed.

(** The last two parts of a path. *)
Lemma Split_last_two (s : string) (c : ascii) :
  (stdlib.Split s c = [s]) \/
  (exists l p q,
     stdlib.Split s c = l ++ [p; q] /\
     (s = p +:+ String c q \/ exists dir, s = dir +:+ String c (p +:+ String c q))).
Proof.
  pose proof (LastIndex_bounds s c) as Hb.
  destruct (decide (stdlib.LastIndex s c = -1)) as [Hn | Hn];
    [left; by apply Split_no_sep |].
  right. assert (0 <= stdlib.LastIndex s c) as Hi by lia.
  destruct (LastIndex_split s c Hi) as [Hs _].
  set (s1 := stdlib.slice_to s (stdlib.LastIndex s c)) in *.
  set (q := stdlib.slice_from s (stdlib.LastIndex s c + 1)) in *.
  pose proof (Split_last s c Hi) as Hsp. fold s1 q in Hsp.
  pose proof (LastIndex_bounds s1 c) as Hb1.
  destruct (decide (stdlib.LastIndex s1 c = -1)) as [Hn1 | Hn1].
  - exists [], s1, q. rewrite (Split_no_sep _ _ Hn1) in Hsp. split; [done |]. by left.
  - assert (0 <= stdlib.LastIndex s1 c) as Hi1 by lia.
    destruct (LastIndex_split s1 c Hi1) as [Hs1 _].
    rewrite (Split_last s1 c Hi1) in Hsp.
    eexists _, _, q. rewrite <- app_assoc in Hsp. split; [exact Hsp |].
    right. eexists. rewrite Hs at 1. rewrite Hs1 at 1. by rewrite append_assoc.
Qed.

Variable Itoa : Z -> string.

Lemma formatCaller_markers_tail (file : string) (line : Z) (ms : list string) (r : string) :
  Forall (fun m => exists m', m = String "/" m') ms ->
  zapLog.formatCaller_markers Itoa file line ms = Some r ->
  exists dir path, r = path +:+ ":" +:+ Itoa line /\ file = dir +:+ "/" +:+ path.
Proof.
  induction 1 as [|m ms [m' ->] Hms IH]; simpl; [done |].
  pose proof (LastIndexOf_bounds file (String "/" m')) as Hb.
  destruct (Z.eqb_spec (stdlib.LastIndexOf file (String "/" m')) (-1)) as [E | E];
    simpl; [done |].
  intros [= <-].
  destruct (LastIndexOf_tail file (String "/" m') ltac:(lia)) as (dir & t & Hf & Hs).
  exists dir, (m' +:+ t). rewrite Hs. simpl. split; [by rewrite append_assoc | done].
Qed.

(** X24. [formatCaller] names a position by the end of the path of its
    file: what it returns is a text, a colon and the line, where the text
    is the whole path or what follows one of its slashes. *)
Theorem formatCaller_keeps_the_end_of_the_path (file : string) (line : Z) :
  exists path,
    zapLog.formatCaller Itoa file line = path +:+ ":" +:+ Itoa line /\
    (path = file \/ exists dir, file = dir +:+ "/" +:+ path).
Proof.
  unfold zapLog.formatCaller.
  destruct (zapLog.formatCaller_markers Itoa file line zapLog.markers) as [r|] eqn:E.
  - destruct (formatCaller_markers_tail file line zapLog.markers r) as (dir & path & -> & Hf);
      [| done |].
    + unfold zapLog.markers. repeat constructor; by eexists.
    + exists path. split; [done |]. right. by exists dir.
  - destruct (Split_last_two file "/") as [-> | (l & p & q & -> & Hs)].
    + simpl. exists file. split; [done | by left].
    + destruct (nth_last_two l p q "") as [-> ->].
      replace (2 <=? length (l ++ [p; q]))%nat with true
        by (symmetry; apply Nat.leb_le; rewrite length_app; simpl; lia).
      exists (p +:+ "/" +:+ q). split; [by rewrite !append_assoc |].
      destruct Hs as [-> | [dir ->]]; [by left | right; by exists dir].
Qed.

Lemma formatCaller_markers_first (file : string) (line : Z)
    (before after : list string) (m : string) :
  Forall (fun m' => stdlib.Contains file m' = false) before ->
  stdlib.Contains file m = true ->
  zapLog.formatCaller_markers Itoa file line (before ++ m :: after)
  = Some (stdlib.slice_from file (stdlib.LastIndexOf file m + 1) +:+ ":" +:+ Itoa line).
Proof.
  intros Hb Hm. induction Hb as [|m' before Hm' Hb IH]; simpl.
  - rewrite Contains_LastIndexOf in Hm. apply Z.leb_le in Hm.
    destruct (Z.eqb_spec (stdlib.LastIndexOf file m) (-1)) as [E | E]; [lia | done].
  - rewrite Contains_LastIndexOf in Hm'. apply Z.leb_gt in Hm'.
    pose proof (LastIndexOf_bounds file m') as Hbd.
    destruct (Z.eqb_spec (stdlib.LastIndexOf file m') (-1)) as [E | E]; [done | lia].
Qed.

(** X25. The markers of [formatCaller] are tried in their order, not in
    the order in which the path holds them: the first marker of the list
    that the path holds decides, whatever markers come before or after
    it in the path, and the result begins with this marker without its
    first slash. *)
Theorem formatCaller_takes_the_first_marker_of_the_list (file : string) (line : Z)
    (before after : list string) (m : string) :
  zapLog.markers = before ++ m :: after ->
  Forall (fun m' => stdlib.Contains file m' = false) before ->
  stdlib.Contains file m = true ->
  exists rest,
    zapLog.formatCaller Itoa file line = stdlib.drop_bytes 1 m +:+ rest.
Proof.
  intros Hms Hb Hm. unfold zapLog.formatCaller.
  rewrite Hms, (formatCaller_markers_first file line before after m Hb Hm).
  rewrite Contains_LastIndexOf in Hm. apply Z.leb_le in Hm.
  destruct (LastIndexOf_tail file m Hm) as (dir & t & Hf & ->).
  assert (exists c m', m = String c m') as (c & m' & ->).
  { assert (m ∈ zapLog.markers) as Hin by (rewrite Hms; set_solver).
    unfold zapLog.markers in Hin. set_unfold in Hin.
    destruct Hin as [-> | [-> | [-> | [-> | []]]]]; by eexists _, _. }
  simpl. eexists. by rewrite append_assoc.
Qed.

Variable Caller : nat -> option (string * Z).

Lemma getCaller_from_reports (i n k : nat) (file : string) (line : Z) :
  (i <= k < i + n)%nat ->
  Caller k = Some (file, line) ->
  existsb (stdlib.Contains file) zapLog.skipPatterns = false ->
  (forall j, (i <= j < k)%nat ->
     exists f l, Caller j = Some (f, l) /\
                 existsb (stdlib.Contains f) zapLog.skipPatterns = true) ->
  zapLog.getCaller_from Itoa Caller i n = zapLog.formatCaller Itoa file line.
Proof.
  revert i. induction n as [|n IH]; intros i Hk Hc Hs Hj; [lia |].
  cbn [zapLog.getCaller_from].
  destruct (decide (k = i)) as [-> | Hne].
  - by rewrite Hc, Hs.
  - destruct (Hj i ltac:(lia)) as (f & l & -> & ->).
    apply IH; [lia | done | done |]. intros j Hji. apply Hj. lia.
Qed.

Lemma getCaller_from_unknown (i n k : nat) :
  (i <= k <= i + n)%nat ->
  (forall j, (i <= j < k)%nat ->
     exists f l, Caller j = Some (f, l) /\
                 existsb (stdlib.Contains f) zapLog.skipPatterns = true) ->
  k = (i + n)%nat \/ Caller k = None ->
  zapLog.getCaller_from Itoa Caller i n = "unknown".
Proof.
  revert i. induction n as [|n IH]; intros i Hk Hj Hend; [done |].
  cbn [zapLog.getCaller_from].
  destruct (decide (k = i)) as [-> | Hne].
  - destruct Hend as [? | ->]; [lia | done].
  - destruct (Hj i ltac:(lia)) as (f & l & -> & ->).
    apply IH; [lia | | destruct Hend; [left; lia | by right]].
    intros j Hji. apply Hj. lia.
Qed.

Lemma frames_from (i n : nat) :
  (exists k file line,
     (i <= k < i + n)%nat /\
     Caller k = Some (file, line) /\
     existsb (stdlib.Contains file) zapLog.skipPatterns = false /\
     (forall j, (i <= j < k)%nat ->
        exists f l, Caller j = Some (f, l) /\
                    existsb (stdlib.Contains f) zapLog.skipPatterns = true)) \/
  (exists k,
     (i <= k <= i + n)%nat /\
     (forall j, (i <= j < k)%nat ->
        exists f l, Caller j = Some (f, l) /\
                    existsb (stdlib.Contains f) zapLog.skipPatterns = true) /\
     (k = (i + n)%nat \/ Caller k = None)).
Proof.
  induction n as [|n IH].
  - right. exists i. split; [lia |]. split; [intros j ?; lia | left; lia].
  - destruct IH as [(k & file & line & Hk & Hc & Hs & Hj) | (k & Hk & Hj & Hend)].
    + left. exists k, file, line. split; [lia | done].
    + destruct (Caller k) as [[file line]|] eqn:Hc.
      * destruct Hend as [-> | ?]; [| done].
        destruct (existsb (stdlib.Contains file) zapLog.skipPatterns) eqn:Hs.
        -- right. exists (S (i + n)). split; [lia |]. split; [| left; lia].
           intros j Hji. destruct (decide (j = (i + n)%nat)) as [-> | Hne].
           ++ by exists file, line.
           ++ apply Hj. lia.
        -- left. exists (i + n)%nat, file, line. split; [lia | done].
      * right. exists k. split; [lia |]. split; [done | by right].
Qed.

(** X26. [getCaller] reports the first frame, from the third above it,
    whose file is neither of kratos nor this logger.  When the frames from
    the third up to some frame before the fifteenth all hold a pattern to
    skip and that frame holds none, [getCaller] returns the position of
    that frame; when they all hold one until the stack ends or up to the
    fourteenth, it returns ["unknown"]; and every stack is of one of these
    two kinds. *)
Theorem getCaller_reports_the_first_frame_outside :
  (forall k file line,
     (3 <= k < zapLog.maxDepth)%nat ->
     Caller k = Some (file, line) ->
     existsb (stdlib.Contains file) zapLog.skipPatterns = false ->
     (forall j, (3 <= j < k)%nat ->
        exists f l, Caller j = Some (f, l) /\
                    existsb (stdlib.Contains f) zapLog.skipPatterns = true) ->
     zapLog.getCaller Itoa Caller = zapLog.formatCaller Itoa file line) /\
  (forall k,
     (3 <= k <= zapLog.maxDepth)%nat ->
     (forall j, (3 <= j < k)%nat ->
        exists f l, Caller j = Some (f, l) /\
                    existsb (stdlib.Contains f) zapLog.skipPatterns = true) ->
     k = zapLog.maxDepth \/ Caller k = None ->
     zapLog.getCaller Itoa Caller = "unknown") /\
  ((exists k file line,
      (3 <= k < zapLog.maxDepth)%nat /\
      Caller k = Some (file, line) /\
      existsb (stdlib.Contains file) zapLog.skipPatterns = false /\
      (forall j, (3 <= j < k)%nat ->
         exists f l, Caller j = Some (f, l) /\
                     existsb (stdlib.Contains f) zapLog.skipPatterns = true)) \/
   (exists k,
      (3 <= k <= zapLog.maxDepth)%nat /\
      (forall j, (3 <= j < k)%nat ->
         exists f l, Caller j = Some (f, l) /\
                     existsb (stdlib.Contains f) zapLog.skipPatterns = true) /\
      (k = zapLog.maxDepth \/ Caller k = None))).
Proof.
  unfold zapLog.getCaller.
  change zapLog.maxDepth with (3 + (zapLog.maxDepth - 3))%nat.
  split; [| split].
  - intros k file line. apply getCaller_from_reports.
  - intros k. apply getCaller_from_unknown.
  - apply frames_from.
Qed.

Variable Any : Type.
Variable Sprint : Any -> string.
Variable Sprint_keyvals : list Any -> string.

Lemma length_keyvals_of (pairs : list (Any * Any)) :
  length (zapLog.keyvals_of Any pairs) = (2 * length pairs)%nat.
Proof. induction pairs as [|[k v] pairs IH]; simpl; [done | rewrite IH; lia]. Qed.

Lemma Log_fields_keyvals_of (pairs : list (Any * Any)) :
  zapLog.Log_fields Any Sprint (zapLog.keyvals_of Any pairs)
  = map (fun kv => (Sprint kv.1, Sprint kv.2)) pairs.
Proof. induction pairs as [|[k v] pairs IH]; simpl; [done | by rewrite IH]. Qed.

(** X27. [Log] makes at most one call to the zap logger.  For keys and
    values in pairs, at least one, it is the call of the level, with an
    empty message, the caller as the first field and one field for each
    pair in their order, and no call at all for a level that is none of
    the five.  For no key at all or a key without a value it is a warning
    with no field, whatever the level, [LevelFatal] too. *)
Theorem Log_writes_the_pairs (level : Z) (pair : Any * Any) (pairs : list (Any * Any))
    (k : Any) :
  zapLog.Log Itoa Caller Any Sprint Sprint_keyvals level (zapLog.keyvals_of Any (pair :: pairs))
  = match zapLog.method_of level with
    | Some m =>
        [zapLog.mkZapCall m ""
           (("caller", zapLog.getCaller Itoa Caller)
            :: map (fun kv => (Sprint kv.1, Sprint kv.2)) (pair :: pairs))]
    | None => []
    end /\
  zapLog.Log Itoa Caller Any Sprint Sprint_keyvals level []
  = [zapLog.mkZapCall zapLog.Warn (Sprint_keyvals []) []] /\
  zapLog.Log Itoa Caller Any Sprint Sprint_keyvals level (k :: zapLog.keyvals_of Any pairs)
  = [zapLog.mkZapCall zapLog.Warn (Sprint_keyvals (k :: zapLog.keyvals_of Any pairs)) []].
Proof.
  split; [| split].
  - unfold zapLog.Log. rewrite Log_fields_keyvals_of, length_keyvals_of.
    replace (2 * length (pair :: pairs) =? 0)%nat with false
      by (symmetry; apply Nat.eqb_neq; simpl; lia).
    replace ((2 * length (pair :: pairs)) mod 2 =? 0)%nat with true
      by (symmetry; apply Nat.eqb_eq; rewrite Nat.mul_comm; apply Nat.Div0.mod_mul).
    cbn [orb negb]. cbv iota. unfold zapLog.method_of. by repeat case_match.
  - done.
  - unfold zapLog.Log. cbn [length]. rewrite length_keyvals_of.
    replace (S (2 * length pairs) mod 2 =? 0)%nat with false; [done |].
    symmetry. apply Nat.eqb_neq.
    replace (S (2 * length pairs)) with (1 + length pairs * 2)%nat by lia.
    rewrite Nat.Div0.mod_add. done.
Qed.

End ZapLog.

(** The caller of [TickerJob.Start] through two frames of kratos. *)
Example getCaller_of_a_job (Itoa : Z -> string) :
  zapLog.getCaller Itoa zapLog.stack = "internal/job/ticker_job.go:" +:+ Itoa 48.
Proof. reflexivity. Qed.

Lemma getCaller_reports_the_first_frame_outside_witness :
  zapLog.getCaller (fun _ => "48") zapLog.stack
  = zapLog.formatCaller (fun _ => "48") "/src/app/internal/job/ticker_job.go" 48.
Proof.
  destruct (getCaller_reports_the_first_frame_outside (fun _ => "48") zapLog.stack)
    as [Hreports _].
  apply (Hreports 4%nat).
  - unfold zapLog.maxDepth. lia.
  - reflexivity.
  - reflexivity.
  - intros j Hj. assert (j = 3%nat) as -> by lia. by eexists _, _.
Defined.

Lemma formatCaller_takes_the_first_marker_of_the_list_witness :
  exists rest,
    zapLog.formatCaller (fun _ => "7") "/src/app/cmd/tool/pkg/util/x.go" 7
    = "pkg/" +:+ rest.
Proof.
  apply (formatCaller_takes_the_first_marker_of_the_list (fun _ => "7")
           "/src/app/cmd/tool/pkg/util/x.go" 7 ["/internal/"] ["/cmd/"; "/test/"] "/pkg/").
  - reflexivity.
  - repeat constructor.
  - reflexivity.
Defined.
